(** * lal-checkers: the Basic IR, its constant evaluator, the universal-type
      normalizer and the libadalang lowering

    A shallow embedding of [lalcheck/irs/basic/frontends/lal.py] and of the
    node model it builds ([lalcheck/irs/basic/tree.py]).  Python values are
    an inductive type, exceptions are an error monad, the closures of
    [_gen_ir] that share [tmp_vars], [var_decls] and [loop_stack] become a
    state-and-error monad. *)

From stdpp Require Import gmap strings list pretty.
From Stdlib Require Import ZArith.

Set Warnings "-register-all".

Local Open Scope Z_scope.
Local Open Scope string_scope.
Local Open Scope list_scope.

(** ** Python exceptions and results *)

(** The exceptions the modelled code can raise. *)
Inductive exn :=
| NotConstExprError
| NotImplementedError
| KeyError
| TypeError
| AttributeError
| IndexError
| StopIteration
| ValueError.

Inductive result (A : Type) :=
| Ok (a : A)
| Raise (e : exn).
Arguments Ok {A} a.
Arguments Raise {A} e.

#[global] Instance exn_eq_dec : EqDecision exn.
Proof. solve_decision. Defined.

#[global] Instance result_ret : MRet result := fun _ a => Ok a.
#[global] Instance result_bind : MBind result := fun _ _ f m =>
  match m with
  | Ok a => f a
  | Raise e => Raise e
  end.
#[global] Instance result_fmap : FMap result := fun _ _ f m =>
  match m with
  | Ok a => Ok (f a)
  | Raise e => Raise e
  end.

Definition is_Ok {A} (r : result A) : Prop := ∃ a, r = Ok a.

(** [try: body except KeyError: raise NotConstExprError] *)
Definition except_KeyError {A} (body : result A) : result A :=
  match body with
  | Raise KeyError => Raise NotConstExprError
  | r => r
  end.

(** A [dict] lookup by subscript raises [KeyError] on a missing key. *)
Definition subscript {A} (o : option A) : result A :=
  match o with
  | Some a => Ok a
  | None => Raise KeyError
  end.

(** Monadic map, left to right (a list comprehension or a [for] loop whose
    body may raise). *)
Fixpoint try_map {A B} (f : A → result B) (l : list A) : result (list B) :=
  match l with
  | [] => Ok []
  | x :: l' => y ← f x; ys ← try_map f l'; Ok (y :: ys)
  end.

(** ** Values *)

(** The Python 2 values that reach a literal node or the evaluator: [int],
    [long], [str], [None] and [ConstExprEvaluator.Range].  An [int] is a
    machine integer; a [long] is unbounded, and stays a [long] whatever its
    size. *)
Inductive value :=
| VInt (z : Z)
| VLong (z : Z)
| VStr (s : string)
| VNone
| VRange (first last : value).

#[global] Instance value_eq_dec : EqDecision value.
Proof. solve_decision. Defined.

(** [sys.maxint], of an interpreter whose C [long] has 64 bits. *)
Definition maxint : Z := 9223372036854775807.

(** The integer [z] as [int(text)] or an operation on two [int]s returns
    it: an [int] when it fits one, a [long] when it does not. *)
Definition py_integer (z : Z) : value :=
  if (- maxint - 1 <=? z)%Z && (z <=? maxint)%Z then VInt z else VLong z.

(** The integer that a value is, when it is an [int] or a [long]. *)
Definition integer_of (v : value) : option Z :=
  match v with
  | VInt z | VLong z => Some z
  | _ => None
  end.

(** Type hints are libadalang type declarations (or [None]); the four
    standard ones are those the extraction context reads off its dummy
    unit. *)
Inductive BaseTypeDecl :=
| Std_Boolean
| Std_Integer
| Std_Universal_Int
| Std_Universal_Real
| TypeDeclNode (name : string).

#[global] Instance BaseTypeDecl_eq_dec : EqDecision BaseTypeDecl.
Proof. solve_decision. Defined.

Definition type_hint := option BaseTypeDecl.

(** ** Constants: [lalcheck.constants] *)

(** Modelled from the spec: the module [lalcheck.constants] ([ops], [lits])
    is not part of the sources at hand.  [ops] is the closed set of operator
    symbols the frontend and the evaluator name; [lits] holds the literal
    values for the booleans and for [null]. *)
Module ops.
Inductive sym :=
| LT | LE | EQ | NEQ | GE | GT
| AND | OR
| PLUS | MINUS
| DOT_DOT
| NEG | NOT
| ADDRESS | DEREF
| GET_FIRST | GET_LAST.

#[global] Instance sym_eq_dec : EqDecision sym.
Proof. solve_decision. Defined.
End ops.

Definition ADA_TRUE : string := "True".
Definition ADA_FALSE : string := "False".

Module lits.
Definition TRUE : value := VStr "True".
Definition FALSE : value := VStr "False".
Definition NULL : value := VStr "null".
End lits.

(** ** The libadalang nodes the IR refers to *)

Module lal_node.
(** A [lal.LabelDecl]: the node (by identity) and [f_name.text]. *)
Record LabelDecl := { label_node : N; f_name_text : string }.

#[global] Instance LabelDecl_eq_dec : EqDecision LabelDecl.
Proof. solve_decision. Defined.
End lal_node.

(** ** The Basic IR: [lalcheck.irs.basic.tree] *)

(** Modelled from the spec: [tree.py] at hand predates the frontend (its
    [SplitStmt] takes two statement lists, and it has no [Variable],
    [LabelStmt] or [GotoStmt]); the node model below is the one the
    frontend's constructor calls use: a split holds one ordered list of
    branches, an assignment holds [id] and [expr], every expression carries
    [data.type_hint].  The back link [data.orig_node] is kept for labels
    only, where it tells two label nodes apart; no modelled code reads it
    elsewhere. *)
Module irt.

Record Operator := { sym : ops.sym }.

Inductive VariablePurpose := SyntheticVariable.

Record Var := {
  name : string;
  purpose : option VariablePurpose;
  var_type_hint : type_hint
}.

Inductive Expr :=
| Identifier (var : Var) (hint : type_hint)
| Lit (val : value) (hint : type_hint)
| BinExpr (lhs : Expr) (bin_op : Operator) (rhs : Expr) (hint : type_hint)
| UnExpr (un_op : Operator) (expr : Expr) (hint : type_hint).

(** [expr.data.type_hint] *)
Definition type_hint_of (e : Expr) : type_hint :=
  match e with
  | Identifier _ h | Lit _ h | BinExpr _ _ _ h | UnExpr _ _ h => h
  end.

(** [purpose.DerefCheck(prefix)] on an assumption. *)
Inductive AssumePurpose := DerefCheck (prefix : Expr).

Record Label := {
  label_name : string;
  orig_node : option lal_node.LabelDecl
}.

Inductive Stmt :=
| AssignStmt (id : Expr) (expr : Expr)
| SplitStmt (branches : list (list Stmt))
| LoopStmt (stmts : list Stmt)
| ReadStmt (id : Expr)
| UseStmt (id : Expr)
| AssumeStmt (expr : Expr) (purpose : option AssumePurpose)
| GotoStmt (label : Label)
| LabelStmt (label : Label).

Record Program := { stmts : list Stmt }.

(** [bin_ops] and [un_ops]: one [Operator] per symbol. *)
Definition bin_ops (s : ops.sym) : Operator := {| sym := s |}.
Definition un_ops (s : ops.sym) : Operator := {| sym := s |}.

#[global] Instance Operator_eq_dec : EqDecision Operator.
Proof. solve_decision. Defined.
#[global] Instance VariablePurpose_eq_dec : EqDecision VariablePurpose.
Proof. solve_decision. Defined.
#[global] Instance Var_eq_dec : EqDecision Var.
Proof. solve_decision. Defined.
#[global] Instance Expr_eq_dec : EqDecision Expr.
Proof. solve_decision. Defined.
#[global] Instance Label_eq_dec : EqDecision Label.
Proof. solve_decision. Defined.

End irt.

(** ** The constant expression evaluator: [ConstExprEvaluator] *)

Module ConstExprEvaluator.

(** The evaluator's fields: the four standard types. *)
Record t := {
  bool_type : type_hint;
  int_type : type_hint;
  universal_int : type_hint;
  universal_real : type_hint
}.

Definition to_bool (x : value) : bool :=
  match x with
  | VStr s => String.eqb s ADA_TRUE
  | _ => false
  end.

Definition from_bool (x : bool) : value :=
  if x then VStr ADA_TRUE else VStr ADA_FALSE.

(** Python 2 [x == y], which raises nothing: an [int] and a [long] are
    compared as numbers, and values of different types differ.  [Range]
    defines no [__eq__], so two ranges are equal when they are one object;
    the two operands of a rule are the values of two nodes, each with a
    range of its own, and the answer for them is [False]. *)
Definition py_eq (x y : value) : bool :=
  match x, y with
  | (VInt a | VLong a), (VInt b | VLong b) => Z.eqb a b
  | VStr a, VStr b => String.eqb a b
  | VNone, VNone => true
  | _, _ => false
  end.

(** The order of the addresses of two objects, which is how Python 2 orders
    two instances of a class without comparison methods.  Addresses are not
    part of a value: the order the interpreter finds is fixed here once,
    out of reach of the proofs, which know of it only that two operands are
    never at one address. *)
Definition address_order :
  { cmp : value → value → comparison | ∀ x y, cmp x y ≠ Eq }.
Proof. exists (λ _ _, Lt). done. Qed.

Definition address_cmp : value → value → comparison :=
  proj1_sig address_order.

(** Python 2 three-way comparison, which raises nothing either: [None] is
    below everything, numbers are compared as numbers and are below other
    objects, objects of different types are ordered by type name ([Range]
    before [str]); two ranges are ordered by address. *)
Definition py_cmp (x y : value) : comparison :=
  match x, y with
  | VNone, VNone => Eq
  | VNone, _ => Lt
  | _, VNone => Gt
  | (VInt a | VLong a), (VInt b | VLong b) => Z.compare a b
  | (VInt _ | VLong _), _ => Lt
  | _, (VInt _ | VLong _) => Gt
  | VRange _ _, VRange _ _ => address_cmp x y
  | VRange _ _, VStr _ => Lt
  | VStr _, VRange _ _ => Gt
  | VStr a, VStr b => String.compare a b
  end.

(** [x + y], [x - y] and [-x]: the result of an operation on [int]s is an
    [int] when it fits one and a [long] when it overflows; an operation
    with a [long] gives a [long]. *)
Definition py_add (x y : value) : result value :=
  match x, y with
  | VInt a, VInt b => Ok (py_integer (a + b))
  | VInt a, VLong b | VLong a, VInt b | VLong a, VLong b =>
      Ok (VLong (a + b))
  | VStr a, VStr b => Ok (VStr (a +:+ b))
  | _, _ => Raise TypeError
  end.

Definition py_sub (x y : value) : result value :=
  match x, y with
  | VInt a, VInt b => Ok (py_integer (a - b))
  | VInt a, VLong b | VLong a, VInt b | VLong a, VLong b =>
      Ok (VLong (a - b))
  | _, _ => Raise TypeError
  end.

Definition py_neg (x : value) : result value :=
  match x with
  | VInt a => Ok (py_integer (- a))
  | VLong a => Ok (VLong (- a))
  | _ => Raise TypeError
  end.

(** The rule table [BinOps], by symbol. *)
Definition BinOps (s : ops.sym) : option (value → value → result value) :=
  match s with
  | ops.AND => Some (λ x y, Ok (from_bool (to_bool x && to_bool y)))
  | ops.OR => Some (λ x y, Ok (from_bool (to_bool x || to_bool y)))
  | ops.NEQ => Some (λ x y, Ok (from_bool (negb (py_eq x y))))
  | ops.EQ => Some (λ x y, Ok (from_bool (py_eq x y)))
  | ops.LT => Some (λ x y, Ok (from_bool (bool_decide (py_cmp x y = Lt))))
  | ops.LE => Some (λ x y, Ok (from_bool (bool_decide (py_cmp x y ≠ Gt))))
  | ops.GE => Some (λ x y, Ok (from_bool (bool_decide (py_cmp x y ≠ Lt))))
  | ops.GT => Some (λ x y, Ok (from_bool (bool_decide (py_cmp x y = Gt))))
  | ops.DOT_DOT => Some (λ x y, Ok (VRange x y))
  | ops.PLUS => Some py_add
  | ops.MINUS => Some py_sub
  | _ => None
  end.

(** The rule table [UnOps], by symbol. *)
Definition UnOps (s : ops.sym) : option (value → result value) :=
  match s with
  | ops.NOT => Some (λ x, Ok (from_bool (negb (to_bool x))))
  | ops.NEG => Some py_neg
  | ops.GET_FIRST => Some (λ x,
      match x with VRange f _ => Ok f | _ => Raise AttributeError end)
  | ops.GET_LAST => Some (λ x,
      match x with VRange _ l => Ok l | _ => Raise AttributeError end)
  | _ => None
  end.

(** [visit]: dispatch to [visit_ident], [visit_binexpr], [visit_unexpr]
    and [visit_lit].  The [memoize] wrapper caches the values [visit]
    returns (never an exception) per node; on a tree it changes no
    result and is left out. *)
Fixpoint visit (e : irt.Expr) : result value :=
  match e with
  | irt.Identifier _ _ => Raise NotConstExprError
  | irt.BinExpr lhs bin_op rhs _ =>
      except_KeyError (
        op ← subscript (BinOps (irt.sym bin_op));
        x ← visit lhs;
        y ← visit rhs;
        op x y)
  | irt.UnExpr un_op expr _ =>
      except_KeyError (
        op ← subscript (UnOps (irt.sym un_op));
        x ← visit expr;
        op x)
  | irt.Lit val _ => Ok val
  end.

Definition eval (e : irt.Expr) : result value :=
  res ← visit e;
  match res with
  | VNone => Raise NotImplementedError
  | _ => Ok res
  end.

End ConstExprEvaluator.

(** ** The universal-type normalizer: [ConvertUniversalTypes] *)

(** The visitor mutates the tree in place; here every visit returns the
    node as it stands after the visit.  A node whose evaluation succeeds is
    never mutated (its parent's field is rebound to a fresh literal), so on
    a tree the rebuilt node is the mutated one.  One node that the pass
    never reaches through a field of its own is the prefix that the mark
    [DerefCheck] of an assumption holds: it is the node that the assumed
    comparison and the dereference hold as well, see [visit_stmt]. *)
Module ConvertUniversalTypes.
Import ConstExprEvaluator.

Section with_evaluator.
Context (evaluator : ConstExprEvaluator.t).

Definition has_universal_type (expr : irt.Expr) : bool :=
  bool_decide (irt.type_hint_of expr ∈
                 [universal_int evaluator; universal_real evaluator]).

(** [try_convert_expr], with the visit of the expression left open. *)
Definition try_convert_with (visit : irt.Expr → result irt.Expr)
    (expr : irt.Expr) (expected_type : type_hint) : result irt.Expr :=
  match eval expr with
  | Ok v => Ok (irt.Lit v expected_type)
  | Raise NotConstExprError => visit expr
  | Raise e => Raise e
  end.

(** [expr.visit(self)] on an expression: [visit_binexpr], [visit_unexpr],
    and the implicit visitor's empty traversal of identifiers and
    literals. *)
Fixpoint visit_expr (e : irt.Expr) : result irt.Expr :=
  match e with
  | irt.BinExpr lhs bin_op rhs h =>
      let expected_type :=
        if has_universal_type rhs
        then irt.type_hint_of lhs
        else irt.type_hint_of rhs in
      lhs' ← try_convert_with visit_expr lhs expected_type;
      rhs' ← try_convert_with visit_expr rhs expected_type;
      Ok (irt.BinExpr lhs' bin_op rhs' h)
  | irt.UnExpr un_op expr h =>
      expr' ← visit_expr expr;
      Ok (irt.UnExpr un_op expr' h)
  | irt.Identifier _ _ | irt.Lit _ _ => Ok e
  end.

Definition try_convert_expr : irt.Expr → type_hint → result irt.Expr :=
  try_convert_with visit_expr.

(** The mark of an assumption after the pass.  [transform_expr] hands the
    one node [prefix] to the assumed comparison, to [DerefCheck] and to the
    dereference; the pass visits that node in place, under the comparison
    when the comparison does not fold and under the dereference in any
    case, so the mark holds the visited prefix. *)
Definition visit_purpose (p : option irt.AssumePurpose)
    : result (option irt.AssumePurpose) :=
  match p with
  | Some (irt.DerefCheck prefix) =>
      prefix' ← visit_expr prefix;
      Ok (Some (irt.DerefCheck prefix'))
  | None => Ok None
  end.

(** Modelled from the spec: [lalcheck.irs.basic.visitors.ImplicitVisitor]
    is not part of the sources at hand; it visits the children of every
    node it has no method for, so the pass reaches every assignment and
    every assumption, also inside splits and loops. *)
Fixpoint visit_stmt (s : irt.Stmt) : result irt.Stmt :=
  match s with
  | irt.AssignStmt id expr =>
      expr' ← try_convert_expr expr (irt.type_hint_of id);
      Ok (irt.AssignStmt id expr')
  | irt.AssumeStmt expr p =>
      expr' ← try_convert_expr expr (bool_type evaluator);
      p' ← visit_purpose p;
      Ok (irt.AssumeStmt expr' p')
  | irt.SplitStmt branches =>
      branches' ← try_map (try_map visit_stmt) branches;
      Ok (irt.SplitStmt branches')
  | irt.LoopStmt stmts =>
      stmts' ← try_map visit_stmt stmts;
      Ok (irt.LoopStmt stmts')
  | irt.ReadStmt _ | irt.UseStmt _ | irt.GotoStmt _ | irt.LabelStmt _ => Ok s
  end.

Definition visit_program (prog : irt.Program) : result irt.Program :=
  stmts' ← try_map visit_stmt (irt.stmts prog);
  Ok {| irt.stmts := stmts' |}.

End with_evaluator.
End ConvertUniversalTypes.

(** ** The libadalang syntax tree, as far as the frontend queries it *)

(** Each constructor is a node kind the frontend tests with [is_a]; its
    arguments are the fields and properties the frontend reads.  Nodes that
    the frontend compares or uses as dictionary keys (declarations, loop
    statements, label declarations) carry their identity as a number. *)
Module lal.

Inductive Op :=
| OpLt | OpLte | OpEq | OpNeq | OpGte | OpGt
| OpAnd | OpOr | OpPlus | OpMinus | OpDoubleDot
| OpNot
| OpAndThen | OpOrElse
| OpXor | OpMult | OpDiv | OpMod | OpRem | OpPow | OpConcat | OpAbs
| OpIn | OpNotIn.

Inductive Expr :=
| ParenExpr (f_expr : Expr)
| BinOp (f_left : Expr) (f_op : Op) (f_right : Expr)
    (p_expression_type : type_hint)
| UnOp (f_op : Op) (f_expr : Expr) (p_expression_type : type_hint)
| IfExpr (f_cond_expr f_then_expr f_else_expr : Expr)
    (p_expression_type : type_hint)
| Identifier (text : string) (p_referenced_decl : RefDecl)
    (p_expression_type : type_hint)
| IntLiteral (f_tok_text : string) (p_expression_type : type_hint)
| NullLiteral (p_expression_type : type_hint)
| ExplicitDeref (f_prefix : Expr) (p_expression_type : type_hint)
| AttributeRef (f_prefix : Expr) (f_attribute_text : string)
    (p_expression_type : type_hint)
| OthersDesignator
| OtherExpr (p_expression_type : type_hint)
(** What [p_referenced_decl] of an identifier resolves to. *)
with RefDecl :=
| ObjectDecl_ref (decl : N)
| EnumLiteralDecl_ref (enum_type_decl : type_hint)
| NumberDecl_ref (f_expr : Expr)
| TypeDecl_ref (f_type_def : TypeDef)
| OtherDecl_ref
with TypeDef :=
| SignedIntTypeDef (f_range : Expr)
| OtherTypeDef.

(** [expr.p_expression_type] *)
Fixpoint p_expression_type (e : Expr) : type_hint :=
  match e with
  | ParenExpr e' => p_expression_type e'
  | BinOp _ _ _ t | UnOp _ _ t | IfExpr _ _ _ t | Identifier _ _ t
  | IntLiteral _ t | NullLiteral t | ExplicitDeref _ t
  | AttributeRef _ _ t | OtherExpr t => t
  | OthersDesignator => None
  end.

(** The target of an assignment: [f_dest.p_referenced_decl], [f_dest.text]
    and [f_dest.p_expression_type]. *)
Record Dest := {
  dest_decl : N;
  dest_text : string;
  dest_type : type_hint
}.

Inductive Stmt :=
| AssignStmt (f_dest : Dest) (f_expr : Expr)
| IfStmt (f_cond_expr : Expr) (f_then_stmts f_else_stmts : list Stmt)
| CaseStmt (f_case_expr : Expr) (f_case_alts : list CaseStmtAlternative)
| LoopStmt (node : N) (f_stmts : list Stmt)
| WhileLoopStmt (node : N) (f_spec_f_expr : Expr) (f_stmts : list Stmt)
| ForLoopStmt (f_stmts : list Stmt)
| Label (f_decl : lal_node.LabelDecl)
| GotoStmt (f_label_name_decl : lal_node.LabelDecl)
| NamedStmt (f_stmt : Stmt)
| ExitStmt (f_loop_name_stmt : option N) (f_condition : option Expr)
| ExceptionHandler (f_stmts : list Stmt)
| OtherStmt
with CaseStmtAlternative :=
| Alternative (f_choices : list Expr) (f_stmts : list Stmt).

Definition f_choices (alt : CaseStmtAlternative) : list Expr :=
  match alt with Alternative c _ => c end.
Definition f_stmts (alt : CaseStmtAlternative) : list Stmt :=
  match alt with Alternative _ s => s end.

Inductive BasicDecl :=
| TypeDecl
| NumberDecl
| ObjectDecl (node : N) (f_ids : list string)
    (p_designated_type_decl : type_hint) (f_default_expr : option Expr)
| OtherDecl.

Record SubpBody := {
  f_decls : list BasicDecl;
  f_subp_stmts : list Stmt
}.

Definition is_OthersDesignator (e : Expr) : bool :=
  match e with OthersDesignator => true | _ => false end.

(** [subp.findall(lal.LabelDecl)], restricted to statements: every [Label]
    statement holds one label declaration. *)
Fixpoint findall_LabelDecl (s : Stmt) : list lal_node.LabelDecl :=
  match s with
  | Label d => [d]
  | IfStmt _ t e =>
      flat_map findall_LabelDecl t ++ flat_map findall_LabelDecl e
  | CaseStmt _ alts =>
      flat_map (λ alt,
        match alt with
        | Alternative _ ss => flat_map findall_LabelDecl ss
        end) alts
  | LoopStmt _ ss | WhileLoopStmt _ _ ss | ForLoopStmt ss
  | ExceptionHandler ss => flat_map findall_LabelDecl ss
  | NamedStmt s' => findall_LabelDecl s'
  | AssignStmt _ _ | GotoStmt _ | ExitStmt _ _ | OtherStmt => []
  end.

End lal.

(** ** The lowering: [_gen_ir] *)

Record ExtractionContext := { evaluator : ConstExprEvaluator.t }.

(** The variables the closures of [_gen_ir] share and update: the counter
    [tmp_vars], the dictionary [var_decls] and the list [loop_stack]. *)
Record State := {
  tmp_vars : gmap string nat;
  var_decls : gmap (N * string) irt.Var;
  loop_stack : list (N * irt.Label)
}.

(** A computation that reads and updates the shared variables and may
    raise; nothing is left of the state once an exception leaves
    [_gen_ir]. *)
Definition M (A : Type) : Type := State → result (A * State).

#[global] Instance M_ret : MRet M := λ _ a st, Ok (a, st).
#[global] Instance M_bind : MBind M := λ _ _ f m st,
  match m st with
  | Ok (a, st') => f a st'
  | Raise e => Raise e
  end.

Definition raise {A} (e : exn) : M A := λ _, Raise e.

Definition lift {A} (r : result A) : M A := λ st,
  match r with
  | Ok a => Ok (a, st)
  | Raise e => Raise e
  end.

Definition get_state : M State := λ st, Ok (st, st).

(** [int(text)] on the text of an integer literal token (no sign, no
    blank): decimal digits only. *)
Definition digit_of (c : Ascii.ascii) : option Z :=
  let n := Ascii.nat_of_ascii c in
  if (48 <=? n)%nat && (n <=? 57)%nat then Some (Z.of_nat (n - 48)) else None.

Fixpoint int_digits (acc : Z) (s : string) : option Z :=
  match s with
  | EmptyString => Some acc
  | String c s' =>
      match digit_of c with
      | Some d => int_digits (10 * acc + d) s'
      | None => None
      end
  end.

Definition py_int (s : string) : result Z :=
  match s with
  | EmptyString => Raise ValueError
  | _ =>
      match int_digits 0 s with
      | Some z => Ok z
      | None => Raise ValueError
      end
  end.

(** [reduce(f, l)] without an initial value. *)
Definition reduce {A} (f : A → A → A) (l : list A) : result A :=
  match l with
  | [] => Raise TypeError
  | x :: l' => Ok (fold_left f l' x)
  end.

(** The dictionaries [_lal_op_type_2_symbol] and [_attr_2_unop]. *)
Definition _lal_op_type_2_symbol (op : lal.Op) (arity : nat)
    : option irt.Operator :=
  match op, arity with
  | lal.OpLt, 2%nat => Some (irt.bin_ops ops.LT)
  | lal.OpLte, 2%nat => Some (irt.bin_ops ops.LE)
  | lal.OpEq, 2%nat => Some (irt.bin_ops ops.EQ)
  | lal.OpNeq, 2%nat => Some (irt.bin_ops ops.NEQ)
  | lal.OpGte, 2%nat => Some (irt.bin_ops ops.GE)
  | lal.OpGt, 2%nat => Some (irt.bin_ops ops.GT)
  | lal.OpAnd, 2%nat => Some (irt.bin_ops ops.AND)
  | lal.OpOr, 2%nat => Some (irt.bin_ops ops.OR)
  | lal.OpPlus, 2%nat => Some (irt.bin_ops ops.PLUS)
  | lal.OpMinus, 2%nat => Some (irt.bin_ops ops.MINUS)
  | lal.OpDoubleDot, 2%nat => Some (irt.bin_ops ops.DOT_DOT)
  | lal.OpMinus, 1%nat => Some (irt.un_ops ops.NEG)
  | lal.OpNot, 1%nat => Some (irt.un_ops ops.NOT)
  | _, _ => None
  end.

Definition _attr_2_unop (attr : string) : option irt.Operator :=
  if String.eqb attr "Access" then Some (irt.un_ops ops.ADDRESS)
  else if String.eqb attr "First" then Some (irt.un_ops ops.GET_FIRST)
  else if String.eqb attr "Last" then Some (irt.un_ops ops.GET_LAST)
  else None.

(** [irt.LabelStmt(label_decl.f_name.text, orig_node=label_decl)] *)
Definition label_of_decl (d : lal_node.LabelDecl) : irt.Label :=
  {| irt.label_name := lal_node.f_name_text d; irt.orig_node := Some d |}.

(** The count that [tmp_vars] holds for a key. *)
Definition counter (st : State) (name : string) : nat :=
  default 0%nat (tmp_vars st !! name).

Section gen_ir.
Context (ctx : ExtractionContext).
(** The label declarations found by the pre-pass; [labels] maps each to
    its label node. *)
Context (label_decls : list lal_node.LabelDecl).

Definition labels (d : lal_node.LabelDecl) : option irt.Label :=
  if decide (d ∈ label_decls) then Some (label_of_decl d) else None.

(** Modelled from the spec: [lalcheck.utils.KeyCounter] is not part of the
    sources at hand; [get_incr] returns the count of the key (from zero)
    and increments it. *)
Definition fresh_name (name : string) : M string := λ st,
  let n := counter st name in
  Ok (name +:+ pretty n,
      {| tmp_vars := <[name := S n]> (tmp_vars st);
         var_decls := var_decls st;
         loop_stack := loop_stack st |}).

Definition transform_operator (lal_op : lal.Op) (arity : nat)
    : M irt.Operator :=
  lift (subscript (_lal_op_type_2_symbol lal_op arity)).

Definition unimplemented {A} : M A := raise NotImplementedError.

(** [gen_split_stmt], with the transformation of its condition left
    open. *)
Definition gen_split_stmt_with (transform_cond : M (list irt.Stmt * irt.Expr))
    (then_stmts else_stmts : list irt.Stmt) : M (list irt.Stmt) :=
  '(cond_pre_stmts, cond) ← transform_cond;
  let not_cond :=
    irt.UnExpr (irt.un_ops ops.NOT) cond (irt.type_hint_of cond) in
  let assume_cond := irt.AssumeStmt cond None in
  let assume_not_cond := irt.AssumeStmt not_cond None in
  mret (cond_pre_stmts ++
        [irt.SplitStmt [assume_cond :: then_stmts;
                        assume_not_cond :: else_stmts]]).

Definition binexpr_builder (op : irt.Operator) (type_hint : type_hint)
    (lhs rhs : irt.Expr) : irt.Expr :=
  irt.BinExpr lhs op rhs type_hint.

(** [ctx.evaluator.bool] and [ctx.evaluator.int] *)
Definition evaluator_bool : type_hint :=
  ConstExprEvaluator.bool_type (evaluator ctx).
Definition evaluator_int : type_hint :=
  ConstExprEvaluator.int_type (evaluator ctx).

(** [isinstance(value, int)] holds of an [int] and not of a [long]. *)
Definition gen_lit (v : value) : result irt.Expr :=
  match v with
  | VInt _ => Ok (irt.Lit v evaluator_int)
  | _ => Raise NotImplementedError
  end.

Definition gen_single (expr : irt.Expr) (v : value) : result irt.Expr :=
  match v with
  | VInt _ =>
      l ← gen_lit v;
      Ok (irt.BinExpr expr (irt.bin_ops ops.EQ) l evaluator_bool)
  | VRange first last =>
      match first, last with
      | VInt _, VInt _ =>
          f ← gen_lit first;
          l ← gen_lit last;
          Ok (irt.BinExpr
                (irt.BinExpr expr (irt.bin_ops ops.GE) f evaluator_bool)
                (irt.bin_ops ops.AND)
                (irt.BinExpr expr (irt.bin_ops ops.LE) l evaluator_bool)
                evaluator_bool)
      | _, _ => Raise NotImplementedError
      end
  | _ => Raise NotImplementedError
  end.

Definition gen_case_condition (expr : irt.Expr) (values : list value)
    : result irt.Expr :=
  conditions ← try_map (gen_single expr) values;
  if (1 <? length conditions)%nat
  then reduce (binexpr_builder (irt.bin_ops ops.OR) evaluator_bool) conditions
  else match conditions with
       | c :: _ => Ok c
       | [] => Raise IndexError
       end.

(** [transform_short_circuit_ops], with the transformations of the two
    operands left open; [and_then] tells [f_op.is_a(lal.OpAndThen)]. *)
Definition transform_short_circuit_ops_with (bool_hint : type_hint)
    (and_then : bool)
    (transform_left transform_right : M (list irt.Stmt * irt.Expr))
    : M (list irt.Stmt * irt.Expr) :=
  tmp ← fresh_name "tmp";
  let res :=
    irt.Identifier
      {| irt.name := tmp;
         irt.purpose := Some irt.SyntheticVariable;
         irt.var_type_hint := bool_hint |}
      bool_hint in
  let res_eq_true := irt.AssignStmt res (irt.Lit lits.TRUE bool_hint) in
  let res_eq_false := irt.AssignStmt res (irt.Lit lits.FALSE bool_hint) in
  res_stmts ←
    (if and_then then
       inner ← gen_split_stmt_with transform_right
                 [res_eq_true] [res_eq_false];
       gen_split_stmt_with transform_left inner [res_eq_false]
     else
       inner ← gen_split_stmt_with transform_right
                 [res_eq_true] [res_eq_false];
       gen_split_stmt_with transform_left [res_eq_true] inner);
  mret (res_stmts, res).

Definition is_OpAndThen (op : lal.Op) : bool :=
  match op with lal.OpAndThen => true | _ => false end.

(** [expr.p_bool_type] is the standard boolean type of the analysis context,
    the one the evaluator holds. *)
Fixpoint transform_expr (expr : lal.Expr) : M (list irt.Stmt * irt.Expr) :=
  match expr with
  | lal.ParenExpr e => transform_expr e
  | lal.BinOp f_left f_op f_right t =>
      match f_op with
      | lal.OpAndThen | lal.OpOrElse =>
          transform_short_circuit_ops_with t (is_OpAndThen f_op)
            (transform_expr f_left) (transform_expr f_right)
      | _ =>
          '(lhs_pre_stmts, lhs) ← transform_expr f_left;
          '(rhs_pre_stmts, rhs) ← transform_expr f_right;
          op ← transform_operator f_op 2;
          mret (lhs_pre_stmts ++ rhs_pre_stmts, irt.BinExpr lhs op rhs t)
      end
  | lal.UnOp f_op e t =>
      '(inner_pre_stmts, inner_expr) ← transform_expr e;
      op ← transform_operator f_op 1;
      mret (inner_pre_stmts, irt.UnExpr op inner_expr t)
  | lal.IfExpr f_cond_expr f_then_expr f_else_expr t =>
      name ← fresh_name "tmp";
      let tmp :=
        irt.Identifier
          {| irt.name := name;
             irt.purpose := Some irt.SyntheticVariable;
             irt.var_type_hint := t |}
          t in
      '(then_stmts, then_expr) ← transform_expr f_then_expr;
      '(else_stmts, else_expr) ← transform_expr f_else_expr;
      split ← gen_split_stmt_with (transform_expr f_cond_expr)
                (then_stmts ++ [irt.AssignStmt tmp then_expr])
                (else_stmts ++ [irt.AssignStmt tmp else_expr]);
      mret (split, tmp)
  | lal.Identifier text ref t =>
      match ref with
      | lal.ObjectDecl_ref decl =>
          st ← get_state;
          var ← lift (subscript (var_decls st !! (decl, text)));
          mret ([], irt.Identifier var t)
      | lal.EnumLiteralDecl_ref enum_type =>
          mret ([], irt.Lit (VStr text) enum_type)
      | lal.NumberDecl_ref e => transform_expr e
      | lal.TypeDecl_ref (lal.SignedIntTypeDef f_range) =>
          transform_expr f_range
      | lal.TypeDecl_ref lal.OtherTypeDef | lal.OtherDecl_ref =>
          unimplemented
      end
  | lal.IntLiteral f_tok_text t =>
      z ← lift (py_int f_tok_text);
      mret ([], irt.Lit (py_integer z) t)
  | lal.NullLiteral t => mret ([], irt.Lit lits.NULL t)
  | lal.ExplicitDeref f_prefix t =>
      '(prefix_pre_stmts, prefix) ← transform_expr f_prefix;
      let assumed_expr :=
        irt.BinExpr prefix (irt.bin_ops ops.NEQ)
          (irt.Lit lits.NULL (lal.p_expression_type f_prefix))
          evaluator_bool in
      mret (prefix_pre_stmts ++
              [irt.AssumeStmt assumed_expr (Some (irt.DerefCheck prefix))],
            irt.UnExpr (irt.un_ops ops.DEREF) prefix t)
  | lal.AttributeRef f_prefix f_attribute_text t =>
      '(prefix_pre_stmts, prefix) ← transform_expr f_prefix;
      op ← lift (subscript (_attr_2_unop f_attribute_text));
      mret (prefix_pre_stmts, irt.UnExpr op prefix t)
  | lal.OthersDesignator | lal.OtherExpr _ => unimplemented
  end.

Definition gen_split_stmt (cond : lal.Expr)
    (then_stmts else_stmts : list irt.Stmt) : M (list irt.Stmt) :=
  gen_split_stmt_with (transform_expr cond) then_stmts else_stmts.

Definition transform_short_circuit_ops (bin_expr : lal.Expr)
    : M (list irt.Stmt * irt.Expr) :=
  match bin_expr with
  | lal.BinOp f_left f_op f_right t =>
      transform_short_circuit_ops_with t (is_OpAndThen f_op)
        (transform_expr f_left) (transform_expr f_right)
  | _ => raise AttributeError
  end.

(** A comprehension or [for] loop whose body runs in [M]. *)
Fixpoint for_each {A B} (f : A → M B) (l : list A) : M (list B) :=
  match l with
  | [] => mret []
  | x :: l' => y ← f x; ys ← for_each f l'; mret (y :: ys)
  end.

Definition set_var_decl (key : N * string) (var : irt.Var) : M unit := λ st,
  Ok (tt, {| tmp_vars := tmp_vars st;
             var_decls := <[key := var]> (var_decls st);
             loop_stack := loop_stack st |}).

Definition get_var_decl (key : N * string) : M irt.Var :=
  st ← get_state;
  lift (subscript (var_decls st !! key)).

Definition transform_decl (decl : lal.BasicDecl) : M (list irt.Stmt) :=
  match decl with
  | lal.TypeDecl | lal.NumberDecl => mret []
  | lal.ObjectDecl node f_ids tdecl f_default_expr =>
      _ ← for_each (λ text,
             set_var_decl (node, text)
               {| irt.name := text;
                  irt.purpose := None;
                  irt.var_type_hint := tdecl |}) f_ids;
      match f_default_expr with
      | None =>
          for_each (λ text,
            var ← get_var_decl (node, text);
            mret (irt.ReadStmt (irt.Identifier var tdecl))) f_ids
      | Some default_expr =>
          '(dval_pre_stmts, dval_expr) ← transform_expr default_expr;
          assigns ← for_each (λ text,
            var ← get_var_decl (node, text);
            mret (irt.AssignStmt (irt.Identifier var tdecl) dval_expr)) f_ids;
          mret (dval_pre_stmts ++ assigns)
      end
  | lal.OtherDecl => unimplemented
  end.

(** [loop_stack.append(entry)] and [loop_stack.pop()] *)
Definition loop_stack_append (entry : N * irt.Label) : M unit := λ st,
  Ok (tt, {| tmp_vars := tmp_vars st;
             var_decls := var_decls st;
             loop_stack := loop_stack st ++ [entry] |}).

Definition loop_stack_pop : M unit := λ st,
  match loop_stack st with
  | [] => Raise IndexError
  | _ => Ok (tt, {| tmp_vars := tmp_vars st;
                    var_decls := var_decls st;
                    loop_stack := removelast (loop_stack st) |})
  end.

(** [loop_stack[-1]] *)
Definition loop_stack_top : M (N * irt.Label) :=
  st ← get_state;
  match last (loop_stack st) with
  | Some entry => mret entry
  | None => raise IndexError
  end.

(** [next(loop for loop in loop_stack if loop[0] == ref_loop)] *)
Definition loop_stack_find (ref_loop : N) : M (N * irt.Label) :=
  st ← get_state;
  match filter (λ loop, loop.1 = ref_loop) (loop_stack st) with
  | entry :: _ => mret entry
  | [] => raise StopIteration
  end.

(** [transform_stmts], with the transformation of one statement left
    open. *)
Definition transform_stmts_with (transform_stmt : lal.Stmt → M (list irt.Stmt))
    : list lal.Stmt → M (list irt.Stmt) :=
  fix go (stmts : list lal.Stmt) : M (list irt.Stmt) :=
    match stmts with
    | [] => mret []
    | stmt :: rest =>
        out ← transform_stmt stmt;
        outs ← go rest;
        mret (out ++ outs)
    end.

Definition is_others (alt : lal.CaseStmtAlternative) : bool :=
  existsb lal.is_OthersDesignator (lal.f_choices alt).

(** [ctx.evaluator.eval(transform_expr(choice)[1])] *)
Definition eval_choice (choice : lal.Expr) : M value :=
  '(_, e) ← transform_expr choice;
  lift (ConstExprEvaluator.eval e).

(** The comprehension that builds [case_alts]: the evaluated choices and
    the transformed statements of each alternative that is not the
    [others] one. *)
Definition case_alts_with (transform_stmts : list lal.Stmt → M (list irt.Stmt))
    : list lal.CaseStmtAlternative → M (list (list value * list irt.Stmt)) :=
  fix go (alts : list lal.CaseStmtAlternative) :=
    match alts with
    | [] => mret []
    | lal.Alternative choices stmts :: rest =>
        if existsb lal.is_OthersDesignator choices then go rest
        else
          values ← for_each eval_choice choices;
          out ← transform_stmts stmts;
          others ← go rest;
          mret ((values, out) :: others)
    end.

(** The comprehension that builds [others_potential_stmts]. *)
Definition others_potential_stmts_with
    (transform_stmts : list lal.Stmt → M (list irt.Stmt))
    : list lal.CaseStmtAlternative → M (list (list irt.Stmt)) :=
  fix go (alts : list lal.CaseStmtAlternative) :=
    match alts with
    | [] => mret []
    | lal.Alternative choices stmts :: rest =>
        if existsb lal.is_OthersDesignator choices then
          out ← transform_stmts stmts;
          others ← go rest;
          mret (out :: others)
        else go rest
    end.

(** The part of the case rule after the two comprehensions. *)
Definition case_split (case_expr : irt.Expr)
    (case_alts : list (list value * list irt.Stmt))
    (others_potential_stmts : list (list irt.Stmt)) : result irt.Stmt :=
  alts_conditions ←
    try_map (λ alt, gen_case_condition case_expr alt.1) case_alts;
  disjunction ←
    reduce (binexpr_builder (irt.bin_ops ops.OR) evaluator_bool)
      alts_conditions;
  let others_condition :=
    irt.UnExpr (irt.un_ops ops.NOT) disjunction evaluator_bool in
  let branches :=
    zip_with (λ cond alt, irt.AssumeStmt cond None :: alt.2)
      alts_conditions case_alts ++
    map (λ others_stmts, irt.AssumeStmt others_condition None :: others_stmts)
      others_potential_stmts in
  Ok (irt.SplitStmt branches).

Fixpoint transform_stmt (stmt : lal.Stmt) : M (list irt.Stmt) :=
  match stmt with
  | lal.AssignStmt f_dest f_expr =>
      '(expr_pre_stmts, expr) ← transform_expr f_expr;
      var ← get_var_decl (lal.dest_decl f_dest, lal.dest_text f_dest);
      mret (expr_pre_stmts ++
              [irt.AssignStmt (irt.Identifier var (lal.dest_type f_dest))
                 expr])
  | lal.IfStmt f_cond_expr f_then_stmts f_else_stmts =>
      then_stmts ← transform_stmts_with transform_stmt f_then_stmts;
      else_stmts ← transform_stmts_with transform_stmt f_else_stmts;
      gen_split_stmt f_cond_expr then_stmts else_stmts
  | lal.CaseStmt f_case_expr f_case_alts =>
      '(case_pre_stmts, case_expr) ← transform_expr f_case_expr;
      case_alts ←
        case_alts_with (transform_stmts_with transform_stmt) f_case_alts;
      others_potential_stmts ←
        others_potential_stmts_with (transform_stmts_with transform_stmt)
          f_case_alts;
      split ← lift (case_split case_expr case_alts others_potential_stmts);
      mret (case_pre_stmts ++ [split])
  | lal.LoopStmt node f_stmts =>
      name ← fresh_name "exit_loop";
      let exit_label :=
        {| irt.label_name := name; irt.orig_node := None |} in
      _ ← loop_stack_append (node, exit_label);
      loop_stmts ← transform_stmts_with transform_stmt f_stmts;
      _ ← loop_stack_pop;
      mret [irt.LoopStmt loop_stmts; irt.LabelStmt exit_label]
  | lal.WhileLoopStmt node f_expr f_stmts =>
      '(cond_pre_stmts, cond) ← transform_expr f_expr;
      let not_cond :=
        irt.UnExpr (irt.un_ops ops.NOT) cond (irt.type_hint_of cond) in
      name ← fresh_name "exit_while_loop";
      let exit_label :=
        {| irt.label_name := name; irt.orig_node := None |} in
      _ ← loop_stack_append (node, exit_label);
      loop_stmts ← transform_stmts_with transform_stmt f_stmts;
      _ ← loop_stack_pop;
      mret [irt.LoopStmt
              (cond_pre_stmts ++ [irt.AssumeStmt cond None] ++ loop_stmts);
            irt.AssumeStmt not_cond None;
            irt.LabelStmt exit_label]
  | lal.ForLoopStmt _ => mret []
  | lal.Label f_decl =>
      label ← lift (subscript (labels f_decl));
      mret [irt.LabelStmt label]
  | lal.GotoStmt decl =>
      label ← lift (subscript (labels decl));
      mret [irt.GotoStmt label]
  | lal.NamedStmt f_stmt => transform_stmt f_stmt
  | lal.ExitStmt f_loop_name f_condition =>
      exited_loop ←
        match f_loop_name with
        | None => loop_stack_top
        | Some ref_loop => loop_stack_find ref_loop
        end;
      let loop_exit_label := exited_loop.2 in
      let exit_goto := irt.GotoStmt loop_exit_label in
      match f_condition with
      | None => mret [exit_goto]
      | Some cond => gen_split_stmt cond [exit_goto] []
      end
  | lal.ExceptionHandler _ => mret []
  | lal.OtherStmt => unimplemented
  end.

Definition transform_stmts : list lal.Stmt → M (list irt.Stmt) :=
  transform_stmts_with transform_stmt.

Definition transform_decls (decls : list lal.BasicDecl) : M (list irt.Stmt) :=
  outs ← for_each transform_decl decls;
  mret (concat outs).

End gen_ir.

Definition initial_state : State :=
  {| tmp_vars := ∅; var_decls := ∅; loop_stack := [] |}.

Definition _gen_ir (ctx : ExtractionContext) (subp : lal.SubpBody)
    : result irt.Program :=
  let label_decls := flat_map lal.findall_LabelDecl (lal.f_subp_stmts subp) in
  match
    (decls ← transform_decls ctx (lal.f_decls subp);
     stmts ← transform_stmts ctx label_decls (lal.f_subp_stmts subp);
     mret (decls ++ stmts)) initial_state
  with
  | Ok (stmts, _) => Ok {| irt.stmts := stmts |}
  | Raise e => Raise e
  end.

(** [extract_programs], from the subprogram bodies that [findall] yields on
    a unit that parsed; expression functions, which have no declarations
    and no statement list, are not part of this embedding. *)
Definition extract_programs (ctx : ExtractionContext)
    (subps : list lal.SubpBody) : result (list irt.Program) :=
  progs ← try_map (_gen_ir ctx) subps;
  try_map (ConvertUniversalTypes.visit_program (evaluator ctx)) progs.

(** ** Observations on IR trees *)

Module observe.

(** Every split of the statement, nested ones included, has a branch count
    that satisfies [ok]. *)
Fixpoint split_counts (ok : nat → bool) (s : irt.Stmt) : bool :=
  match s with
  | irt.SplitStmt branches =>
      ok (length branches) && forallb (forallb (split_counts ok)) branches
  | irt.LoopStmt stmts => forallb (split_counts ok) stmts
  | _ => true
  end.

(** The label nodes that occur as statements, in order, with repetition. *)
Fixpoint label_stmts (s : irt.Stmt) : list irt.Label :=
  match s with
  | irt.LabelStmt l => [l]
  | irt.SplitStmt branches => flat_map (flat_map label_stmts) branches
  | irt.LoopStmt stmts => flat_map label_stmts stmts
  | _ => []
  end.

(** The label nodes that [GotoStmt]s refer to. *)
Fixpoint goto_targets (s : irt.Stmt) : list irt.Label :=
  match s with
  | irt.GotoStmt l => [l]
  | irt.SplitStmt branches => flat_map (flat_map goto_targets) branches
  | irt.LoopStmt stmts => flat_map goto_targets stmts
  | _ => []
  end.

(** *** Paths through split/assume code *)

(** An environment gives the variables their current values. *)
Definition env := irt.Var → option value.

Definition env_set (ρ : env) (x : irt.Var) (v : value) : env :=
  λ y, if decide (y = x) then Some v else ρ y.

(** The evaluator's rules, with identifiers read from the environment. *)
Fixpoint eval_in (ρ : env) (e : irt.Expr) : result value :=
  match e with
  | irt.Identifier var _ =>
      match ρ var with
      | Some v => Ok v
      | None => Raise NotConstExprError
      end
  | irt.BinExpr lhs bin_op rhs _ =>
      except_KeyError (
        op ← subscript (ConstExprEvaluator.BinOps (irt.sym bin_op));
        x ← eval_in ρ lhs;
        y ← eval_in ρ rhs;
        op x y)
  | irt.UnExpr un_op expr _ =>
      except_KeyError (
        op ← subscript (ConstExprEvaluator.UnOps (irt.sym un_op));
        x ← eval_in ρ expr;
        op x)
  | irt.Lit val _ => Ok val
  end.

(** The paths of a statement: one per choice of a branch at every split
    met on the way.  Every other statement is one step of the path. *)
Fixpoint paths (s : irt.Stmt) : list (list irt.Stmt) :=
  match s with
  | irt.SplitStmt branches =>
      flat_map
        (fix seq (stmts : list irt.Stmt) : list (list irt.Stmt) :=
           match stmts with
           | [] => [[]]
           | s' :: rest =>
               p ← paths s'; q ← seq rest; [p ++ q]
           end) branches
  | _ => [[s]]
  end.

Fixpoint paths_of (stmts : list irt.Stmt) : list (list irt.Stmt) :=
  match stmts with
  | [] => [[]]
  | s :: rest => p ← paths s; q ← paths_of rest; [p ++ q]
  end.

(** Running one path: an assumption that does not hold makes the path
    infeasible ([None]); an assignment to an identifier records the value;
    so does nothing else that can occur on the path of split/assume
    code. *)
Fixpoint run_path (ρ : env) (path : list irt.Stmt) : option env :=
  match path with
  | [] => Some ρ
  | irt.AssumeStmt expr _ :: rest =>
      match eval_in ρ expr with
      | Ok v => if ConstExprEvaluator.to_bool v then run_path ρ rest else None
      | Raise _ => None
      end
  | irt.AssignStmt (irt.Identifier x _) expr :: rest =>
      match eval_in ρ expr with
      | Ok v => run_path (env_set ρ x v) rest
      | Raise _ => None
      end
  | _ :: _ => None
  end.

(** The values a variable holds at the end of the feasible paths. *)
Definition recorded (ρ : env) (stmts : list irt.Stmt) (x : irt.Var)
    : list (option value) :=
  omap (λ path, (λ ρ', ρ' x) <$> run_path ρ path) (paths_of stmts).

End observe.

(** ** The case guards, in the words of the specification *)

Module case_spec.
Section guards.
Context (bool_hint int_hint : type_hint).


Definition disj (a b : irt.Expr) : irt.Expr :=
  irt.BinExpr a (irt.bin_ops ops.OR) b bool_hint.

(** The left-fold disjunction of a non-empty list of tests. *)
Definition disjunction (tests : list irt.Expr) : option irt.Expr :=
  match tests with
  | [] => None
  | t :: ts => Some (fold_left disj ts t)
  end.



End guards.
End case_spec.

(** ** What of the source the lowering reaches *)

Module reached.

(** The label declarations of the [Label] statements the lowering
    transforms: all but those inside a [for] loop or an exception
    handler. *)
Fixpoint labels (s : lal.Stmt) : list lal_node.LabelDecl :=
  match s with
  | lal.Label d => [d]
  | lal.IfStmt _ t e => flat_map labels t ++ flat_map labels e
  | lal.CaseStmt _ alts =>
      flat_map (λ alt,
        match alt with
        | lal.Alternative _ ss => flat_map labels ss
        end) alts
  | lal.LoopStmt _ ss | lal.WhileLoopStmt _ _ ss => flat_map labels ss
  | lal.NamedStmt s' => labels s'
  | _ => []
  end.

(** The label declarations the transformed [goto] statements refer to. *)
Fixpoint gotos (s : lal.Stmt) : list lal_node.LabelDecl :=
  match s with
  | lal.GotoStmt d => [d]
  | lal.IfStmt _ t e => flat_map gotos t ++ flat_map gotos e
  | lal.CaseStmt _ alts =>
      flat_map (λ alt,
        match alt with
        | lal.Alternative _ ss => flat_map gotos ss
        end) alts
  | lal.LoopStmt _ ss | lal.WhileLoopStmt _ _ ss => flat_map gotos ss
  | lal.NamedStmt s' => gotos s'
  | _ => []
  end.

End reached.

(** ** Relations between states of the lowering *)

(** [st'] follows [st]: the dictionary of variables and the loop stack are
    the same, and no count of [tmp_vars] went down. *)
Definition state_le (st st' : State) : Prop :=
  var_decls st' = var_decls st ∧
  loop_stack st' = loop_stack st ∧
  ∀ name, (counter st name ≤ counter st' name)%nat.

(** The label nodes the loop rules make: [exit_loop<n>] and
    [exit_while_loop<n>], without a source node. *)
Definition exit_label (base : string) (n : nat) : irt.Label :=
  {| irt.label_name := base +:+ pretty n; irt.orig_node := None |}.

(** [l] is an exit label made between the states [st] and [st']. *)
Definition exit_label_between (st st' : State) (l : irt.Label) : Prop :=
  ∃ base n,
    base ∈ ["exit_loop"; "exit_while_loop"] ∧
    l = exit_label base n ∧
    (counter st base ≤ n < counter st' base)%nat.

(** ** The lowering of a case statement, in the words of the specification *)


(** ** Labels and gotos of a lowered statement list *)

(** How the labels [emitted] as statements and the [targets] of the gotos
    of a piece of output relate to the source it was lowered from, between
    the states [st] and [st']: a source label is emitted as often as its
    declaration occurs among the transformed [Label] statements; every
    emitted label is a source label or an exit label made in between; an
    exit label is emitted at most once; the target of every goto is the
    label of a declaration that a transformed goto refers to, or the exit
    label of a loop on the stack at [st], or is emitted. *)
Definition labels_inv (src_labels src_gotos : list lal_node.LabelDecl)
    (st : State) (emitted targets : list irt.Label) (st' : State) : Prop :=
  state_le st st' ∧
  (∀ d, count_occ irt.Label_eq_dec emitted (label_of_decl d)
        = count_occ lal_node.LabelDecl_eq_dec src_labels d) ∧
  (∀ l, l ∈ emitted →
        (∃ d, l = label_of_decl d) ∨ exit_label_between st st' l) ∧
  (∀ l, irt.orig_node l = None →
        (count_occ irt.Label_eq_dec emitted l ≤ 1)%nat) ∧
  (∀ g, g ∈ targets →
        (∃ d, g = label_of_decl d ∧ d ∈ src_gotos) ∨
        g ∈ (loop_stack st).*2 ∨
        g ∈ emitted).

(** ** Sample inputs *)

Module examples.

Definition std_evaluator : ConstExprEvaluator.t :=
  {| ConstExprEvaluator.bool_type := Some Std_Boolean;
     ConstExprEvaluator.int_type := Some Std_Integer;
     ConstExprEvaluator.universal_int := Some Std_Universal_Int;
     ConstExprEvaluator.universal_real := Some Std_Universal_Real |}.

Definition ctx : ExtractionContext := {| evaluator := std_evaluator |}.

Definition int_literal (tok : string) : lal.Expr :=
  lal.IntLiteral tok (Some Std_Universal_Int).

Definition True_literal : lal.Expr :=
  lal.Identifier "True" (lal.EnumLiteralDecl_ref (Some Std_Boolean))
    (Some Std_Boolean).

(** [X], an object of type [Integer] declared at node 1. *)
Definition X : lal.Expr :=
  lal.Identifier "X" (lal.ObjectDecl_ref 1) (Some Std_Integer).

Definition X_dest : lal.Dest :=
  {| lal.dest_decl := 1; lal.dest_text := "X";
     lal.dest_type := Some Std_Integer |}.

Definition X_decl : lal.BasicDecl :=
  lal.ObjectDecl 1 ["X"] (Some Std_Integer) None.

(** [N : constant := (if True then 1 else 2);  X : Integer;
     begin  X := N;  end] *)
Definition named_number_subp : lal.SubpBody :=
  {| lal.f_decls := [lal.NumberDecl; X_decl];
     lal.f_subp_stmts :=
       [lal.AssignStmt X_dest
          (lal.Identifier "N"
             (lal.NumberDecl_ref
                (lal.IfExpr True_literal (int_literal "1") (int_literal "2")
                   (Some Std_Universal_Int)))
             (Some Std_Universal_Int))] |}.

(** The variable that [X_decl] declares, and a reference to it. *)
Definition X_var : irt.Var :=
  {| irt.name := "X"; irt.purpose := None;
     irt.var_type_hint := Some Std_Integer |}.
Definition X_id : irt.Expr := irt.Identifier X_var (Some Std_Integer).

(** The first temporary of a lowering, of universal integer type. *)
Definition tmp0 : irt.Expr :=
  irt.Identifier
    {| irt.name := "tmp0"; irt.purpose := Some irt.SyntheticVariable;
       irt.var_type_hint := Some Std_Universal_Int |}
    (Some Std_Universal_Int).

(** The split that assigns [(if True then 1 else 2)] to [tmp0], as it is
    lowered and as the normalizer leaves it. *)
Definition N_split : irt.Stmt :=
  irt.SplitStmt
    [[irt.AssumeStmt (irt.Lit (VStr "True") (Some Std_Boolean)) None;
      irt.AssignStmt tmp0 (irt.Lit (VInt 1) (Some Std_Universal_Int))];
     [irt.AssumeStmt
        (irt.UnExpr (irt.un_ops ops.NOT)
           (irt.Lit (VStr "True") (Some Std_Boolean)) (Some Std_Boolean))
        None;
      irt.AssignStmt tmp0 (irt.Lit (VInt 2) (Some Std_Universal_Int))]].

Definition N_split_normalized : irt.Stmt :=
  irt.SplitStmt
    [[irt.AssumeStmt (irt.Lit (VStr "True") (Some Std_Boolean)) None;
      irt.AssignStmt tmp0 (irt.Lit (VInt 1) (Some Std_Universal_Int))];
     [irt.AssumeStmt (irt.Lit (VStr "False") (Some Std_Boolean)) None;
      irt.AssignStmt tmp0 (irt.Lit (VInt 2) (Some Std_Universal_Int))]].

(** [X := tmp0 + 1] behind the split, as [named_number_sum_subp] is
    lowered, and as the normalizer leaves it. *)
Definition sum_lowered : irt.Program :=
  {| irt.stmts :=
       [irt.ReadStmt X_id;
        N_split;
        irt.AssignStmt X_id
          (irt.BinExpr tmp0 (irt.bin_ops ops.PLUS)
             (irt.Lit (VInt 1) (Some Std_Universal_Int))
             (Some Std_Universal_Int))] |}.

Definition sum_normalized : irt.Program :=
  {| irt.stmts :=
       [irt.ReadStmt X_id;
        N_split_normalized;
        irt.AssignStmt X_id
          (irt.BinExpr tmp0 (irt.bin_ops ops.PLUS)
             (irt.Lit (VInt 1) (Some Std_Universal_Int))
             (Some Std_Universal_Int))] |}.

(** The named number [N] of [named_number_subp], as a name. *)
Definition N_name : lal.Expr :=
  lal.Identifier "N"
    (lal.NumberDecl_ref
       (lal.IfExpr True_literal (int_literal "1") (int_literal "2")
          (Some Std_Universal_Int)))
    (Some Std_Universal_Int).

(** [N : constant := (if True then 1 else 2);  X : Integer;
     begin  X := N + 1;  end] *)
Definition named_number_sum_subp : lal.SubpBody :=
  {| lal.f_decls := [lal.NumberDecl; X_decl];
     lal.f_subp_stmts :=
       [lal.AssignStmt X_dest
          (lal.BinOp N_name lal.OpPlus (int_literal "1")
             (Some Std_Universal_Int))] |}.



(** [X : Integer;  begin  null;  end]: the null statement has no rule. *)
Definition unsupported_subp : lal.SubpBody :=
  {| lal.f_decls := [X_decl];
     lal.f_subp_stmts := [lal.OtherStmt] |}.

(** The state of the lowering once [X] is declared. *)
Definition X_declared : State :=
  {| tmp_vars := ∅;
     var_decls :=
       {[ (1%N, "X") :=
            {| irt.name := "X"; irt.purpose := None;
               irt.var_type_hint := Some Std_Integer |} ]};
     loop_stack := [] |}.

(** [type Digit is range 0 .. 9;  D : Digit;
     begin  case D is  when 0 .. 9 => D := 0;  end case;  end] *)
Definition D : lal.Expr :=
  lal.Identifier "D" (lal.ObjectDecl_ref 4) (Some (TypeDeclNode "Digit")).

Definition D_dest : lal.Dest :=
  {| lal.dest_decl := 4; lal.dest_text := "D";
     lal.dest_type := Some (TypeDeclNode "Digit") |}.

Definition one_alternative_subp : lal.SubpBody :=
  {| lal.f_decls :=
       [lal.TypeDecl;
        lal.ObjectDecl 4 ["D"] (Some (TypeDeclNode "Digit")) None];
     lal.f_subp_stmts :=
       [lal.CaseStmt D
          [lal.Alternative
             [lal.BinOp (int_literal "0") lal.OpDoubleDot (int_literal "9")
                None]
             [lal.AssignStmt D_dest (int_literal "0")]]] |}.

(** [case X is  when 1 => X := 0;  when 2 | 3 => X := 1;
     when others => X := 2;  end case;] *)
Definition case_scenario : lal.Stmt :=
  lal.CaseStmt X
    [lal.Alternative [int_literal "1"]
       [lal.AssignStmt X_dest (int_literal "0")];
     lal.Alternative [int_literal "2"; int_literal "3"]
       [lal.AssignStmt X_dest (int_literal "1")];
     lal.Alternative [lal.OthersDesignator]
       [lal.AssignStmt X_dest (int_literal "2")]].

(** [B] and [C], objects of type [Boolean] declared at nodes 2 and 3. *)
Definition B : lal.Expr :=
  lal.Identifier "B" (lal.ObjectDecl_ref 2) (Some Std_Boolean).
Definition C : lal.Expr :=
  lal.Identifier "C" (lal.ObjectDecl_ref 3) (Some Std_Boolean).

Definition B_var : irt.Var :=
  {| irt.name := "B"; irt.purpose := None;
     irt.var_type_hint := Some Std_Boolean |}.
Definition C_var : irt.Var :=
  {| irt.name := "C"; irt.purpose := None;
     irt.var_type_hint := Some Std_Boolean |}.

Definition B_C_declared : State :=
  {| tmp_vars := ∅;
     var_decls := {[ (2%N, "B") := B_var; (3%N, "C") := C_var ]};
     loop_stack := [] |}.

(** The environment in which [B] is [True] and [C] is [False]. *)
Definition B_true_C_false : observe.env :=
  λ x, if decide (x = B_var) then Some (VStr "True")
       else if decide (x = C_var) then Some (VStr "False")
       else None.

(** [X : Integer;
     begin
        <<Start>>
        loop  exit when X = 0;  X := 0;  end loop;
        goto Start;
     end] *)
Definition Start : lal_node.LabelDecl :=
  {| lal_node.label_node := 5; lal_node.f_name_text := "Start" |}.

Definition goto_subp : lal.SubpBody :=
  {| lal.f_decls := [X_decl];
     lal.f_subp_stmts :=
       [lal.Label Start;
        lal.LoopStmt 7
          [lal.ExitStmt None
             (Some (lal.BinOp X lal.OpEq (int_literal "0")
                      (Some Std_Boolean)));
           lal.AssignStmt X_dest (int_literal "0")];
        lal.GotoStmt Start] |}.

End examples.

(** ** Constant expressions, in closed form *)

Module const_expr.

(** The expression names no variable, and each of its operators has a rule
    in the table of the evaluator for its arity. *)
Fixpoint closed (e : irt.Expr) : bool :=
  match e with
  | irt.Identifier _ _ => false
  | irt.Lit _ _ => true
  | irt.BinExpr lhs bin_op rhs _ =>
      match ConstExprEvaluator.BinOps (irt.sym bin_op) with
      | Some _ => closed lhs && closed rhs
      | None => false
      end
  | irt.UnExpr un_op expr _ =>
      match ConstExprEvaluator.UnOps (irt.sym un_op) with
      | Some _ => closed expr
      | None => false
      end
  end.

(** The integer that an expression of integer literals, [+], [-] and unary
    [-] stands for. *)
Fixpoint int_value (e : irt.Expr) : option Z :=
  match e with
  | irt.Lit val _ => integer_of val
  | irt.BinExpr lhs bin_op rhs _ =>
      match irt.sym bin_op with
      | ops.PLUS => x ← int_value lhs; y ← int_value rhs; Some (x + y)%Z
      | ops.MINUS => x ← int_value lhs; y ← int_value rhs; Some (x - y)%Z
      | _ => None
      end
  | irt.UnExpr un_op expr _ =>
      match irt.sym un_op with
      | ops.NEG => x ← int_value expr; Some (- x)%Z
      | _ => None
      end
  | _ => None
  end.

(** The integer [z] fits an [int]. *)
Definition fits_int (z : Z) : bool :=
  (- maxint - 1 <=? z)%Z && (z <=? maxint)%Z.

(** The literals of the expression are [int]s and none of its operations
    overflows: the expression is computed with [int]s throughout. *)
Fixpoint int_only (e : irt.Expr) : bool :=
  match e with
  | irt.Lit (VInt z) _ => fits_int z
  | irt.BinExpr lhs _ rhs _ =>
      int_only lhs && int_only rhs &&
      match int_value e with Some z => fits_int z | None => false end
  | irt.UnExpr _ expr _ =>
      int_only expr &&
      match int_value e with Some z => fits_int z | None => false end
  | _ => false
  end.

(** The order relation that a comparison symbol stands for. *)
Definition comparison_of (s : ops.sym) : option (Z → Z → bool) :=
  match s with
  | ops.LT => Some Z.ltb
  | ops.LE => Some Z.leb
  | ops.EQ => Some Z.eqb
  | ops.NEQ => Some (λ x y, negb (Z.eqb x y))
  | ops.GE => Some Z.geb
  | ops.GT => Some Z.gtb
  | _ => None
  end.

(** The truth value that an expression of the two boolean literals, of
    comparisons of integers, and of [and], [or] and [not] stands for. *)
Fixpoint bool_value (e : irt.Expr) : option bool :=
  match e with
  | irt.Lit (VStr s) _ =>
      if String.eqb s ADA_TRUE then Some true
      else if String.eqb s ADA_FALSE then Some false
      else None
  | irt.BinExpr lhs bin_op rhs _ =>
      match irt.sym bin_op with
      | ops.AND => a ← bool_value lhs; b ← bool_value rhs; Some (a && b)
      | ops.OR => a ← bool_value lhs; b ← bool_value rhs; Some (a || b)
      | s =>
          rel ← comparison_of s;
          x ← int_value lhs; y ← int_value rhs; Some (rel x y)
      end
  | irt.UnExpr un_op expr _ =>
      match irt.sym un_op with
      | ops.NOT => a ← bool_value expr; Some (negb a)
      | _ => None
      end
  | _ => None
  end.

End const_expr.

(** ** Further observations on the lowering *)

Module lowered.

(** The expression holds no short-circuit operator, no if-expression and no
    dereference, also behind the named numbers and the type ranges that the
    lowering follows. *)
Fixpoint plain (e : lal.Expr) : bool :=
  match e with
  | lal.ParenExpr e' => plain e'
  | lal.BinOp l op r _ =>
      match op with
      | lal.OpAndThen | lal.OpOrElse => false
      | _ => plain l && plain r
      end
  | lal.UnOp _ e' _ => plain e'
  | lal.IfExpr _ _ _ _ => false
  | lal.Identifier _ ref _ =>
      match ref with
      | lal.NumberDecl_ref e' => plain e'
      | lal.TypeDecl_ref (lal.SignedIntTypeDef r) => plain r
      | _ => true
      end
  | lal.ExplicitDeref _ _ => false
  | lal.AttributeRef p _ _ => plain p
  | lal.IntLiteral _ _ | lal.NullLiteral _ | lal.OthersDesignator
  | lal.OtherExpr _ => true
  end.

(** The number of [ExplicitDeref] nodes that the lowering of the expression
    meets. *)
Fixpoint derefs (e : lal.Expr) : nat :=
  match e with
  | lal.ParenExpr e' => derefs e'
  | lal.BinOp l _ r _ => derefs l + derefs r
  | lal.UnOp _ e' _ => derefs e'
  | lal.IfExpr c a b _ => derefs c + derefs a + derefs b
  | lal.Identifier _ ref _ =>
      match ref with
      | lal.NumberDecl_ref e' => derefs e'
      | lal.TypeDecl_ref (lal.SignedIntTypeDef r) => derefs r
      | _ => 0
      end
  | lal.ExplicitDeref p _ => S (derefs p)
  | lal.AttributeRef p _ _ => derefs p
  | lal.IntLiteral _ _ | lal.NullLiteral _ | lal.OthersDesignator
  | lal.OtherExpr _ => 0
  end%nat.

(** The number of assumptions of the statement, nested ones included, that
    are marked as dereference checks. *)
Fixpoint deref_checks (s : irt.Stmt) : nat :=
  match s with
  | irt.AssumeStmt _ (Some (irt.DerefCheck _)) => 1
  | irt.SplitStmt branches =>
      sum_list (map (λ b, sum_list (map deref_checks b)) branches)
  | irt.LoopStmt stmts => sum_list (map deref_checks stmts)
  | _ => 0
  end%nat.

(** A dereference check assumes that the prefix it is marked with differs
    from [null]; this holds of every marked assumption of the statement. *)
Fixpoint checks_prefix (bool_hint : type_hint) (s : irt.Stmt) : bool :=
  match s with
  | irt.AssumeStmt e (Some (irt.DerefCheck prefix)) =>
      match e with
      | irt.BinExpr lhs bin_op (irt.Lit val _) h =>
          bool_decide (lhs = prefix ∧ bin_op = irt.bin_ops ops.NEQ ∧
                       val = lits.NULL ∧ h = bool_hint)
      | _ => false
      end
  | irt.SplitStmt branches =>
      forallb (forallb (checks_prefix bool_hint)) branches
  | irt.LoopStmt stmts => forallb (checks_prefix bool_hint) stmts
  | _ => true
  end.

(** What the statements in front of a lowered expression are made of:
    assignments to synthetic variables, assumptions, and splits in two
    branches of such statements. *)
Fixpoint pre_stmt (s : irt.Stmt) : bool :=
  match s with
  | irt.AssignStmt (irt.Identifier v _) _ =>
      bool_decide (irt.purpose v = Some irt.SyntheticVariable)
  | irt.AssumeStmt _ _ => true
  | irt.SplitStmt branches =>
      (length branches =? 2)%nat && forallb (forallb pre_stmt) branches
  | _ => false
  end.

(** No [UseStmt] in the statement. *)
Fixpoint no_use (s : irt.Stmt) : bool :=
  match s with
  | irt.UseStmt _ => false
  | irt.SplitStmt branches => forallb (forallb no_use) branches
  | irt.LoopStmt stmts => forallb no_use stmts
  | _ => true
  end.

(** The variables that the assignments of the statement assign, nested
    ones included. *)
Fixpoint assigned_vars (s : irt.Stmt) : list irt.Var :=
  match s with
  | irt.AssignStmt (irt.Identifier v _) _ => [v]
  | irt.SplitStmt branches => flat_map (flat_map assigned_vars) branches
  | irt.LoopStmt stmts => flat_map assigned_vars stmts
  | _ => []
  end.

(** [v] is a synthetic variable [tmp<n>] whose name was drawn between the
    states [st] and [st']. *)
Definition synthetic_between (st st' : State) (v : irt.Var) : Prop :=
  ∃ n, irt.name v = "tmp" +:+ pretty n ∧
       irt.purpose v = Some irt.SyntheticVariable ∧
       (counter st "tmp" ≤ n < counter st' "tmp")%nat.

(** What holds of the statements [pre] in front of an expression lowered
    between the states [st] and [st']: they have the form [pre_stmt], the
    variables they assign are synthetic ones drawn in between, and their
    dereference checks are [n], each one of its own prefix. *)
Definition pre_inv (bool_hint : type_hint) (st : State)
    (pre : list irt.Stmt) (n : nat) (st' : State) : Prop :=
  state_le st st' ∧
  forallb pre_stmt pre = true ∧
  forallb (checks_prefix bool_hint) pre = true ∧
  sum_list (map deref_checks pre) = n ∧
  Forall (synthetic_between st st') (flat_map assigned_vars pre).

(** The integer [x] is the label value [v], or lies within the bounds of
    the range [v]. *)
Definition label_matches (x : Z) (v : value) : bool :=
  match v with
  | VInt z => Z.eqb x z
  | VRange (VInt lo) (VInt hi) => Z.leb lo x && Z.leb x hi
  | _ => false
  end.

(** The keys of [var_decls] that a declaration sets. *)
Definition declared_keys (decl : lal.BasicDecl) : list (N * string) :=
  match decl with
  | lal.ObjectDecl node f_ids _ _ => map (λ text, (node, text)) f_ids
  | _ => []
  end.

(** The variable that an object declaration makes for one of its names. *)
Definition declared_var (text : string) (tdecl : type_hint) : irt.Var :=
  {| irt.name := text; irt.purpose := None; irt.var_type_hint := tdecl |}.

End lowered.

(** ** The short-circuit split, in the words of the specification *)

(** "and-then: branch(assume L) -> branch(assume R -> tmp=True) |
    branch(assume not R -> tmp=False); branch(assume not L) -> tmp=False",
    and the like for or-else; the pre-statements of the left operand come
    before the split, those of the right operand are nested in the branch
    that evaluates it. *)
Module short_circuit_spec.

(** The temporary drawn in the state [st], of type [t]. *)
Definition temporary (st : State) (t : type_hint) : irt.Var :=
  {| irt.name := "tmp" +:+ pretty (counter st "tmp");
     irt.purpose := Some irt.SyntheticVariable;
     irt.var_type_hint := t |}.

Section tree.
Context (tmp : irt.Var) (t : type_hint).

Definition neg (e : irt.Expr) : irt.Expr :=
  irt.UnExpr (irt.un_ops ops.NOT) e (irt.type_hint_of e).

Definition set (b : value) : irt.Stmt :=
  irt.AssignStmt (irt.Identifier tmp t) (irt.Lit b t).

(** The split on the right operand, behind its pre-statements. *)
Definition inner (rp : list irt.Stmt) (R : irt.Expr) : list irt.Stmt :=
  rp ++ [irt.SplitStmt [[irt.AssumeStmt R None; set lits.TRUE];
                        [irt.AssumeStmt (neg R) None; set lits.FALSE]]].

Definition and_then (lp rp : list irt.Stmt) (L R : irt.Expr)
    : list irt.Stmt :=
  lp ++ [irt.SplitStmt [irt.AssumeStmt L None :: inner rp R;
                        [irt.AssumeStmt (neg L) None; set lits.FALSE]]].

Definition or_else (lp rp : list irt.Stmt) (L R : irt.Expr)
    : list irt.Stmt :=
  lp ++ [irt.SplitStmt [[irt.AssumeStmt L None; set lits.TRUE];
                        irt.AssumeStmt (neg L) None :: inner rp R]].

Definition tree (is_and_then : bool) :=
  if is_and_then then and_then else or_else.

End tree.

(** The truth table of the operator. *)
Definition table (is_and_then a b : bool) : bool :=
  if is_and_then then a && b else a || b.

End short_circuit_spec.

(** ** Statements that mean the same *)

Module meaning.

(** The two expressions have the same value, or raise alike, under every
    environment. *)
Definition expr_equiv (e e' : irt.Expr) : Prop :=
  ∀ ρ, observe.eval_in ρ e' = observe.eval_in ρ e.

Definition purpose_equiv (p p' : option irt.AssumePurpose) : Prop :=
  match p, p' with
  | None, None => True
  | Some (irt.DerefCheck prefix), Some (irt.DerefCheck prefix') =>
      expr_equiv prefix prefix'
  | _, _ => False
  end.

(** The two statements are one statement up to the expressions that are
    evaluated: an assignment to the same target, an assumption, a split of
    as many branches or a loop, statement by statement, with expressions
    that mean the same; or the same read, use, goto or label. *)
Inductive stmt_equiv : irt.Stmt → irt.Stmt → Prop :=
| equiv_assign id e e' :
    expr_equiv e e' → stmt_equiv (irt.AssignStmt id e) (irt.AssignStmt id e')
| equiv_assume e e' p p' :
    expr_equiv e e' → purpose_equiv p p' →
    stmt_equiv (irt.AssumeStmt e p) (irt.AssumeStmt e' p')
| equiv_split branches branches' :
    Forall2 (Forall2 stmt_equiv) branches branches' →
    stmt_equiv (irt.SplitStmt branches) (irt.SplitStmt branches')
| equiv_loop stmts stmts' :
    Forall2 stmt_equiv stmts stmts' →
    stmt_equiv (irt.LoopStmt stmts) (irt.LoopStmt stmts')
| equiv_read id : stmt_equiv (irt.ReadStmt id) (irt.ReadStmt id)
| equiv_use id : stmt_equiv (irt.UseStmt id) (irt.UseStmt id)
| equiv_goto l : stmt_equiv (irt.GotoStmt l) (irt.GotoStmt l)
| equiv_label l : stmt_equiv (irt.LabelStmt l) (irt.LabelStmt l).

End meaning.

(** ** The analysis unit and [extract_programs] as a whole *)

Module lal_unit.

(** What [unit.root.findall((lal.SubpBody, lal.ExprFunction))] yields: a
    subprogram body, or an expression function, which has neither
    [f_decls] nor [f_stmts]. *)
Inductive Subp :=
| SubpBody (body : lal.SubpBody)
| ExprFunction.

(** An analysis unit: its root, [None] when the file did not parse, as the
    subprograms [findall] yields on it; its diagnostics, as [format]
    renders them; and what the call [unit.populate_lexical_env()] does,
    return or raise, which is libadalang's to decide. *)
Record AnalysisUnit := {
  root : option (list Subp);
  diagnostics : list string;
  populate_lexical_env : result unit
}.

End lal_unit.

(** [_gen_ir] on any node that [findall] yields: reading [subp.f_decls] off
    an expression function raises [AttributeError]. *)
Definition _gen_ir_node (ctx : ExtractionContext) (subp : lal_unit.Subp)
    : result irt.Program :=
  match subp with
  | lal_unit.SubpBody body => _gen_ir ctx body
  | lal_unit.ExprFunction => Raise AttributeError
  end.

(** [extract_programs] from the unit that [ctx.parse_file(ada_file)]
    returns: the lines it prints, and what it returns or raises.  The
    [return] of the failure branch is inside the loop over the diagnostics:
    the function returns [None] after the first one, and goes on to
    [unit.populate_lexical_env()] and [unit.root.findall] when there is
    none. *)
Definition extract_programs_of (ctx : ExtractionContext) (ada_file : string)
    (unit : lal_unit.AnalysisUnit)
    : list string * result (option (list irt.Program)) :=
  match lal_unit.root unit with
  | None =>
      let header := "Could not parse " +:+ ada_file +:+ ":" in
      match lal_unit.diagnostics unit with
      | diag :: _ => ([header; "   " +:+ diag], Ok None)
      | [] =>
          ([header],
           _ ← lal_unit.populate_lexical_env unit;
           Raise AttributeError)
      end
  | Some subps =>
      ([],
       _ ← lal_unit.populate_lexical_env unit;
       progs ← try_map (_gen_ir_node ctx) subps;
       progs' ← try_map (ConvertUniversalTypes.visit_program (evaluator ctx))
                  progs;
       Ok (Some progs'))
  end.

(** ** The node model of [tree.py] and its pretty-printer *)

(** [lalcheck/irs/basic/tree.py] as it stands: a split of two statement
    lists, nodes without type hints.  [str] of the name of an identifier
    is the name; [str] of a literal value and of an operator symbol are
    left to [str_val] and [str_sym]. *)
Module tree.

(** A call of [SplitStmt] binds its positional arguments to the parameters
    [fst_stmts] and [snd_stmts] of [__init__], neither of which has a
    default: with any other number of them the call raises [TypeError],
    whatever keyword arguments it passes as user data. *)
Definition SplitStmt_args {A} (args : list A) : result (A * A) :=
  match args with
  | [fst_stmts; snd_stmts] => Ok (fst_stmts, snd_stmts)
  | _ => Raise TypeError
  end.

Section nodes.
Context {Sym : Type}.

Record Operator := { sym : Sym }.

Inductive Expr :=
| Identifier (name : string)
| BinExpr (lhs : Expr) (bin_op : Operator) (rhs : Expr)
| UnExpr (un_op : Operator) (expr : Expr)
| Lit (val : value).

Inductive Stmt :=
| AssignStmt (var : Expr) (expr : Expr)
| SplitStmt (fst_stmts snd_stmts : list Stmt)
| LoopStmt (stmts : list Stmt)
| ReadStmt (var : Expr)
| UseStmt (var : Expr)
| AssumeStmt (expr : Expr).

Record Program := { stmts : list Stmt }.

(** [PrettyPrintOpts] *)
Record PrettyPrintOpts := { indent : Z }.

(** [s * n] on a string: nothing when [n] is not positive. *)
Definition str_mul (s : string) (n : Z) : string :=
  String.concat "" (replicate (Z.to_nat n) s).

Definition indents (opts : PrettyPrintOpts) (offset : Z) : string :=
  str_mul "  " (indent opts + offset).

Definition indented (opts : PrettyPrintOpts) : PrettyPrintOpts :=
  {| indent := indent opts + 1 |}.

(** The line feed. *)
Definition LF : string := String (Ascii.ascii_of_nat 10) EmptyString.

Context (str_val : value → string) (str_sym : Sym → string).

Definition pretty_print_op (op : Operator) : string := str_sym (sym op).

Fixpoint pretty_print_expr (e : Expr) (opts : PrettyPrintOpts) : string :=
  match e with
  | Identifier name => name
  | BinExpr lhs bin_op rhs =>
      pretty_print_expr lhs opts +:+ " " +:+ pretty_print_op bin_op +:+ " "
      +:+ pretty_print_expr rhs opts
  | UnExpr un_op expr =>
      pretty_print_op un_op +:+ pretty_print_expr expr opts
  | Lit val => str_val val
  end.

(** [pretty_print_stmts], with the printer of one statement left open. *)
Definition pretty_print_stmts_with
    (pretty_print : Stmt → PrettyPrintOpts → string)
    (stmts : list Stmt) (opts : PrettyPrintOpts) : string :=
  let indents := indents opts 1 in
  String.concat LF
    (map (λ stmt, indents +:+ pretty_print stmt (indented opts)) stmts).

Fixpoint pretty_print_stmt (s : Stmt) (opts : PrettyPrintOpts) : string :=
  match s with
  | AssignStmt var expr =>
      pretty_print_expr var opts +:+ " = " +:+ pretty_print_expr expr opts
  | SplitStmt fst_stmts snd_stmts =>
      let indents := indents opts 0 in
      "split:" +:+ LF
      +:+ pretty_print_stmts_with pretty_print_stmt fst_stmts opts
      +:+ LF +:+ indents +:+ "|:" +:+ LF
      +:+ pretty_print_stmts_with pretty_print_stmt snd_stmts opts
  | LoopStmt stmts =>
      "loop:" +:+ LF
      +:+ pretty_print_stmts_with pretty_print_stmt stmts opts
  | ReadStmt var => "read(" +:+ pretty_print_expr var opts +:+ ")"
  | UseStmt var => "use(" +:+ pretty_print_expr var opts +:+ ")"
  | AssumeStmt expr => "assume(" +:+ pretty_print_expr expr opts +:+ ")"
  end.

Definition pretty_print_stmts : list Stmt → PrettyPrintOpts → string :=
  pretty_print_stmts_with pretty_print_stmt.

Definition pretty_print_program (p : Program) (opts : PrettyPrintOpts)
    : string :=
  "Program:" +:+ LF +:+ pretty_print_stmts (stmts p) opts.

End nodes.
Arguments Operator : clear implicits.
Arguments Expr : clear implicits.
Arguments Stmt : clear implicits.
Arguments Program : clear implicits.

End tree.

(** ** The counters of the temporaries *)

(** No count of [tmp_vars] goes down. *)
Definition counters_le (st st' : State) : Prop :=
  ∀ name, (counter st name ≤ counter st' name)%nat.

(** * Properties *)

(** ** The constant expression evaluator *)

Section evaluator_props.
Import ConstExprEvaluator.

(** No [KeyError] leaves [visit]: the handlers turn it into
    [NotConstExprError]. *)
Lemma visit_no_KeyError e : visit e ≠ Raise KeyError.
Proof.
  destruct e as [| |l op r h|op e h]; simpl; try discriminate.
  - destruct (BinOps _) as [f|]; simpl; [|discriminate].
    destruct (visit l) as [x|[]]; simpl; try discriminate.
    destruct (visit r) as [y|[]]; simpl; try discriminate.
    destruct (f x y) as [|[]] eqn:E; simpl; try discriminate.
  - destruct (UnOps _) as [f|]; simpl; [|discriminate].
    destruct (visit e) as [x|[]]; simpl; try discriminate.
    destruct (f x) as [|[]] eqn:E; simpl; try discriminate.
Qed.

Lemma visit_binexpr_absent l op r h :
  BinOps (irt.sym op) = None → visit (irt.BinExpr l op r h) = Raise NotConstExprError.
Proof. simpl. by intros ->. Qed.

Lemma visit_unexpr_absent op e h :
  UnOps (irt.sym op) = None → visit (irt.UnExpr op e h) = Raise NotConstExprError.
Proof. simpl. by intros ->. Qed.

Lemma visit_binexpr_lhs_fails l op r h x :
  visit l = Raise x → ∃ x', visit (irt.BinExpr l op r h) = Raise x'.
Proof.
  intros Hl. simpl. destruct (BinOps _); simpl; [|eauto].
  rewrite Hl. simpl. destruct x; simpl; eauto.
Qed.

Lemma visit_binexpr_rhs_fails l op r h x :
  visit r = Raise x → ∃ x', visit (irt.BinExpr l op r h) = Raise x'.
Proof.
  intros Hr. simpl. destruct (BinOps _); simpl; [|eauto].
  destruct (visit l) as [a|y]; simpl; [|destruct y; simpl; eauto].
  rewrite Hr. simpl. destruct x; simpl; eauto.
Qed.

Lemma visit_unexpr_fails op e h x :
  visit e = Raise x → ∃ x', visit (irt.UnExpr op e h) = Raise x'.
Proof.
  intros He. simpl. destruct (UnOps _); simpl; [|eauto].
  rewrite He. simpl. destruct x; simpl; eauto.
Qed.

Lemma eval_Raise e x : visit e = Raise x → eval e = Raise x.
Proof. unfold eval. by intros ->. Qed.

Lemma eval_Ok e v : eval e = Ok v ↔ visit e = Ok v ∧ v ≠ VNone.
Proof.
  unfold eval. destruct (visit e) as [w|x]; simpl.
  - destruct w; split; try (intros [= <-]; split; [done|discriminate]);
      try (intros [[= ->] ?]; done).
    + discriminate.
  - split; [discriminate|]. intros [? _]. discriminate.
Qed.

End evaluator_props.

(** ** The universal-type normalizer *)

Section normalizer_props.
Import ConstExprEvaluator ConvertUniversalTypes.
Context (ev : ConstExprEvaluator.t).

Lemma irt_Stmt_nested_ind (P : irt.Stmt → Prop) :
  (∀ id e, P (irt.AssignStmt id e)) →
  (∀ branches, Forall (Forall P) branches → P (irt.SplitStmt branches)) →
  (∀ stmts, Forall P stmts → P (irt.LoopStmt stmts)) →
  (∀ id, P (irt.ReadStmt id)) →
  (∀ id, P (irt.UseStmt id)) →
  (∀ e p, P (irt.AssumeStmt e p)) →
  (∀ l, P (irt.GotoStmt l)) →
  (∀ l, P (irt.LabelStmt l)) →
  ∀ s, P s.
Proof.
  intros HA HS HL HR HU HAs HG HLb.
  fix IH 1. intros [id e|branches|stmts|id|id|e p|l|l];
    [apply HA| |  |apply HR|apply HU|apply HAs|apply HG|apply HLb].
  - apply HS. revert branches. fix IHbs 1. intros [|b bs]; constructor.
    + revert b. fix IHb 1. intros [|s b]; constructor; [apply IH|apply IHb].
    + apply IHbs.
  - apply HL. revert stmts. fix IHss 1. intros [|s ss]; constructor;
      [apply IH|apply IHss].
Qed.

Lemma try_convert_expr_cases e t e' :
  try_convert_expr ev e t = Ok e' →
  (∃ v, eval e = Ok v ∧ e' = irt.Lit v t) ∨
  (eval e = Raise NotConstExprError ∧ visit_expr ev e = Ok e').
Proof.
  unfold try_convert_expr, try_convert_with.
  destruct (eval e) as [v|[]]; try discriminate.
  - intros [= <-]. left. eauto.
  - intros H. right. done.
Qed.

(** Normalization changes neither the type hint of the node it visits nor
    the value the evaluator gives it. *)
Lemma visit_expr_preserves e : ∀ e',
  visit_expr ev e = Ok e' →
  irt.type_hint_of e' = irt.type_hint_of e ∧ visit e' = visit e.
Proof.
  induction e as [x h|v h|l IHl op r IHr h|op e IHe h]; simpl; intros e'.
  - by intros [= <-].
  - by intros [= <-].
  - set (t := if has_universal_type ev r then _ else _).
    destruct (try_convert_with (visit_expr ev) l t) as [l'|] eqn:Hl;
      simpl; [|discriminate].
    destruct (try_convert_with (visit_expr ev) r t) as [r'|] eqn:Hr;
      simpl; [|discriminate].
    intros [= <-]. split; [done|]. simpl.
    assert (visit l' = visit l) as ->.
    { apply try_convert_expr_cases in Hl as [(v & Hv & ->)|[_ Hl]].
      - apply eval_Ok in Hv as [-> _]. done.
      - by apply IHl. }
    assert (visit r' = visit r) as ->.
    { apply try_convert_expr_cases in Hr as [(v & Hv & ->)|[_ Hr]].
      - apply eval_Ok in Hv as [-> _]. done.
      - by apply IHr. }
    done.
  - destruct (visit_expr ev e) as [e0|] eqn:He; simpl; [|discriminate].
    intros [= <-]. split; [done|]. simpl.
    destruct (IHe e0 eq_refl) as [_ ->]. done.
Qed.

Lemma visit_expr_preserves_eval e e' :
  visit_expr ev e = Ok e' → eval e' = eval e.
Proof. intros H. unfold eval. by destruct (visit_expr_preserves _ _ H) as [_ ->]. Qed.

Lemma try_convert_expr_hint e t e' :
  try_convert_expr ev e t = Ok e' →
  irt.type_hint_of e' = (if eval e is Ok _ then t else irt.type_hint_of e).
Proof.
  intros H. apply try_convert_expr_cases in H as [(v & Hv & ->)|[Hv H]];
    rewrite Hv; [done|]. by apply visit_expr_preserves.
Qed.

Lemma try_convert_expr_universal e t e' :
  try_convert_expr ev e t = Ok e' →
  has_universal_type ev e' =
    (if eval e is Ok _
     then bool_decide (t ∈ [universal_int ev; universal_real ev])
     else has_universal_type ev e).
Proof.
  intros H. unfold has_universal_type. rewrite (try_convert_expr_hint _ _ _ H).
  by destruct (eval e).
Qed.

(** Visiting a visited node changes nothing.  This is also why the pass,
    which mutates in place, is insensitive to the sharing of expression
    nodes that the lowering creates (the condition of a split is one node
    under the assumption and under its negation, the selector of a case is
    one node under every guard): a node is mutated only when its
    evaluation fails, and the second visit of such a node rebinds its
    fields to equal values. *)
Lemma visit_expr_idempotent e : ∀ e',
  visit_expr ev e = Ok e' → visit_expr ev e' = Ok e'.
Proof.
  induction e as [x h|v h|l IHl op r IHr h|op e IHe h]; simpl; intros e'.
  - by intros [= <-].
  - by intros [= <-].
  - set (t := if has_universal_type ev r then _ else _).
    destruct (try_convert_with (visit_expr ev) l t) as [l'|] eqn:Hl;
      simpl; [|discriminate].
    destruct (try_convert_with (visit_expr ev) r t) as [r'|] eqn:Hr;
      simpl; [|discriminate].
    intros [= <-]. simpl.
    fold (try_convert_expr ev) in *.
    assert ((if has_universal_type ev r' then irt.type_hint_of l'
             else irt.type_hint_of r') = t) as ->.
    { rewrite (try_convert_expr_universal _ _ _ Hr).
      rewrite (try_convert_expr_hint _ _ _ Hr), (try_convert_expr_hint _ _ _ Hl).
      subst t. unfold has_universal_type.
      destruct (eval r), (eval l);
        repeat case_bool_decide; done. }
    assert (try_convert_expr ev l' t = Ok l') as ->.
    { apply try_convert_expr_cases in Hl as [(v & Hv & ->)|[Hv Hl]].
      - unfold try_convert_expr, try_convert_with.
        apply eval_Ok in Hv as [_ Hv]. unfold eval. simpl. by destruct v.
      - unfold try_convert_expr, try_convert_with.
        rewrite (visit_expr_preserves_eval _ _ Hl), Hv. by apply IHl. }
    simpl.
    assert (try_convert_expr ev r' t = Ok r') as ->.
    { apply try_convert_expr_cases in Hr as [(v & Hv & ->)|[Hv Hr]].
      - unfold try_convert_expr, try_convert_with.
        apply eval_Ok in Hv as [_ Hv]. unfold eval. simpl. by destruct v.
      - unfold try_convert_expr, try_convert_with.
        rewrite (visit_expr_preserves_eval _ _ Hr), Hv. by apply IHr. }
    done.
  - destruct (visit_expr ev e) as [e0|] eqn:He; simpl; [|discriminate].
    intros [= <-]. simpl. by rewrite (IHe e0).
Qed.

Lemma try_convert_expr_idempotent e t e' :
  try_convert_expr ev e t = Ok e' → try_convert_expr ev e' t = Ok e'.
Proof.
  intros H. apply try_convert_expr_cases in H as [(v & Hv & ->)|[Hv H]].
  - unfold try_convert_expr, try_convert_with.
    apply eval_Ok in Hv as [_ Hv]. unfold eval. simpl. by destruct v.
  - unfold try_convert_expr, try_convert_with.
    rewrite (visit_expr_preserves_eval _ _ H), Hv.
    by apply (visit_expr_idempotent e).
Qed.

Lemma visit_purpose_idempotent p p' :
  visit_purpose ev p = Ok p' → visit_purpose ev p' = Ok p'.
Proof.
  destruct p as [[prefix]|]; simpl; [|by intros [= <-]].
  destruct (visit_expr ev prefix) as [prefix'|] eqn:Hp; simpl; [|discriminate].
  intros [= <-]. simpl. by rewrite (visit_expr_idempotent _ _ Hp).
Qed.

Lemma try_map_idempotent {A} (f : A → result A) l :
  Forall (λ x, ∀ y, f x = Ok y → f y = Ok y) l →
  ∀ l', try_map f l = Ok l' → try_map f l' = Ok l'.
Proof.
  induction 1 as [|x l Hx _ IH]; simpl; intros l'.
  - by intros [= <-].
  - destruct (f x) as [y|] eqn:Hy; simpl; [|discriminate].
    destruct (try_map f l) as [ys|] eqn:Hys; simpl; [|discriminate].
    intros [= <-]. simpl. rewrite (Hx _ eq_refl). simpl.
    by rewrite (IH _ eq_refl).
Qed.

Lemma visit_stmt_idempotent s : ∀ s',
  visit_stmt ev s = Ok s' → visit_stmt ev s' = Ok s'.
Proof.
  induction s as [id e|branches IH|stmts IH|id|id|e p|l|l]
    using irt_Stmt_nested_ind; simpl; intros s'; try by intros [= <-].
  - destruct (try_convert_expr ev e _) as [e'|] eqn:He; simpl; [|discriminate].
    intros [= <-]. simpl. by rewrite (try_convert_expr_idempotent _ _ _ He).
  - destruct (try_map _ branches) as [bs|] eqn:Hbs; simpl; [|discriminate].
    intros [= <-]. simpl.
    rewrite (try_map_idempotent (try_map (visit_stmt ev)) branches); [done| |done].
    eapply Forall_impl; [exact IH|]. intros b Hb. by apply try_map_idempotent.
  - destruct (try_map _ stmts) as [ss|] eqn:Hss; simpl; [|discriminate].
    intros [= <-]. simpl. by rewrite (try_map_idempotent _ stmts IH).
  - destruct (try_convert_expr ev e _) as [e'|] eqn:He; simpl; [|discriminate].
    destruct (visit_purpose ev p) as [p'|] eqn:Hp; simpl; [|discriminate].
    intros [= <-]. simpl. rewrite (try_convert_expr_idempotent _ _ _ He).
    simpl. by rewrite (visit_purpose_idempotent _ _ Hp).
Qed.

Lemma visit_program_idempotent prog prog' :
  visit_program ev prog = Ok prog' → visit_program ev prog' = Ok prog'.
Proof.
  unfold visit_program.
  destruct (try_map _ _) as [ss|] eqn:Hss; simpl; [|discriminate].
  intros [= <-]. simpl.
  rewrite (try_map_idempotent (visit_stmt ev) (irt.stmts prog)); [done| |done].
  apply Forall_forall. intros s _. apply visit_stmt_idempotent.
Qed.

End normalizer_props.

(** ** Claims on the evaluator and the normalizer *)

Section evaluator_claims.
Import ConstExprEvaluator ConvertUniversalTypes.

(** C8. The evaluator returns a literal node's own value ([visit_lit]; the
    entry point [eval] hands it on unless it is [None]); it fails with
    [NotConstExprError] on an identifier and on every binary or unary
    operator whose symbol is absent from its rule table; and when the
    evaluation of an operand fails, so does the evaluation of the enclosing
    expression, with [NotConstExprError] when that is the first operand
    failure met from left to right. *)
Theorem evaluator_literals_identifiers_failures :
  (∀ v h, visit (irt.Lit v h) = Ok v) ∧
  (∀ v h, v ≠ VNone → eval (irt.Lit v h) = Ok v) ∧
  (∀ x h, eval (irt.Identifier x h) = Raise NotConstExprError) ∧
  (∀ l op r h, BinOps (irt.sym op) = None →
     eval (irt.BinExpr l op r h) = Raise NotConstExprError) ∧
  (∀ op e h, UnOps (irt.sym op) = None →
     eval (irt.UnExpr op e h) = Raise NotConstExprError) ∧
  (∀ l op r h, ¬ is_Ok (visit l) ∨ ¬ is_Ok (visit r) →
     ¬ is_Ok (eval (irt.BinExpr l op r h))) ∧
  (∀ op e h, ¬ is_Ok (visit e) → ¬ is_Ok (eval (irt.UnExpr op e h))) ∧
  (∀ l op r h, visit l = Raise NotConstExprError →
     eval (irt.BinExpr l op r h) = Raise NotConstExprError) ∧
  (∀ l op r h, is_Ok (visit l) → visit r = Raise NotConstExprError →
     eval (irt.BinExpr l op r h) = Raise NotConstExprError) ∧
  (∀ op e h, visit e = Raise NotConstExprError →
     eval (irt.UnExpr op e h) = Raise NotConstExprError).
Proof.
  repeat split.
  - intros v h Hv. apply eval_Ok. done.
  - intros l op r h Hop. apply eval_Raise. by apply visit_binexpr_absent.
  - intros op e h Hop. apply eval_Raise. by apply visit_unexpr_absent.
  - intros l op r h Hfail [v Hv]. apply eval_Ok in Hv as [Hv _].
    destruct Hfail as [Hl|Hr].
    + destruct (visit l) as [a|x] eqn:El; [apply Hl; by eexists|].
      destruct (visit_binexpr_lhs_fails l op r h x El) as [x' Hx]. congruence.
    + destruct (visit r) as [a|x] eqn:Er; [apply Hr; by eexists|].
      destruct (visit_binexpr_rhs_fails l op r h x Er) as [x' Hx]. congruence.
  - intros op e h He [v Hv]. apply eval_Ok in Hv as [Hv _].
    destruct (visit e) as [a|x] eqn:Ee; [apply He; by eexists|].
    destruct (visit_unexpr_fails op e h x Ee) as [x' Hx]. congruence.
  - intros l op r h Hl. apply eval_Raise. simpl.
    destruct (BinOps _); simpl; [|done]. by rewrite Hl.
  - intros l op r h [a Hl] Hr. apply eval_Raise. simpl.
    destruct (BinOps _); simpl; [|done]. by rewrite Hl, Hr.
  - intros op e h He. apply eval_Raise. simpl.
    destruct (UnOps _); simpl; [|done]. by rewrite He.
Qed.

Lemma evaluator_literals_identifiers_failures_witness :
  eval (irt.Lit (VInt 5) None) = Ok (VInt 5) ∧
  eval (irt.BinExpr (irt.Lit (VInt 1) None) (irt.un_ops ops.DEREF)
          (irt.Lit (VInt 2) None) None) = Raise NotConstExprError ∧
  eval (irt.UnExpr (irt.un_ops ops.ADDRESS) (irt.Lit (VInt 1) None) None)
    = Raise NotConstExprError ∧
  eval (irt.BinExpr (irt.Lit (VInt 1) None) (irt.bin_ops ops.PLUS)
          (irt.Identifier
             {| irt.name := "x"; irt.purpose := None;
                irt.var_type_hint := None |} None) None)
    = Raise NotConstExprError.
Proof.
  destruct evaluator_literals_identifiers_failures
    as (_ & Hlit & _ & Hbin & Hun & _ & _ & _ & Hrhs & _).
  split; [apply Hlit; discriminate|].
  split; [apply Hbin; reflexivity|].
  split; [apply Hun; reflexivity|].
  apply Hrhs; [eexists; reflexivity|reflexivity].
Defined.

End evaluator_claims.

(** ** The state-and-error monad *)

Lemma bind_Ok {A B} (m : M A) (k : A → M B) st b st' :
  (m ≫= k) st = Ok (b, st') ↔
  ∃ a st1, m st = Ok (a, st1) ∧ k a st1 = Ok (b, st').
Proof.
  unfold mbind, M_bind. destruct (m st) as [[a st1]|e]; split.
  - eauto.
  - by intros (? & ? & [= <- <-] & ?).
  - discriminate.
  - by intros (? & ? & ? & ?).
Qed.

Lemma bind_Raise {A B} (m : M A) (k : A → M B) st e :
  m st = Raise e → (m ≫= k) st = Raise e.
Proof. unfold mbind, M_bind. by intros ->. Qed.

Lemma bind_step {A B} (m : M A) (k : A → M B) st a st1 :
  m st = Ok (a, st1) → (m ≫= k) st = k a st1.
Proof. unfold mbind, M_bind. by intros ->. Qed.

Lemma mret_Ok {A} (a b : A) st st' :
  (mret a : M A) st = Ok (b, st') ↔ a = b ∧ st = st'.
Proof. unfold mret, M_ret. split; [by intros [= <- <-]|by intros [<- <-]]. Qed.

Lemma lift_Ok {A} (r : result A) a st st' :
  lift r st = Ok (a, st') ↔ r = Ok a ∧ st = st'.
Proof.
  unfold lift. destruct r; split; try discriminate.
  - by intros [= <- <-].
  - by intros [[= <-] <-].
  - by intros [? _].
Qed.

Lemma try_map_Ok {A B} (f : A → result B) l l' :
  try_map f l = Ok l' ↔ Forall2 (λ x y, f x = Ok y) l l'.
Proof.
  revert l'. induction l as [|x l IH]; simpl; intros l'.
  - split; [intros [= <-]; constructor|by inversion 1].
  - destruct (f x) as [y|e] eqn:Hy; simpl.
    + destruct (try_map f l) as [ys|e] eqn:Hys; simpl.
      * split.
        -- intros [= <-]. constructor; [done|by apply IH].
        -- inversion 1 as [|? y' ? ys' Hy' Hys']; subst.
           apply IH in Hys'. congruence.
      * split; [discriminate|].
        inversion 1 as [|? y' ? ys' Hy' Hys']; subst.
        apply IH in Hys'. discriminate.
    + split; [discriminate|]. inversion 1; congruence.
Qed.

Lemma try_map_Raise {A B} (f : A → result B) l x e :
  x ∈ l → f x = Raise e → ∃ e', try_map f l = Raise e'.
Proof.
  induction 1 as [x l|x y l Hin IH]; simpl; intros Hx.
  - rewrite Hx. simpl. eauto.
  - destruct (f y); simpl; [|eauto].
    destruct (IH Hx) as [e' ->]. simpl. eauto.
Qed.

(** ** Claims on failures of the lowering *)

(** C4.  The rule for a counted loop returns the empty statement list,
    whatever the body of the loop, and raises nothing. *)
Theorem for_loop_lowers_to_empty_list ctx label_decls body st :
  transform_stmt ctx label_decls (lal.ForLoopStmt body) st = Ok ([], st) ∧
  _gen_ir ctx {| lal.f_decls := []; lal.f_subp_stmts := [lal.ForLoopStmt body] |}
    = Ok {| irt.stmts := [] |}.
Proof. split; reflexivity. Qed.

(** C5, as stated, fails on the code: the lowering of the first
    subprogram of the unit succeeds, that of the second one raises, and the
    extraction returns no program at all. *)
Lemma extraction_does_not_continue_counterexample :
  ∃ prog prog',
    _gen_ir examples.ctx examples.named_number_subp = Ok prog ∧
    ConvertUniversalTypes.visit_program examples.std_evaluator prog
      = Ok prog' ∧
    _gen_ir examples.ctx examples.unsupported_subp
      = Raise NotImplementedError ∧
    extract_programs examples.ctx
      [examples.named_number_subp; examples.unsupported_subp]
      = Raise NotImplementedError.
Proof. eexists _, _. repeat split; vm_compute; reflexivity. Qed.

(** C5, amended.  When the lowering of one subprogram of a unit raises,
    the extraction of the unit raises and returns no program, neither for
    that subprogram nor for the others; and every program an extraction
    returns is the whole lowering of its subprogram, normalized. *)
Theorem extract_programs_all_or_nothing ctx subps :
  (∀ subp e, subp ∈ subps → _gen_ir ctx subp = Raise e →
     ∃ e', extract_programs ctx subps = Raise e') ∧
  (∀ progs, extract_programs ctx subps = Ok progs →
     Forall2 (λ subp prog, ∃ lowered,
                _gen_ir ctx subp = Ok lowered ∧
                ConvertUniversalTypes.visit_program (evaluator ctx) lowered
                  = Ok prog)
       subps progs).
Proof.
  unfold extract_programs. split.
  - intros subp e Hin He.
    destruct (try_map_Raise _ _ _ _ Hin He) as [e' ->]. simpl. eauto.
  - intros progs.
    destruct (try_map (_gen_ir ctx) subps) as [lowered|] eqn:Hl; simpl;
      [|discriminate].
    intros Hn. apply try_map_Ok in Hl, Hn.
    revert progs Hn. induction Hl as [|s p ss ps Hs _ IH]; intros progs Hn.
    + inversion Hn. constructor.
    + inversion Hn as [|? q ? qs Hq Hqs]; subst. constructor; eauto.
Qed.

Lemma extract_programs_all_or_nothing_witness :
  ∃ e, extract_programs examples.ctx
         [examples.named_number_subp; examples.unsupported_subp] = Raise e.
Proof.
  destruct (extract_programs_all_or_nothing examples.ctx
              [examples.named_number_subp; examples.unsupported_subp])
    as [Hfail _].
  apply (Hfail examples.unsupported_subp NotImplementedError).
  - apply list_elem_of_In. right. left. reflexivity.
  - vm_compute. reflexivity.
Defined.

(** ** Reasoning about the lowering *)

#[local] Arguments M_bind : simpl never.
#[local] Arguments M_ret : simpl never.
#[local] Arguments lift : simpl never.
#[local] Arguments fresh_name : simpl never.
#[local] Arguments gen_split_stmt_with : simpl never.
#[local] Arguments transform_short_circuit_ops_with : simpl never.
#[local] Arguments transform_operator : simpl never.
#[local] Arguments get_var_decl : simpl never.

(** Inversion of a successful [m ≫= k]. *)
Tactic Notation "bind_inv" hyp(H) "as" simple_intropattern(a) ident(st)
    ident(Ha) :=
  apply bind_Ok in H as (a & st & Ha & H); cbn beta iota in H.

Tactic Notation "ret_inv" hyp(H) :=
  apply mret_Ok in H as [H ?]; simplify_eq.

Lemma lal_Expr_nested_ind (P : lal.Expr → Prop) :
  (∀ e, P e → P (lal.ParenExpr e)) →
  (∀ l op r t, P l → P r → P (lal.BinOp l op r t)) →
  (∀ op e t, P e → P (lal.UnOp op e t)) →
  (∀ c a b t, P c → P a → P b → P (lal.IfExpr c a b t)) →
  (∀ text d t, P (lal.Identifier text (lal.ObjectDecl_ref d) t)) →
  (∀ text ty t, P (lal.Identifier text (lal.EnumLiteralDecl_ref ty) t)) →
  (∀ text e t, P e → P (lal.Identifier text (lal.NumberDecl_ref e) t)) →
  (∀ text r t, P r →
     P (lal.Identifier text (lal.TypeDecl_ref (lal.SignedIntTypeDef r)) t)) →
  (∀ text t, P (lal.Identifier text (lal.TypeDecl_ref lal.OtherTypeDef) t)) →
  (∀ text t, P (lal.Identifier text lal.OtherDecl_ref t)) →
  (∀ tok t, P (lal.IntLiteral tok t)) →
  (∀ t, P (lal.NullLiteral t)) →
  (∀ p t, P p → P (lal.ExplicitDeref p t)) →
  (∀ p a t, P p → P (lal.AttributeRef p a t)) →
  P lal.OthersDesignator →
  (∀ t, P (lal.OtherExpr t)) →
  ∀ e, P e.
Proof.
  intros HP HB HU HI HO HE HN HT HT' HD HL HNu HX HA HOt HOe.
  fix IH 1. intros [e|l op r t|op e t|c a b t|text ref t|tok t|t|p t|p a t| |t].
  - apply HP, IH.
  - apply HB; apply IH.
  - apply HU, IH.
  - apply HI; apply IH.
  - destruct ref as [d|ty|e|[r|]|].
    + apply HO.
    + apply HE.
    + apply HN, IH.
    + apply HT, IH.
    + apply HT'.
    + apply HD.
  - apply HL.
  - apply HNu.
  - apply HX, IH.
  - apply HA, IH.
  - apply HOt.
  - apply HOe.
Qed.

Lemma state_le_refl st : state_le st st.
Proof. by repeat split. Qed.

Lemma state_le_trans st1 st2 st3 :
  state_le st1 st2 → state_le st2 st3 → state_le st1 st3.
Proof.
  intros (Hv & Hl & Hc) (Hv' & Hl' & Hc'). repeat split; [congruence..|].
  intros name. specialize (Hc name). specialize (Hc' name). lia.
Qed.

Lemma fresh_name_spec name st n st' :
  fresh_name name st = Ok (n, st') →
  n = name +:+ pretty (counter st name) ∧
  counter st' name = S (counter st name) ∧
  (∀ other, other ≠ name → counter st' other = counter st other) ∧
  state_le st st'.
Proof.
  unfold fresh_name. intros [= <- <-].
  assert (∀ other,
    counter {| tmp_vars := <[name := S (counter st name)]> (tmp_vars st);
               var_decls := var_decls st;
               loop_stack := loop_stack st |} other =
    if decide (name = other) then S (counter st name) else counter st other)
    as Hc.
  { intros other. unfold counter at 1. simpl. rewrite lookup_insert.
    by case_decide. }
  split; [done|]. split; [by rewrite Hc, decide_True|].
  split; [intros other Hne; by rewrite Hc, decide_False|].
  repeat split. intros other. rewrite Hc. case_decide; subst; lia.
Qed.

Lemma get_var_decl_spec key st var st' :
  get_var_decl key st = Ok (var, st') → st' = st.
Proof.
  unfold get_var_decl. intros H. bind_inv H as s st1 Hs.
  unfold get_state in Hs. injection Hs as <- <-.
  apply lift_Ok in H as [_ <-]. done.
Qed.

Lemma transform_operator_spec op n st o st' :
  transform_operator op n st = Ok (o, st') → st' = st.
Proof. unfold transform_operator. by intros [_ <-]%lift_Ok. Qed.

Section expr_shape.
Context (ctx : ExtractionContext) (Q : irt.Stmt → Prop).
Context (Q_assign : ∀ id e, Q (irt.AssignStmt id e)).
Context (Q_assume : ∀ e p, Q (irt.AssumeStmt e p)).
Context (Q_split2 : ∀ b1 b2,
  Forall Q b1 → Forall Q b2 → Q (irt.SplitStmt [b1; b2])).

Lemma gen_split_stmt_with_shape m then_stmts else_stmts :
  (∀ st pre r st',
     m st = Ok ((pre, r), st') → Forall Q pre ∧ state_le st st') →
  Forall Q then_stmts → Forall Q else_stmts →
  ∀ st out st',
    gen_split_stmt_with m then_stmts else_stmts st = Ok (out, st') →
    Forall Q out ∧ state_le st st'.
Proof.
  intros Hm Ht He st out st' H. unfold gen_split_stmt_with in H.
  bind_inv H as [pre cond] st1 Hc. ret_inv H.
  destruct (Hm _ _ _ _ Hc) as [Hpre Hle].
  split; [|done]. apply Forall_app. split; [done|].
  repeat constructor. apply Q_split2; constructor; auto.
Qed.

Lemma transform_short_circuit_ops_with_shape t and_then ml mr :
  (∀ st pre r st',
     ml st = Ok ((pre, r), st') → Forall Q pre ∧ state_le st st') →
  (∀ st pre r st',
     mr st = Ok ((pre, r), st') → Forall Q pre ∧ state_le st st') →
  ∀ st pre r st',
    transform_short_circuit_ops_with t and_then ml mr st
      = Ok ((pre, r), st') →
    Forall Q pre ∧ state_le st st'.
Proof.
  intros Hl Hr st pre r st' H. unfold transform_short_circuit_ops_with in H.
  bind_inv H as tmp st0 Hf. apply fresh_name_spec in Hf as (_ & _ & _ & Hle0).
  bind_inv H as res_stmts st2 Hs. ret_inv H.
  destruct and_then; bind_inv Hs as inner st1 Hi.
  - apply (gen_split_stmt_with_shape mr) in Hi as [Hq1 Hle1];
      [|done|repeat constructor; done..].
    apply (gen_split_stmt_with_shape ml) in Hs as [Hq2 Hle2];
      [|done|done|repeat constructor; done].
    split; [done|]. eauto using state_le_trans.
  - apply (gen_split_stmt_with_shape mr) in Hi as [Hq1 Hle1];
      [|done|repeat constructor; done..].
    apply (gen_split_stmt_with_shape ml) in Hs as [Hq2 Hle2];
      [|done|repeat constructor; done|done].
    split; [done|]. eauto using state_le_trans.
Qed.

(** The statements that precede a transformed expression are assumptions,
    assignments and two-branch splits of such; transforming an expression
    changes neither the variables nor the loop stack. *)
Lemma transform_expr_shape e :
  ∀ st pre r st',
    transform_expr ctx e st = Ok ((pre, r), st') →
    Forall Q pre ∧ state_le st st'.
Proof.
  induction e as [e IH|l op r t IHl IHr|op e t IH|c a b t IHc IHa IHb
                 |text d t|text ty t|text e t IH|text r t IH|text t|text t
                 |tok t|t|p t IH|p a t IH| |t]
    using lal_Expr_nested_ind; intros st pre res st' H; simpl in H.
  - eauto.
  - assert (∀ st pre res st',
      ('(lhs_pre_stmts, lhs) ← transform_expr ctx l;
       '(rhs_pre_stmts, rhs) ← transform_expr ctx r;
       op' ← transform_operator op 2;
       mret (lhs_pre_stmts ++ rhs_pre_stmts, irt.BinExpr lhs op' rhs t)) st
        = Ok ((pre, res), st') → Forall Q pre ∧ state_le st st') as Hplain.
    { clear H st pre res st'. intros st pre res st' H.
      bind_inv H as [lp lhs] st1 Hl. bind_inv H as [rp rhs] st2 Hr.
      bind_inv H as o st3 Ho. ret_inv H.
      apply transform_operator_spec in Ho as ->.
      destruct (IHl _ _ _ _ Hl), (IHr _ _ _ _ Hr).
      split; [by apply Forall_app|eauto using state_le_trans]. }
    destruct op; try exact (Hplain _ _ _ _ H);
      by apply (transform_short_circuit_ops_with_shape _ _ _ _ IHl IHr) in H.
  - bind_inv H as [ip ie] st1 Hi. bind_inv H as o st2 Ho. ret_inv H.
    apply transform_operator_spec in Ho as ->. eauto.
  - bind_inv H as name st0 Hf.
    apply fresh_name_spec in Hf as (_ & _ & _ & Hle0).
    bind_inv H as [tp te] st1 Ht. bind_inv H as [ep ee] st2 He.
    bind_inv H as split st3 Hs. ret_inv H.
    destruct (IHa _ _ _ _ Ht), (IHb _ _ _ _ He).
    apply (gen_split_stmt_with_shape _ _ _ IHc) in Hs as [? ?].
    + split; [done|]. eauto using state_le_trans.
    + apply Forall_app. split; [done|]. repeat constructor. done.
    + apply Forall_app. split; [done|]. repeat constructor. done.
  - bind_inv H as s st1 Hg. injection Hg as <- <-.
    bind_inv H as var st2 Hv. ret_inv H.
    apply lift_Ok in Hv as [_ <-]. split; [constructor|apply state_le_refl].
  - ret_inv H. split; [constructor|apply state_le_refl].
  - eauto.
  - eauto.
  - discriminate.
  - discriminate.
  - bind_inv H as z st1 Hz. ret_inv H. apply lift_Ok in Hz as [_ <-].
    split; [constructor|apply state_le_refl].
  - ret_inv H. split; [constructor|apply state_le_refl].
  - bind_inv H as [pp pe] st1 Hp. ret_inv H. destruct (IH _ _ _ _ Hp).
    split; [|done]. apply Forall_app. split; [done|]. repeat constructor. done.
  - bind_inv H as [pp pe] st1 Hp. bind_inv H as o st2 Ho. ret_inv H.
    apply lift_Ok in Ho as [_ <-]. eauto.
  - discriminate.
  - discriminate.
Qed.

Lemma gen_split_stmt_shape cond then_stmts else_stmts :
  Forall Q then_stmts → Forall Q else_stmts →
  ∀ st out st',
    gen_split_stmt ctx cond then_stmts else_stmts st = Ok (out, st') →
    Forall Q out ∧ state_le st st'.
Proof.
  apply gen_split_stmt_with_shape. apply transform_expr_shape.
Qed.

End expr_shape.

Lemma lal_Stmt_nested_ind (P : lal.Stmt → Prop) :
  (∀ d e, P (lal.AssignStmt d e)) →
  (∀ c t e, Forall P t → Forall P e → P (lal.IfStmt c t e)) →
  (∀ c alts, Forall (λ alt, Forall P (lal.f_stmts alt)) alts →
     P (lal.CaseStmt c alts)) →
  (∀ n ss, Forall P ss → P (lal.LoopStmt n ss)) →
  (∀ n c ss, Forall P ss → P (lal.WhileLoopStmt n c ss)) →
  (∀ ss, P (lal.ForLoopStmt ss)) →
  (∀ d, P (lal.Label d)) →
  (∀ d, P (lal.GotoStmt d)) →
  (∀ s, P s → P (lal.NamedStmt s)) →
  (∀ n c, P (lal.ExitStmt n c)) →
  (∀ ss, P (lal.ExceptionHandler ss)) →
  P lal.OtherStmt →
  ∀ s, P s.
Proof.
  intros HA HI HC HL HW HF HLb HG HN HE HX HO.
  fix IH 1. intros [d e|c t e|c alts|n ss|n c ss|ss|d|d|s|n c|ss| ].
  - apply HA.
  - apply HI.
    + revert t. fix IHt 1. intros [|s t]; constructor; [apply IH|apply IHt].
    + revert e. fix IHe 1. intros [|s e]; constructor; [apply IH|apply IHe].
  - apply HC. revert alts. fix IHalts 1. intros [|[choices ss] alts];
      constructor; [|apply IHalts].
    simpl. revert ss. fix IHss 1. intros [|s ss]; constructor;
      [apply IH|apply IHss].
  - apply HL. revert ss. fix IHss 1. intros [|s ss]; constructor;
      [apply IH|apply IHss].
  - apply HW. revert ss. fix IHss 1. intros [|s ss]; constructor;
      [apply IH|apply IHss].
  - apply HF.
  - apply HLb.
  - apply HG.
  - apply HN, IH.
  - apply HE.
  - apply HX.
  - apply HO.
Qed.

Lemma for_each_state_le {A B} (f : A → M B) l :
  (∀ x st y st', f x st = Ok (y, st') → state_le st st') →
  ∀ st ys st', for_each f l st = Ok (ys, st') →
    state_le st st' ∧ length ys = length l.
Proof.
  intros Hf. induction l as [|x l IH]; simpl; intros st ys st' H.
  - ret_inv H. split; [apply state_le_refl|done].
  - bind_inv H as y st1 Hy. bind_inv H as ys' st2 Hys. ret_inv H.
    destruct (IH _ _ _ Hys). split; [|simpl; congruence].
    eauto using state_le_trans.
Qed.

Lemma eval_choice_state_le ctx choice st v st' :
  eval_choice ctx choice st = Ok (v, st') → state_le st st'.
Proof.
  unfold eval_choice. intros H. bind_inv H as [pre e] st1 He.
  apply lift_Ok in H as [_ <-].
  by apply (transform_expr_shape ctx (λ _, True)) in He as [_ ?].
Qed.

(** What [case_split] returns when it returns: one branch per entry of
    [case_alts], in order, then one per entry of
    [others_potential_stmts]; there is at least one of the former. *)
Lemma case_split_Ok ctx case_expr case_alts others split :
  case_split ctx case_expr case_alts others = Ok split →
  ∃ conds disjunction,
    Forall2 (λ alt cond, gen_case_condition ctx case_expr alt.1 = Ok cond)
      case_alts conds ∧
    reduce (binexpr_builder (irt.bin_ops ops.OR) (evaluator_bool ctx)) conds
      = Ok disjunction ∧
    split = irt.SplitStmt
      (zip_with (λ cond alt, irt.AssumeStmt cond None :: alt.2)
         conds case_alts ++
       map (λ others_stmts,
              irt.AssumeStmt
                (irt.UnExpr (irt.un_ops ops.NOT) disjunction
                   (evaluator_bool ctx)) None :: others_stmts) others).
Proof.
  unfold case_split.
  destruct (try_map _ case_alts) as [conds|] eqn:Hc; simpl; [|discriminate].
  destruct (reduce _ conds) as [d|] eqn:Hd; simpl; [|discriminate].
  intros [= <-]. exists conds, d. split; [by apply try_map_Ok|done].
Qed.

Lemma case_alts_with_only_others ctx ts alts st :
  forallb (is_others) alts = true →
  case_alts_with ctx ts alts st = Ok ([], st).
Proof.
  induction alts as [|[choices ss] alts IH]; simpl; [done|].
  unfold is_others at 1. simpl. intros [Ho Hr]%andb_prop.
  rewrite Ho. by apply IH.
Qed.

Lemma _gen_ir_Ok ctx subp prog :
  _gen_ir ctx subp = Ok prog ↔
  ∃ decls st1 stmts st2,
    transform_decls ctx (lal.f_decls subp) initial_state = Ok (decls, st1) ∧
    transform_stmts ctx
      (flat_map lal.findall_LabelDecl (lal.f_subp_stmts subp))
      (lal.f_subp_stmts subp) st1 = Ok (stmts, st2) ∧
    prog = {| irt.stmts := decls ++ stmts |}.
Proof.
  unfold _gen_ir, mbind, M_bind, mret, M_ret.
  destruct (transform_decls _ _ _) as [[decls st1]|e].
  - destruct (transform_stmts _ _ _ _) as [[stmts st2]|e'] eqn:Hs.
    + split.
      * intros [= <-]. by exists decls, st1, stmts, st2.
      * intros (? & ? & ? & ? & [= <- <-] & Hs' & ->).
        rewrite Hs in Hs'. by injection Hs' as <- <-.
    + split; [discriminate|].
      intros (? & ? & ? & ? & [= <- <-] & Hs' & _). congruence.
  - split; [discriminate|]. by intros (? & ? & ? & ? & ? & _).
Qed.

Section stmt_shape.
Context (ctx : ExtractionContext) (label_decls : list lal_node.LabelDecl).
Context (Q : irt.Stmt → Prop).
Context (Q_assign : ∀ id e, Q (irt.AssignStmt id e)).
Context (Q_assume : ∀ e p, Q (irt.AssumeStmt e p)).
Context (Q_read : ∀ id, Q (irt.ReadStmt id)).
Context (Q_goto : ∀ l, Q (irt.GotoStmt l)).
Context (Q_label : ∀ l, Q (irt.LabelStmt l)).
Context (Q_loop : ∀ stmts, Forall Q stmts → Q (irt.LoopStmt stmts)).
Context (Q_split : ∀ branches,
  (1 ≤ length branches)%nat → Forall (Forall Q) branches →
  Q (irt.SplitStmt branches)).

Lemma Q_split2 b1 b2 :
  Forall Q b1 → Forall Q b2 → Q (irt.SplitStmt [b1; b2]).
Proof. intros. apply Q_split; [simpl; lia|by repeat constructor]. Qed.

Lemma transform_stmts_with_shape f ss :
  Forall (λ s, ∀ st out st',
            f s st = Ok (out, st') → Forall Q out ∧ state_le st st') ss →
  ∀ st out st',
    transform_stmts_with f ss st = Ok (out, st') →
    Forall Q out ∧ state_le st st'.
Proof.
  induction 1 as [|s ss Hs _ IH]; simpl; intros st out st' H.
  - ret_inv H. split; [constructor|apply state_le_refl].
  - bind_inv H as o st1 Ho. bind_inv H as os st2 Hos. ret_inv H.
    destruct (Hs _ _ _ Ho), (IH _ _ _ Hos).
    split; [by apply Forall_app|eauto using state_le_trans].
Qed.

Lemma case_alts_with_shape ts alts :
  Forall (λ alt, ∀ st out st',
            ts (lal.f_stmts alt) st = Ok (out, st') →
            Forall Q out ∧ state_le st st') alts →
  ∀ st r st',
    case_alts_with ctx ts alts st = Ok (r, st') →
    Forall (λ ca, Forall Q ca.2) r ∧ state_le st st' ∧
    length r = length (List.filter (λ alt, negb (is_others alt)) alts).
Proof.
  induction 1 as [|[choices ss] alts Ha _ IH]; simpl; intros st r st' H.
  - ret_inv H. split; [constructor|]. split; [apply state_le_refl|done].
  - unfold is_others at 1. simpl in *.
    destruct (existsb _ choices) eqn:Ho; simpl.
    + eauto.
    + bind_inv H as values st1 Hv. bind_inv H as out st2 Hout.
      bind_inv H as rest st3 Hrest. ret_inv H.
      apply (for_each_state_le _ _ (eval_choice_state_le ctx)) in Hv as [Hv _].
      destruct (Ha _ _ _ Hout), (IH _ _ _ Hrest) as (? & ? & ?).
      split; [by constructor|]. split; [|simpl; congruence].
      eauto using state_le_trans.
Qed.

Lemma others_potential_stmts_with_shape ts alts :
  Forall (λ alt, ∀ st out st',
            ts (lal.f_stmts alt) st = Ok (out, st') →
            Forall Q out ∧ state_le st st') alts →
  ∀ st r st',
    others_potential_stmts_with ts alts st = Ok (r, st') →
    Forall (Forall Q) r ∧ state_le st st' ∧
    length r = length (List.filter is_others alts).
Proof.
  induction 1 as [|[choices ss] alts Ha _ IH]; simpl; intros st r st' H.
  - ret_inv H. split; [constructor|]. split; [apply state_le_refl|done].
  - unfold is_others at 1. simpl in *.
    destruct (existsb _ choices) eqn:Ho; simpl.
    + bind_inv H as out st2 Hout. bind_inv H as rest st3 Hrest. ret_inv H.
      destruct (Ha _ _ _ Hout), (IH _ _ _ Hrest) as (? & ? & ?).
      split; [by constructor|]. split; [|simpl; congruence].
      eauto using state_le_trans.
    + eauto.
Qed.

Lemma case_split_shape case_expr case_alts others split :
  Forall (λ ca, Forall Q ca.2) case_alts →
  Forall (Forall Q) others →
  case_split ctx case_expr case_alts others = Ok split →
  ∃ branches,
    split = irt.SplitStmt branches ∧
    length branches = (length case_alts + length others)%nat ∧
    Q split.
Proof.
  intros Hca Ho (conds & d & Hconds & Hd & ->)%case_split_Ok.
  eexists. split; [done|].
  pose proof (Forall2_length _ _ _ Hconds) as Hlen.
  assert (length (zip_with (λ cond alt, irt.AssumeStmt cond None :: alt.2)
                    conds case_alts) = length case_alts) as Hzl.
  { rewrite length_zip_with. lia. }
  split; [by rewrite length_app, Hzl, length_map|].
  apply Q_split.
  - rewrite length_app, Hzl. destruct conds; [discriminate|].
    destruct case_alts; simpl in *; [discriminate|lia].
  - apply Forall_app. split.
    + clear Hzl Hlen Hd. induction Hconds as [|ca c cas cs _ _ IH]; simpl;
        [constructor|].
      inversion Hca; subst. constructor; [by constructor|by apply IH].
    + apply Forall_map. eapply Forall_impl; [exact Ho|].
      intros b Hb. simpl. by constructor.
Qed.

Lemma loop_stack_append_pop entry st st1 st2 st3 :
  loop_stack_append entry st = Ok (tt, st1) →
  state_le st1 st2 →
  loop_stack_pop st2 = Ok (tt, st3) →
  state_le st st3.
Proof.
  unfold loop_stack_append, loop_stack_pop.
  intros [= <-] (Hv & Hl & Hc). simpl in *.
  rewrite Hl. destruct (loop_stack st ++ [entry]) eqn:E;
    [by destruct (loop_stack st)|].
  rewrite <- E. intros [= <-]. repeat split; simpl; [done| |done].
  by rewrite removelast_last.
Qed.

(** Every statement the lowering emits is an assignment, an assumption, a
    goto, a label, a loop or a split with at least one branch; once a
    statement is transformed the loop stack is as it was before. *)
Lemma transform_stmt_shape s :
  ∀ st out st',
    transform_stmt ctx label_decls s st = Ok (out, st') →
    Forall Q out ∧ state_le st st'.
Proof.
  pose proof Q_split2 as Q2.
  induction s as [d e|c t e IHt IHe|c alts IH|n ss IH|n c ss IH|ss|d|d|s IH
                 |n c|ss| ] using lal_Stmt_nested_ind;
    intros st out st' H; simpl in H.
  - bind_inv H as [pre r] st1 He. bind_inv H as var st2 Hv. ret_inv H.
    apply get_var_decl_spec in Hv as ->.
    apply (transform_expr_shape ctx Q) in He as [? ?]; try done.
    split; [|done]. apply Forall_app. split; [done|by repeat constructor].
  - bind_inv H as ts st1 Ht. bind_inv H as es st2 He.
    apply (transform_stmts_with_shape _ _ IHt) in Ht as [? ?].
    apply (transform_stmts_with_shape _ _ IHe) in He as [? ?].
    apply (gen_split_stmt_shape ctx Q) in H as [? ?]; try done.
    split; [done|]. eauto using state_le_trans.
  - bind_inv H as [pre e] st1 He. bind_inv H as cas st2 Hcas.
    bind_inv H as others st3 Hothers. bind_inv H as split st4 Hsplit.
    ret_inv H. apply lift_Ok in Hsplit as [Hsplit <-].
    apply (transform_expr_shape ctx Q) in He as [? ?]; try done.
    assert (Forall (λ alt, ∀ st out st',
              transform_stmts_with (transform_stmt ctx label_decls)
                (lal.f_stmts alt) st = Ok (out, st') →
              Forall Q out ∧ state_le st st') alts) as IH'.
    { eapply Forall_impl; [exact IH|]. intros alt Halt.
      by apply transform_stmts_with_shape. }
    apply (case_alts_with_shape _ _ IH') in Hcas as (? & ? & _).
    apply (others_potential_stmts_with_shape _ _ IH') in Hothers as (? & ? & _).
    apply case_split_shape in Hsplit as (bs & -> & _ & ?); try done.
    split; [|eauto using state_le_trans].
    apply Forall_app. split; [done|by repeat constructor].
  - bind_inv H as name st1 Hn. bind_inv H as [] st2 Ha.
    bind_inv H as body st3 Hb. bind_inv H as [] st4 Hp. ret_inv H.
    apply fresh_name_spec in Hn as (_ & _ & _ & ?).
    apply (transform_stmts_with_shape _ _ IH) in Hb as [? ?].
    pose proof (loop_stack_append_pop _ _ _ _ _ Ha ltac:(done) Hp).
    split; [|eauto using state_le_trans].
    repeat constructor; auto.
  - bind_inv H as [pre cond] st0 Hc.
    bind_inv H as name st1 Hn. bind_inv H as [] st2 Ha.
    bind_inv H as body st3 Hb. bind_inv H as [] st4 Hp. ret_inv H.
    apply (transform_expr_shape ctx Q) in Hc as [? ?]; try done.
    apply fresh_name_spec in Hn as (_ & _ & _ & ?).
    apply (transform_stmts_with_shape _ _ IH) in Hb as [? ?].
    pose proof (loop_stack_append_pop _ _ _ _ _ Ha ltac:(done) Hp).
    split; [|eauto using state_le_trans].
    repeat constructor; auto. apply Q_loop.
    apply Forall_app. split; [done|]. by constructor.
  - ret_inv H. split; [constructor|apply state_le_refl].
  - bind_inv H as l st1 Hl. ret_inv H. apply lift_Ok in Hl as [_ <-].
    split; [by repeat constructor|apply state_le_refl].
  - bind_inv H as l st1 Hl. ret_inv H. apply lift_Ok in Hl as [_ <-].
    split; [by repeat constructor|apply state_le_refl].
  - eauto.
  - bind_inv H as loop st1 Hl.
    assert (st1 = st) as ->.
    { destruct n; simpl in Hl.
      - unfold loop_stack_find in Hl. bind_inv Hl as s st2 Hg.
        injection Hg as <- <-. destruct (filter _ _); [discriminate|].
        by ret_inv Hl.
      - unfold loop_stack_top in Hl. bind_inv Hl as s st2 Hg.
        injection Hg as <- <-. destruct (last _); [|discriminate].
        by ret_inv Hl. }
    destruct c as [cond|].
    + apply (gen_split_stmt_shape ctx Q) in H; try done.
      by repeat constructor.
    + ret_inv H. split; [by repeat constructor|apply state_le_refl].
  - ret_inv H. split; [constructor|apply state_le_refl].
  - discriminate.
Qed.

Lemma transform_stmts_shape ss :
  ∀ st out st',
    transform_stmts ctx label_decls ss st = Ok (out, st') →
    Forall Q out ∧ state_le st st'.
Proof.
  apply transform_stmts_with_shape, Forall_forall.
  intros s _. apply transform_stmt_shape.
Qed.

Lemma transform_decl_shape decl :
  ∀ st out st',
    transform_decl ctx decl st = Ok (out, st') → Forall Q out.
Proof.
  pose proof Q_split2 as Q2.
  destruct decl as [| |node ids tdecl [dflt|]|]; simpl; intros st out st' H.
  - by ret_inv H.
  - by ret_inv H.
  - bind_inv H as us st1 Hu. bind_inv H as [pre e] st2 He.
    bind_inv H as assigns st3 Ha. ret_inv H.
    apply (transform_expr_shape ctx Q) in He as [? _]; try done.
    apply Forall_app. split; [done|].
    clear Hu. revert st2 assigns st' Ha.
    induction ids as [|text ids IH]; simpl; intros st2 assigns st' Ha.
    + by ret_inv Ha.
    + bind_inv Ha as y st4 Hy. bind_inv Ha as ys st5 Hys. ret_inv Ha.
      bind_inv Hy as var st6 Hvar. ret_inv Hy. constructor; eauto.
  - bind_inv H as us st1 Hu. clear Hu. revert st1 out st' H.
    induction ids as [|text ids IH]; simpl; intros st1 out st' H.
    + by ret_inv H.
    + bind_inv H as y st4 Hy. bind_inv H as ys st5 Hys. ret_inv H.
      bind_inv Hy as var st6 Hvar. ret_inv Hy. constructor; eauto.
  - discriminate.
Qed.

Lemma transform_decls_shape decls :
  ∀ st out st',
    transform_decls ctx decls st = Ok (out, st') → Forall Q out.
Proof.
  unfold transform_decls. intros st out st' H.
  bind_inv H as outs st1 Ho. ret_inv H. revert st outs st' Ho.
  induction decls as [|d ds IH]; simpl; intros st outs st' Ho.
  - ret_inv Ho. constructor.
  - bind_inv Ho as y st2 Hy. bind_inv Ho as ys st3 Hys. ret_inv Ho.
    simpl. apply Forall_app. split; [by eapply transform_decl_shape|eauto].
Qed.

End stmt_shape.

Lemma _gen_ir_shape ctx (Q : irt.Stmt → Prop) subp prog :
  (∀ id e, Q (irt.AssignStmt id e)) →
  (∀ e p, Q (irt.AssumeStmt e p)) →
  (∀ id, Q (irt.ReadStmt id)) →
  (∀ l, Q (irt.GotoStmt l)) →
  (∀ l, Q (irt.LabelStmt l)) →
  (∀ stmts, Forall Q stmts → Q (irt.LoopStmt stmts)) →
  (∀ branches, (1 ≤ length branches)%nat → Forall (Forall Q) branches →
     Q (irt.SplitStmt branches)) →
  _gen_ir ctx subp = Ok prog → Forall Q (irt.stmts prog).
Proof.
  intros ? ? ? ? ? ? ? H.
  apply _gen_ir_Ok in H as (decls & st1 & stmts & st2 & Hd & Hs & ->).
  simpl. apply Forall_app. split.
  - by eapply transform_decls_shape.
  - by eapply transform_stmts_shape in Hs as [? _].
Qed.

(** ** Claims on case statements and splits *)

Lemma transform_stmts_with_raises f before s after :
  (∀ st, ∃ e, f s st = Raise e) →
  ∀ st, ∃ e, transform_stmts_with f (before ++ s :: after) st = Raise e.
Proof.
  intros Hs. induction before as [|b before IH]; simpl; intros st.
  - destruct (Hs st) as [e He]. exists e. by apply bind_Raise.
  - unfold mbind at 1, M_bind at 1. destruct (f b st) as [[out st1]|e];
      [|eauto].
    destruct (IH st1) as [e He]. exists e. by apply bind_Raise.
Qed.

(** C10.  A case statement all of whose alternatives are [others] ones (so
    one whose only alternative is [others]) is not lowered: folding the
    disjunction over the empty list of conditions raises [TypeError], unless
    the selector or the statements of an alternative raised before; no
    program is returned for a subprogram with such a statement. *)
Theorem case_with_only_others_fails ctx label_decls sel alts :
  forallb is_others alts = true →
  (∀ st, ∃ e,
     transform_stmt ctx label_decls (lal.CaseStmt sel alts) st = Raise e) ∧
  (∀ st pre case_expr st1 others st2,
     transform_expr ctx sel st = Ok ((pre, case_expr), st1) →
     others_potential_stmts_with (transform_stmts ctx label_decls) alts st1
       = Ok (others, st2) →
     transform_stmt ctx label_decls (lal.CaseStmt sel alts) st
       = Raise TypeError) ∧
  (∀ decls before after, ∃ e,
     _gen_ir ctx {| lal.f_decls := decls;
                    lal.f_subp_stmts :=
                      before ++ lal.CaseStmt sel alts :: after |}
       = Raise e).
Proof.
  intros Hothers.
  assert (∀ lbls st pre case_expr st1 others st2,
     transform_expr ctx sel st = Ok ((pre, case_expr), st1) →
     others_potential_stmts_with (transform_stmts ctx lbls) alts st1
       = Ok (others, st2) →
     transform_stmt ctx lbls (lal.CaseStmt sel alts) st = Raise TypeError)
    as Hprecise.
  { intros lbls st pre case_expr st1 others st2 He Ho. simpl.
    rewrite (bind_step _ _ _ _ _ He). cbn beta iota.
    rewrite (bind_step _ _ _ _ _ (case_alts_with_only_others _ _ _ _ Hothers)).
    fold (transform_stmts ctx lbls). rewrite (bind_step _ _ _ _ _ Ho).
    apply bind_Raise. reflexivity. }
  assert (∀ lbls st, ∃ e,
     transform_stmt ctx lbls (lal.CaseStmt sel alts) st = Raise e) as Hfails.
  { intros lbls st.
    destruct (transform_expr ctx sel st) as [[[pre e] st1]|err] eqn:He.
    - destruct (others_potential_stmts_with (transform_stmts ctx lbls)
                  alts st1) as [[others st2]|err] eqn:Ho.
      + exists TypeError. eauto.
      + exists err. simpl. rewrite (bind_step _ _ _ _ _ He). cbn beta iota.
        rewrite (bind_step _ _ _ _ _
                   (case_alts_with_only_others _ _ _ _ Hothers)).
        by apply bind_Raise.
    - exists err. simpl. by apply bind_Raise. }
  split; [apply Hfails|]. split; [apply Hprecise|].
  intros decls before after. unfold _gen_ir. simpl.
  unfold mbind at 1, M_bind at 1.
  destruct (transform_decls ctx decls initial_state) as [[out st1]|e];
    [|eauto].
  edestruct (transform_stmts_with_raises
               (transform_stmt ctx
                  (flat_map lal.findall_LabelDecl
                     (before ++ lal.CaseStmt sel alts :: after)))
               before (lal.CaseStmt sel alts) after) as [e He];
    [apply Hfails|].
  exists e. unfold transform_stmts. rewrite (bind_Raise _ _ _ _ He). done.
Qed.

Lemma case_with_only_others_fails_witness :
  transform_stmt examples.ctx []
    (lal.CaseStmt examples.X
       [lal.Alternative [lal.OthersDesignator]
          [lal.AssignStmt examples.X_dest (examples.int_literal "0")]])
    examples.X_declared
  = Raise TypeError.
Proof.
  destruct (case_with_only_others_fails examples.ctx [] examples.X
              [lal.Alternative [lal.OthersDesignator]
                 [lal.AssignStmt examples.X_dest (examples.int_literal "0")]]
              eq_refl) as (_ & Hprecise & _).
  eapply Hprecise; vm_compute; reflexivity.
Defined.

Lemma split_counts_Forall ok stmts :
  forallb (observe.split_counts ok) stmts = true ↔
  Forall (λ s, observe.split_counts ok s = true) stmts.
Proof.
  rewrite forallb_forall, Forall_forall.
  split; intros H x Hx; apply H; by apply list_elem_of_In.
Qed.

(** *** The guards of a case statement *)





Lemma for_each_eval_choice ctx choices :
  ∀ st values st',
    for_each (eval_choice ctx) choices st = Ok (values, st') →
    Forall2 (λ choice v, ∃ sta p e stb,
        transform_expr ctx choice sta = Ok ((p, e), stb) ∧
        ConstExprEvaluator.eval e = Ok v) choices values.
Proof.
  induction choices as [|c choices IH]; simpl; intros st values st' H.
  - ret_inv H. constructor.
  - bind_inv H as v st1 Hv. bind_inv H as vs st2 Hvs. ret_inv H.
    constructor; [|eauto]. unfold eval_choice in Hv.
    bind_inv Hv as [p e] st3 He. apply lift_Ok in Hv as [Hv _].
    by exists st, p, e, st3.
Qed.

Lemma case_alts_with_Forall2 ctx ts alts :
  ∀ st case_alts st',
    case_alts_with ctx ts alts st = Ok (case_alts, st') →
    Forall2 (λ alt ca,
        Forall2 (λ choice v, ∃ sta p e stb,
            transform_expr ctx choice sta = Ok ((p, e), stb) ∧
            ConstExprEvaluator.eval e = Ok v)
          (lal.f_choices alt) ca.1 ∧
        ∃ sta stb, ts (lal.f_stmts alt) sta = Ok (ca.2, stb))
      (List.filter (λ alt, negb (is_others alt)) alts) case_alts.
Proof.
  induction alts as [|[choices ss] alts IH]; simpl; intros st cas st' H.
  - ret_inv H. constructor.
  - unfold is_others at 1. simpl.
    destruct (existsb _ choices) eqn:Ho; simpl; [eauto|].
    bind_inv H as values st1 Hv. bind_inv H as out st2 Hout.
    bind_inv H as rest st3 Hrest. ret_inv H.
    constructor; [|eauto]. simpl. split; [by eapply for_each_eval_choice|].
    eauto.
Qed.





(** The scenario of the specification: the guards of
    [case X is when 1 => ..; when 2 | 3 => ..; when others => ..] are
    [X = 1], [X = 2 or X = 3] and [not (X = 1 or (X = 2 or X = 3))]. *)
Lemma case_scenario_guards :
  let X := irt.Identifier
             {| irt.name := "X"; irt.purpose := None;
                irt.var_type_hint := Some Std_Integer |}
             (Some Std_Integer) in
  let eq n := irt.BinExpr X (irt.bin_ops ops.EQ)
                (irt.Lit (VInt n) (Some Std_Integer)) (Some Std_Boolean) in
  let or a b := irt.BinExpr a (irt.bin_ops ops.OR) b (Some Std_Boolean) in
  ∃ a b c st',
    transform_stmt examples.ctx [] examples.case_scenario examples.X_declared
    = Ok ([irt.SplitStmt
             [irt.AssumeStmt (eq 1) None :: a;
              irt.AssumeStmt (or (eq 2) (eq 3)) None :: b;
              irt.AssumeStmt
                (irt.UnExpr (irt.un_ops ops.NOT)
                   (or (eq 1) (or (eq 2) (eq 3))) (Some Std_Boolean))
                None :: c]], st').
Proof. eexists _, _, _, _. vm_compute. reflexivity. Qed.

(** ** Labels and gotos *)

Lemma label_of_decl_inj d d' : label_of_decl d = label_of_decl d' → d = d'.
Proof. by intros [= ? ?]. Qed.

Lemma exit_label_inj base n base' n' :
  base ∈ ["exit_loop"; "exit_while_loop"] →
  base' ∈ ["exit_loop"; "exit_while_loop"] →
  exit_label base n = exit_label base' n' → base = base' ∧ n = n'.
Proof.
  unfold exit_label. intros Hb Hb' [= Heq].
  apply list_elem_of_In in Hb, Hb'. simpl in Hb, Hb'.
  destruct Hb as [<-|[<-|[]]], Hb' as [<-|[<-|[]]].
  - split; [done|]. by apply String.app_inj, pretty_nat_inj in Heq.
  - simpl in Heq. discriminate.
  - simpl in Heq. discriminate.
  - split; [done|]. by apply String.app_inj, pretty_nat_inj in Heq.
Qed.

Lemma exit_label_between_orig st st' l :
  exit_label_between st st' l → irt.orig_node l = None.
Proof. by intros (base & n & _ & -> & _). Qed.

Lemma exit_label_between_weaken st0 st st' st1 l :
  state_le st0 st → state_le st' st1 →
  exit_label_between st st' l → exit_label_between st0 st1 l.
Proof.
  intros (_ & _ & H0) (_ & _ & H1) (base & n & Hb & -> & Hn).
  exists base, n. split; [done|]. split; [done|].
  specialize (H0 base). specialize (H1 base). lia.
Qed.

Lemma exit_label_between_disjoint st st1 st2 l :
  exit_label_between st st1 l → exit_label_between st1 st2 l → False.
Proof.
  intros (base & n & Hb & -> & Hn) (base' & n' & Hb' & Heq & Hn').
  apply exit_label_inj in Heq as [<- <-]; [lia|done..].
Qed.

Lemma count_occ_pos_elem_of {A} (dec : ∀ x y : A, {x = y} + {x ≠ y}) l x :
  (0 < count_occ dec l x)%nat ↔ x ∈ l.
Proof. rewrite list_elem_of_In. symmetry. apply count_occ_In. Qed.

Lemma count_occ_zero_not_elem_of {A} (dec : ∀ x y : A, {x = y} + {x ≠ y})
    l x :
  x ∉ l → count_occ dec l x = 0%nat.
Proof. rewrite list_elem_of_In. apply count_occ_not_In. Qed.

Lemma labels_inv_nil st : labels_inv [] [] st [] [] st.
Proof.
  split; [apply state_le_refl|]. split; [done|].
  split; [by intros l Hl%elem_of_nil|]. split; [simpl; lia|].
  by intros g Hg%elem_of_nil.
Qed.

Lemma labels_inv_app rl1 rg1 rl2 rg2 st st1 st2 L1 G1 L2 G2 :
  labels_inv rl1 rg1 st L1 G1 st1 →
  labels_inv rl2 rg2 st1 L2 G2 st2 →
  labels_inv (rl1 ++ rl2) (rg1 ++ rg2) st (L1 ++ L2) (G1 ++ G2) st2.
Proof.
  intros (Hle1 & Ha1 & Hb1 & Hc1 & Hd1) (Hle2 & Ha2 & Hb2 & Hc2 & Hd2).
  split; [eauto using state_le_trans|]. split; [|split; [|split]].
  - intros d. by rewrite !count_occ_app, Ha1, Ha2.
  - intros l [Hl|Hl]%elem_of_app.
    + destruct (Hb1 l Hl) as [?|?]; [by left|right].
      eauto using exit_label_between_weaken, state_le_refl.
    + destruct (Hb2 l Hl) as [?|?]; [by left|right].
      eauto using exit_label_between_weaken, state_le_refl.
  - intros l Hl. rewrite count_occ_app.
    specialize (Hc1 l Hl). specialize (Hc2 l Hl).
    destruct (decide (l ∈ L1)) as [H1|H1], (decide (l ∈ L2)) as [H2|H2].
    + exfalso. destruct (Hb1 l H1) as [[d ->]|E1]; [done|].
      destruct (Hb2 l H2) as [[d ->]|E2]; [done|].
      eauto using exit_label_between_disjoint.
    + rewrite (count_occ_zero_not_elem_of _ L2) by done. lia.
    + rewrite (count_occ_zero_not_elem_of _ L1) by done. lia.
    + rewrite (count_occ_zero_not_elem_of _ L1) by done. lia.
  - intros g [Hg|Hg]%elem_of_app.
    + destruct (Hd1 g Hg) as [(d & -> & Hd)|[?|?]].
      * left. exists d. split; [done|]. apply elem_of_app. by left.
      * by right; left.
      * right; right. apply elem_of_app. by left.
    + destruct (Hd2 g Hg) as [(d & -> & Hd)|[?|?]].
      * left. exists d. split; [done|]. apply elem_of_app. by right.
      * right; left. destruct Hle1 as (_ & <- & _). done.
      * right; right. apply elem_of_app. by right.
Qed.

Lemma labels_inv_weaken st0 st st' st1 rl rg L G :
  state_le st0 st → state_le st' st1 →
  labels_inv rl rg st L G st' → labels_inv rl rg st0 L G st1.
Proof.
  intros H0 H1 (Hle & Ha & Hb & Hc & Hd).
  split; [eauto using state_le_trans|]. split; [done|].
  split; [|split; [done|]].
  - intros l Hl. destruct (Hb l Hl) as [?|?]; [by left|right].
    eauto using exit_label_between_weaken.
  - intros g Hg. destruct (Hd g Hg) as [?|[?|?]]; [by left| |by right; right].
    right; left. destruct H0 as (_ & <- & _). done.
Qed.

Lemma labels_inv_source rl rg rl' rg' st L G st' :
  (∀ d, count_occ lal_node.LabelDecl_eq_dec rl d
        = count_occ lal_node.LabelDecl_eq_dec rl' d) →
  (∀ d, d ∈ rg → d ∈ rg') →
  labels_inv rl rg st L G st' → labels_inv rl' rg' st L G st'.
Proof.
  intros Hrl Hrg (Hle & Ha & Hb & Hc & Hd).
  split; [done|]. split; [intros d; by rewrite Ha|].
  split; [done|]. split; [done|].
  intros g Hg. destruct (Hd g Hg) as [(d & -> & ?)|?]; [|by right].
  left. eauto.
Qed.

(** A piece of output without labels and gotos. *)
Lemma labels_inv_none st st' :
  state_le st st' → labels_inv [] [] st [] [] st'.
Proof.
  intros H. eapply labels_inv_weaken; [apply state_le_refl|exact H|].
  apply labels_inv_nil.
Qed.

Lemma no_labels_no_gotos out :
  Forall (λ s, observe.label_stmts s = [] ∧ observe.goto_targets s = []) out →
  flat_map observe.label_stmts out = [] ∧
  flat_map observe.goto_targets out = [].
Proof.
  induction 1 as [|s out [Hl Hg] _ [IHl IHg]]; [done|].
  simpl. by rewrite Hl, Hg, IHl, IHg.
Qed.

(** The pre-statements of an expression hold no label and no goto. *)
Lemma transform_expr_no_labels ctx e st pre r st' :
  transform_expr ctx e st = Ok ((pre, r), st') →
  flat_map observe.label_stmts pre = [] ∧
  flat_map observe.goto_targets pre = [] ∧
  state_le st st'.
Proof.
  intros H.
  apply (transform_expr_shape ctx
           (λ s, observe.label_stmts s = [] ∧ observe.goto_targets s = []))
    in H as [Hq Hle]; try done.
  - apply no_labels_no_gotos in Hq as [? ?]. done.
  - intros b1 b2 [H1 H1']%no_labels_no_gotos [H2 H2']%no_labels_no_gotos.
    simpl. by rewrite H1, H1', H2, H2'.
Qed.

Lemma gen_split_stmt_labels ctx cond then_stmts else_stmts st out st' :
  gen_split_stmt ctx cond then_stmts else_stmts st = Ok (out, st') →
  flat_map observe.label_stmts out =
    flat_map observe.label_stmts then_stmts ++
    flat_map observe.label_stmts else_stmts ∧
  flat_map observe.goto_targets out =
    flat_map observe.goto_targets then_stmts ++
    flat_map observe.goto_targets else_stmts ∧
  state_le st st'.
Proof.
  unfold gen_split_stmt, gen_split_stmt_with. intros H.
  bind_inv H as [pre c] st1 Hc. ret_inv H.
  apply transform_expr_no_labels in Hc as (Hl & Hg & Hle).
  rewrite !flat_map_app, Hl, Hg. simpl. by rewrite !app_nil_r.
Qed.

Lemma loop_stack_append_spec entry st u st' :
  loop_stack_append entry st = Ok (u, st') →
  loop_stack st' = loop_stack st ++ [entry] ∧
  var_decls st' = var_decls st ∧
  ∀ name, counter st' name = counter st name.
Proof. unfold loop_stack_append. by intros [= <- <-]. Qed.

Lemma loop_stack_pop_spec st u st' :
  loop_stack_pop st = Ok (u, st') →
  var_decls st' = var_decls st ∧
  ∀ name, counter st' name = counter st name.
Proof.
  unfold loop_stack_pop. destruct (loop_stack st); [discriminate|].
  by intros [= <- <-].
Qed.

(** The rule for loops: the exit label is made before the body is
    transformed and emitted once after it. *)
Lemma labels_inv_loop base entry_node st name st1 st2 st3 st4 rl rg Lb Gb :
  base ∈ ["exit_loop"; "exit_while_loop"] →
  fresh_name base st = Ok (name, st1) →
  loop_stack_append
    (entry_node, {| irt.label_name := name; irt.orig_node := None |}) st1
    = Ok (tt, st2) →
  labels_inv rl rg st2 Lb Gb st3 →
  loop_stack_pop st3 = Ok (tt, st4) →
  labels_inv rl rg st
    (Lb ++ [{| irt.label_name := name; irt.orig_node := None |}]) Gb st4.
Proof.
  intros Hbase Hn Ha (Hle & Hia & Hib & Hic & Hid) Hp.
  pose proof (loop_stack_append_pop _ _ _ _ _ Ha Hle Hp) as Hle14.
  apply fresh_name_spec in Hn as (-> & Hcnt & Hother & Hle01).
  fold (exit_label base (counter st base)) in *.
  set (ex := exit_label base (counter st base)) in *.
  apply loop_stack_append_spec in Ha as (Hstack & _ & Hc12).
  apply loop_stack_pop_spec in Hp as (_ & Hc34).
  assert (∀ l, exit_label_between st2 st3 l → exit_label_between st st4 l)
    as Hwiden.
  { intros l (b & n & Hb & -> & Hn). exists b, n. split; [done|].
    split; [done|]. rewrite Hc34. rewrite Hc12 in Hn.
    destruct Hle01 as (_ & _ & Hc). specialize (Hc b). lia. }
  assert (ex ∉ Lb) as Hex.
  { intros Hin. destruct (Hib _ Hin) as [[d Hd]|(b & n & Hb & Heq & Hn)];
      [discriminate|].
    apply exit_label_inj in Heq as [<- <-]; [|done..].
    rewrite Hc12, Hcnt in Hn. lia. }
  split; [eauto using state_le_trans|]. split; [|split; [|split]].
  - intros d. rewrite count_occ_app, Hia.
    rewrite count_occ_cons_neq by discriminate. simpl. lia.
  - intros l [Hl|Hl%list_elem_of_singleton]%elem_of_app.
    + destruct (Hib l Hl) as [?|?]; [by left|right; auto].
    + subst l. right. exists base, (counter st base).
      split; [done|]. split; [done|]. rewrite Hc34.
      destruct Hle as (_ & _ & Hc). specialize (Hc base).
      rewrite Hc12, Hcnt in Hc. lia.
  - intros l Hl. rewrite count_occ_app.
    destruct (decide (ex = l)) as [<-|Hne].
    + rewrite (count_occ_zero_not_elem_of _ Lb) by done.
      rewrite count_occ_cons_eq by done. simpl. lia.
    + rewrite count_occ_cons_neq by done. specialize (Hic l Hl). simpl. lia.
  - intros g Hg. destruct (Hid g Hg) as [?|[Hs|?]]; [by left| |].
    + rewrite Hstack, fmap_app in Hs.
      apply elem_of_app in Hs as [Hs|Hs%list_elem_of_singleton].
      * right; left. destruct Hle01 as (_ & <- & _). done.
      * right; right. apply elem_of_app. right. simpl in Hs. subst g.
        by apply list_elem_of_singleton.
    + right; right. apply elem_of_app. by left.
Qed.

Lemma transform_stmts_with_labels f ss :
  Forall (λ s, ∀ st out st',
      f s st = Ok (out, st') →
      labels_inv (reached.labels s) (reached.gotos s) st
        (flat_map observe.label_stmts out)
        (flat_map observe.goto_targets out) st') ss →
  ∀ st out st',
    transform_stmts_with f ss st = Ok (out, st') →
    labels_inv (flat_map reached.labels ss) (flat_map reached.gotos ss) st
      (flat_map observe.label_stmts out)
      (flat_map observe.goto_targets out) st'.
Proof.
  induction 1 as [|s ss Hs _ IH]; simpl; intros st out st' H.
  - ret_inv H. apply labels_inv_nil.
  - bind_inv H as o st1 Ho. bind_inv H as os st2 Hos. ret_inv H.
    rewrite !flat_map_app. eapply labels_inv_app; eauto.
Qed.

Lemma case_alts_with_labels ctx ts alts :
  Forall (λ alt, ∀ st out st',
      ts (lal.f_stmts alt) st = Ok (out, st') →
      labels_inv (flat_map reached.labels (lal.f_stmts alt))
        (flat_map reached.gotos (lal.f_stmts alt)) st
        (flat_map observe.label_stmts out)
        (flat_map observe.goto_targets out) st') alts →
  ∀ st cas st',
    case_alts_with ctx ts alts st = Ok (cas, st') →
    labels_inv
      (flat_map (λ alt, flat_map reached.labels (lal.f_stmts alt))
         (List.filter (λ alt, negb (is_others alt)) alts))
      (flat_map (λ alt, flat_map reached.gotos (lal.f_stmts alt))
         (List.filter (λ alt, negb (is_others alt)) alts))
      st
      (flat_map (λ ca, flat_map observe.label_stmts ca.2) cas)
      (flat_map (λ ca, flat_map observe.goto_targets ca.2) cas) st'.
Proof.
  induction 1 as [|[choices ss] alts Ha _ IH]; simpl; intros st cas st' H.
  - ret_inv H. apply labels_inv_nil.
  - change (is_others (lal.Alternative choices ss))
      with (existsb lal.is_OthersDesignator choices) in *. simpl in *.
    destruct (existsb _ choices) eqn:Ho; simpl; [eauto|].
    bind_inv H as values st1 Hv. bind_inv H as out st2 Hout.
    bind_inv H as rest st3 Hrest. ret_inv H.
    apply (for_each_state_le _ _ (eval_choice_state_le ctx)) in Hv as [Hv _].
    simpl. eapply labels_inv_app; [|eauto].
    eapply labels_inv_weaken; [exact Hv|apply state_le_refl|eauto].
Qed.

Lemma others_potential_stmts_with_labels ts alts :
  Forall (λ alt, ∀ st out st',
      ts (lal.f_stmts alt) st = Ok (out, st') →
      labels_inv (flat_map reached.labels (lal.f_stmts alt))
        (flat_map reached.gotos (lal.f_stmts alt)) st
        (flat_map observe.label_stmts out)
        (flat_map observe.goto_targets out) st') alts →
  ∀ st others st',
    others_potential_stmts_with ts alts st = Ok (others, st') →
    labels_inv
      (flat_map (λ alt, flat_map reached.labels (lal.f_stmts alt))
         (List.filter is_others alts))
      (flat_map (λ alt, flat_map reached.gotos (lal.f_stmts alt))
         (List.filter is_others alts))
      st
      (flat_map (flat_map observe.label_stmts) others)
      (flat_map (flat_map observe.goto_targets) others) st'.
Proof.
  induction 1 as [|[choices ss] alts Ha _ IH]; simpl; intros st others st' H.
  - ret_inv H. apply labels_inv_nil.
  - change (is_others (lal.Alternative choices ss))
      with (existsb lal.is_OthersDesignator choices) in *. simpl in *.
    destruct (existsb _ choices) eqn:Ho; simpl; [|eauto].
    bind_inv H as out st2 Hout. bind_inv H as rest st3 Hrest. ret_inv H.
    simpl. eapply labels_inv_app; eauto.
Qed.

Lemma case_branches_flat_map (f : irt.Stmt → list irt.Label)
    (conds : list irt.Expr) (cas : list (list value * list irt.Stmt))
    (others : list (list irt.Stmt)) (other_cond : irt.Expr) :
  (∀ e p, f (irt.AssumeStmt e p) = []) →
  length conds = length cas →
  flat_map (flat_map f)
    (zip_with (λ cond alt, irt.AssumeStmt cond None :: alt.2) conds cas ++
     map (λ others_stmts, irt.AssumeStmt other_cond None :: others_stmts)
       others)
  = flat_map (λ ca, flat_map f ca.2) cas ++ flat_map (flat_map f) others.
Proof.
  intros Hf Hlen. rewrite flat_map_app. f_equal.
  - revert cas Hlen. induction conds as [|c conds IH]; intros [|ca cas] Hlen;
      try done. simpl. rewrite Hf. simpl. f_equal. apply IH.
    simpl in Hlen. lia.
  - induction others as [|o others IH]; [done|].
    simpl. rewrite Hf. simpl. by f_equal.
Qed.

Lemma count_occ_flat_map_partition {A B}
    (dec : ∀ x y : B, {x = y} + {x ≠ y}) (f : A → list B) (p : A → bool)
    l x :
  count_occ dec
    (flat_map f (List.filter (λ a, negb (p a)) l) ++
     flat_map f (List.filter p l)) x
  = count_occ dec (flat_map f l) x.
Proof.
  rewrite count_occ_app. induction l as [|a l IH]; simpl; [done|].
  destruct (p a); simpl; rewrite !count_occ_app; lia.
Qed.

Lemma elem_of_flat_map_partition {A B} (f : A → list B) (p : A → bool) l x :
  x ∈ flat_map f (List.filter (λ a, negb (p a)) l) ++
      flat_map f (List.filter p l) →
  x ∈ flat_map f l.
Proof.
  rewrite !list_elem_of_In, in_app_iff, !in_flat_map.
  intros [(a & Ha & Hx)|(a & Ha & Hx)]; exists a;
    apply filter_In in Ha as [? _]; done.
Qed.

Lemma labels_Some label_decls d l :
  labels label_decls d = Some l → l = label_of_decl d.
Proof. unfold labels. case_decide; by intros [= <-]. Qed.

Lemma labels_inv_goto st g :
  g ∈ (loop_stack st).*2 → labels_inv [] [] st [] [g] st.
Proof.
  intros Hg. split; [apply state_le_refl|]. split; [done|].
  split; [by intros l Hl%elem_of_nil|]. split; [simpl; lia|].
  intros g' ->%list_elem_of_singleton. by right; left.
Qed.

Lemma exited_loop_on_stack f_loop_name st entry st' :
  match f_loop_name with
  | None => loop_stack_top
  | Some ref_loop => loop_stack_find ref_loop
  end st = Ok (entry, st') →
  st' = st ∧ entry.2 ∈ (loop_stack st).*2.
Proof.
  destruct f_loop_name as [ref_loop|]; intros H.
  - unfold loop_stack_find in H. bind_inv H as s st1 Hg.
    injection Hg as <- <-.
    destruct (filter _ _) as [|e es] eqn:Hf; [discriminate|].
    assert (e ∈ e :: es) as Hin by left. rewrite <- Hf in Hin.
    apply list_elem_of_filter in Hin as [_ Hin].
    ret_inv H. split; [done|]. by apply list_elem_of_fmap_2.
  - unfold loop_stack_top in H. bind_inv H as s st1 Hg.
    injection Hg as <- <-.
    destruct (last _) as [e|] eqn:Hl; [|discriminate].
    apply last_Some_elem_of in Hl.
    ret_inv H. split; [done|]. by apply list_elem_of_fmap_2.
Qed.

Section labels_of_lowering.
Context (ctx : ExtractionContext) (label_decls : list lal_node.LabelDecl).

(** The labels and gotos of the output of [transform_stmt], by those of
    the statement. *)
Lemma transform_stmt_labels s :
  ∀ st out st',
    transform_stmt ctx label_decls s st = Ok (out, st') →
    labels_inv (reached.labels s) (reached.gotos s) st
      (flat_map observe.label_stmts out)
      (flat_map observe.goto_targets out) st'.
Proof.
  induction s as [d e|c t e IHt IHe|c alts IH|n ss IH|n c ss IH|ss|d|d|s IH
                 |n c|ss| ] using lal_Stmt_nested_ind;
    intros st out st' H; simpl in H.
  - bind_inv H as [pre r] st1 He. bind_inv H as var st2 Hv. ret_inv H.
    apply get_var_decl_spec in Hv as ->.
    apply transform_expr_no_labels in He as (Hl & Hg & Hle).
    rewrite !flat_map_app, Hl, Hg. simpl. by apply labels_inv_none.
  - bind_inv H as ts st1 Ht. bind_inv H as es st2 He.
    apply (transform_stmts_with_labels _ _ IHt) in Ht.
    apply (transform_stmts_with_labels _ _ IHe) in He.
    apply gen_split_stmt_labels in H as (-> & -> & Hle). simpl.
    eapply labels_inv_weaken; [apply state_le_refl|exact Hle|].
    eapply labels_inv_app; eauto.
  - bind_inv H as [pre e] st1 He. bind_inv H as cas st2 Hcas.
    bind_inv H as others st3 Hothers. bind_inv H as split st4 Hsplit.
    ret_inv H. apply lift_Ok in Hsplit as [Hsplit <-].
    apply transform_expr_no_labels in He as (Hl & Hg & Hle).
    assert (Forall (λ alt, ∀ st out st',
              transform_stmts_with (transform_stmt ctx label_decls)
                (lal.f_stmts alt) st = Ok (out, st') →
              labels_inv (flat_map reached.labels (lal.f_stmts alt))
                (flat_map reached.gotos (lal.f_stmts alt)) st
                (flat_map observe.label_stmts out)
                (flat_map observe.goto_targets out) st') alts) as IH'.
    { eapply Forall_impl; [exact IH|]. intros alt Halt.
      by apply transform_stmts_with_labels. }
    apply (case_alts_with_labels _ _ _ IH') in Hcas.
    apply (others_potential_stmts_with_labels _ _ IH') in Hothers.
    apply case_split_Ok in Hsplit as (conds & dj & Hconds & Hd & ->).
    rewrite !flat_map_app, Hl, Hg. simpl. rewrite !app_nil_r.
    rewrite !case_branches_flat_map
      by (done || symmetry; by eapply Forall2_length).
    eapply labels_inv_weaken; [exact Hle|apply state_le_refl|].
    eapply labels_inv_source;
      [| |eapply labels_inv_app; [exact Hcas|exact Hothers]].
    + intros d. rewrite count_occ_flat_map_partition.
      f_equal. apply flat_map_ext. by intros [choices stmts].
    + intros d Hd'%elem_of_flat_map_partition.
      erewrite flat_map_ext; [exact Hd'|]. by intros [choices stmts].
  - bind_inv H as name st1 Hn. bind_inv H as [] st2 Ha.
    bind_inv H as body st3 Hb. bind_inv H as [] st4 Hp. ret_inv H.
    apply (transform_stmts_with_labels _ _ IH) in Hb.
    simpl. rewrite !app_nil_r.
    eapply (labels_inv_loop "exit_loop"); eauto. by left.
  - bind_inv H as [pre cond] st0 Hc.
    bind_inv H as name st1 Hn. bind_inv H as [] st2 Ha.
    bind_inv H as body st3 Hb. bind_inv H as [] st4 Hp. ret_inv H.
    apply transform_expr_no_labels in Hc as (Hl & Hg & Hle).
    apply (transform_stmts_with_labels _ _ IH) in Hb.
    simpl. rewrite !flat_map_app, Hl, Hg. simpl. rewrite !app_nil_r.
    eapply labels_inv_weaken; [exact Hle|apply state_le_refl|].
    eapply (labels_inv_loop "exit_while_loop"); eauto. by right; left.
  - ret_inv H. apply labels_inv_nil.
  - bind_inv H as l st1 Hl. ret_inv H. apply lift_Ok in Hl as [Hl <-].
    destruct (labels label_decls d) as [l'|] eqn:Hd; [|discriminate].
    injection Hl as ->. apply labels_Some in Hd as ->. simpl.
    split; [apply state_le_refl|]. split; [|split; [|split]].
    + intros d'. destruct (decide (d = d')) as [<-|Hne].
      * by rewrite !count_occ_cons_eq.
      * rewrite !count_occ_cons_neq; [done|done|].
        by intros ?%label_of_decl_inj.
    + intros l ->%list_elem_of_singleton. left. eauto.
    + intros l Hl. rewrite count_occ_cons_neq; [simpl; lia|].
      intros <-. discriminate.
    + by intros g Hg%elem_of_nil.
  - bind_inv H as l st1 Hl. ret_inv H. apply lift_Ok in Hl as [Hl <-].
    destruct (labels label_decls d) as [l'|] eqn:Hd; [|discriminate].
    injection Hl as ->. apply labels_Some in Hd as ->. simpl.
    split; [apply state_le_refl|]. split; [done|].
    split; [by intros l Hl%elem_of_nil|]. split; [simpl; lia|].
    intros g ->%list_elem_of_singleton. left. exists d.
    split; [done|]. by apply list_elem_of_singleton.
  - eauto.
  - bind_inv H as loop st1 Hl.
    apply exited_loop_on_stack in Hl as [-> Hstack].
    destruct c as [cond|].
    + apply gen_split_stmt_labels in H as (-> & -> & Hle). simpl.
      eapply labels_inv_weaken; [apply state_le_refl|exact Hle|].
      by apply labels_inv_goto.
    + ret_inv H. simpl. by apply labels_inv_goto.
  - ret_inv H. apply labels_inv_nil.
  - discriminate.
Qed.

Lemma transform_stmts_labels ss :
  ∀ st out st',
    transform_stmts ctx label_decls ss st = Ok (out, st') →
    labels_inv (flat_map reached.labels ss) (flat_map reached.gotos ss) st
      (flat_map observe.label_stmts out)
      (flat_map observe.goto_targets out) st'.
Proof.
  apply transform_stmts_with_labels, Forall_forall.
  intros s _. apply transform_stmt_labels.
Qed.

End labels_of_lowering.

Lemma for_each_loop_stack {A B} (f : A → M B) l :
  (∀ x st y st', f x st = Ok (y, st') → loop_stack st' = loop_stack st) →
  ∀ st ys st', for_each f l st = Ok (ys, st') →
    loop_stack st' = loop_stack st.
Proof.
  intros Hf. induction l as [|x l IH]; simpl; intros st ys st' H.
  - by ret_inv H.
  - bind_inv H as y st1 Hy. bind_inv H as ys' st2 Hys. ret_inv H.
    rewrite (IH _ _ _ Hys). eauto.
Qed.

Lemma transform_decls_loop_stack ctx decls st out st' :
  transform_decls ctx decls st = Ok (out, st') →
  loop_stack st' = loop_stack st.
Proof.
  unfold transform_decls. intros H. bind_inv H as outs st1 Ho. ret_inv H.
  eapply for_each_loop_stack; [|exact Ho]. clear.
  intros [| |node ids tdecl [dflt|]|] st y st' H; simpl in H.
  - by ret_inv H.
  - by ret_inv H.
  - bind_inv H as us st1 Hu. bind_inv H as [pre e] st2 He.
    bind_inv H as assigns st3 Ha. ret_inv H.
    apply (for_each_loop_stack _ _) in Hu; [|by intros ? ? [] ? [= <-]].
    apply transform_expr_no_labels in He as (_ & _ & _ & He & _).
    apply (for_each_loop_stack _ _) in Ha; [congruence|].
    intros text s1 y s2 H. bind_inv H as var s3 Hv. ret_inv H.
    by apply get_var_decl_spec in Hv as ->.
  - bind_inv H as us st1 Hu.
    apply (for_each_loop_stack _ _) in Hu; [|by intros ? ? [] ? [= <-]].
    apply (for_each_loop_stack _ _) in H; [congruence|].
    intros text s1 y' s2 H'. bind_inv H' as var s3 Hv. ret_inv H'.
    by apply get_var_decl_spec in Hv as ->.
  - discriminate.
Qed.

Lemma transform_decls_no_labels ctx decls st out st' :
  transform_decls ctx decls st = Ok (out, st') →
  flat_map observe.label_stmts out = [] ∧
  flat_map observe.goto_targets out = [].
Proof.
  intros H. apply no_labels_no_gotos.
  eapply (transform_decls_shape ctx
            (λ s, observe.label_stmts s = [] ∧ observe.goto_targets s = []));
    [done..| |exact H].
  intros branches _ Hbs. simpl.
  induction Hbs as [|b bs [Hl Hg]%no_labels_no_gotos _ [IHl IHg]]; [done|].
  simpl. by rewrite Hl, Hg, IHl, IHg.
Qed.

(** * Further properties of the code *)

Ltac in_list :=
  repeat first [apply list_elem_of_here | apply list_elem_of_further].

(** ** The rules of the evaluator *)

Section evaluator_rules.
Import ConstExprEvaluator.

Lemma to_bool_from_bool b : to_bool (from_bool b) = b.
Proof. by destruct b. Qed.

Lemma from_bool_not_None b : from_bool b ≠ VNone.
Proof. by destruct b. Qed.

(** The rules of the binary operators raise nothing but a [TypeError]:
    the comparisons raise nothing at all. *)
Lemma BinOps_raises s f x y e :
  BinOps s = Some f → f x y = Raise e → e = TypeError.
Proof.
  destruct s; intros [= <-]; try discriminate;
    destruct x, y; simpl; intros H; by simplify_eq.
Qed.

(** Those of the unary operators raise a [TypeError] or an
    [AttributeError]. *)
Lemma UnOps_raises s f x e :
  UnOps s = Some f → f x = Raise e → e = TypeError ∨ e = AttributeError.
Proof.
  destruct s; intros [= <-]; destruct x; simpl; intros H;
    simplify_eq; auto.
Qed.

Lemma visit_raises e x :
  visit e = Raise x →
  x ∈ [NotConstExprError; TypeError; AttributeError].
Proof.
  revert x.
  induction e as [v h|v h|l IHl op r IHr h|op e IHe h]; simpl; intros x.
  - intros [= <-]. in_list.
  - discriminate.
  - destruct (BinOps _) as [f|] eqn:Hop; simpl; [|intros [= <-]; in_list].
    destruct (visit l) as [a|ea]; simpl.
    + destruct (visit r) as [b|eb]; simpl.
      * destruct (f a b) as [c|ec] eqn:Hf; simpl; [discriminate|].
        rewrite (BinOps_raises _ _ _ _ _ Hop Hf). simpl.
        intros [= <-]. in_list.
      * specialize (IHr _ eq_refl). destruct eb; simpl; intros [= <-];
          solve [in_list | by repeat (apply elem_of_cons in IHr as [?|IHr];
                                       [done|]); apply elem_of_nil in IHr].
    + specialize (IHl _ eq_refl). destruct ea; simpl; intros [= <-];
        solve [in_list | by repeat (apply elem_of_cons in IHl as [?|IHl];
                                     [done|]); apply elem_of_nil in IHl].
  - destruct (UnOps _) as [f|] eqn:Hop; simpl; [|intros [= <-]; in_list].
    destruct (visit e) as [a|ea]; simpl.
    + destruct (f a) as [c|ec] eqn:Hf; simpl; [discriminate|].
      destruct (UnOps_raises _ _ _ _ Hop Hf) as [-> | ->]; simpl;
        intros [= <-]; in_list.
    + specialize (IHe _ eq_refl). destruct ea; simpl; intros [= <-];
        solve [in_list | by repeat (apply elem_of_cons in IHe as [?|IHe];
                                     [done|]); apply elem_of_nil in IHe].
Qed.

Lemma eval_raises e x :
  eval e = Raise x →
  x ∈ [NotConstExprError; TypeError; AttributeError; NotImplementedError].
Proof.
  unfold eval. destruct (visit e) as [v|y] eqn:Hv; simpl.
  - destruct v; intros [= <-]. in_list.
  - intros [= <-]. apply visit_raises in Hv.
    repeat (apply elem_of_cons in Hv as [->|Hv]; [in_list|]).
    by apply elem_of_nil in Hv.
Qed.

Lemma eval_from_bool e b :
  visit e = Ok (from_bool b) → eval e = Ok (from_bool b).
Proof. intros H. apply eval_Ok. split; [done|apply from_bool_not_None]. Qed.

Lemma integer_of_py_integer z : integer_of (py_integer z) = Some z.
Proof. unfold py_integer. by case_match. Qed.

Lemma py_add_integer a b x y :
  integer_of a = Some x → integer_of b = Some y →
  ∃ v, py_add a b = Ok v ∧ integer_of v = Some (x + y)%Z.
Proof.
  destruct a, b; simpl; intros H1 H2; simplify_eq;
    eauto using integer_of_py_integer.
Qed.

Lemma py_sub_integer a b x y :
  integer_of a = Some x → integer_of b = Some y →
  ∃ v, py_sub a b = Ok v ∧ integer_of v = Some (x - y)%Z.
Proof.
  destruct a, b; simpl; intros H1 H2; simplify_eq;
    eauto using integer_of_py_integer.
Qed.

Lemma py_neg_integer a x :
  integer_of a = Some x →
  ∃ v, py_neg a = Ok v ∧ integer_of v = Some (- x)%Z.
Proof.
  destruct a; simpl; intros H1; simplify_eq;
    eauto using integer_of_py_integer.
Qed.

Lemma py_eq_integer a b x y :
  integer_of a = Some x → integer_of b = Some y → py_eq a b = Z.eqb x y.
Proof. destruct a, b; simpl; intros H1 H2; by simplify_eq. Qed.

Lemma py_cmp_integer a b x y :
  integer_of a = Some x → integer_of b = Some y → py_cmp a b = Z.compare x y.
Proof. destruct a, b; simpl; intros H1 H2; by simplify_eq. Qed.

Lemma int_value_visit e : ∀ z,
  const_expr.int_value e = Some z →
  ∃ v, visit e = Ok v ∧ integer_of v = Some z.
Proof.
  induction e as [v h|v h|l IHl [s] r IHr h|[s] e IHe h]; simpl; intros z.
  - discriminate.
  - eauto.
  - destruct s; try discriminate;
      destruct (const_expr.int_value l) as [x|]; simpl; try discriminate;
      destruct (const_expr.int_value r) as [y|]; simpl; try discriminate;
      intros [= <-];
      destruct (IHl _ eq_refl) as (a & -> & Ha);
      destruct (IHr _ eq_refl) as (b & -> & Hb); simpl.
    + destruct (py_add_integer _ _ _ _ Ha Hb) as (v & -> & Hv). eauto.
    + destruct (py_sub_integer _ _ _ _ Ha Hb) as (v & -> & Hv). eauto.
  - destruct s; try discriminate.
    destruct (const_expr.int_value e) as [x|]; simpl; try discriminate.
    intros [= <-]. destruct (IHe _ eq_refl) as (a & -> & Ha). simpl.
    destruct (py_neg_integer _ _ Ha) as (v & -> & Hv). eauto.
Qed.

(** An expression that is computed with [int]s throughout has an [int] for
    its value. *)
Lemma int_only_visit e : ∀ z,
  const_expr.int_only e = true → const_expr.int_value e = Some z →
  visit e = Ok (VInt z).
Proof.
  assert (∀ z, const_expr.fits_int z = true → py_integer z = VInt z) as Hfit.
  { intros z Hz. unfold py_integer. unfold const_expr.fits_int in Hz.
    by rewrite Hz. }
  induction e as [v h|v h|l IHl [s] r IHr h|[s] e IHe h]; intros z.
  - discriminate.
  - destruct v; try discriminate. simpl. by intros _ [= ->].
  - cbn [const_expr.int_only]. intros [[Hl Hr]%andb_prop Hz]%andb_prop Hv.
    rewrite Hv in Hz. simpl in Hv |- *.
    destruct s; try discriminate;
      destruct (const_expr.int_value l) as [x|]; simpl in Hv;
        try discriminate;
      destruct (const_expr.int_value r) as [y|]; simpl in Hv;
        try discriminate;
      injection Hv as <-;
      rewrite (IHl _ Hl eq_refl), (IHr _ Hr eq_refl); simpl;
      by rewrite (Hfit _ Hz).
  - cbn [const_expr.int_only]. intros [He Hz]%andb_prop Hv.
    rewrite Hv in Hz. simpl in Hv |- *.
    destruct s; try discriminate.
    destruct (const_expr.int_value e) as [x|]; simpl in Hv; try discriminate.
    injection Hv as <-. rewrite (IHe _ He eq_refl). simpl.
    by rewrite (Hfit _ Hz).
Qed.

Lemma comparison_of_visit s rel l r h a b x y :
  const_expr.comparison_of s = Some rel →
  visit l = Ok a → visit r = Ok b →
  integer_of a = Some x → integer_of b = Some y →
  visit (irt.BinExpr l {| irt.sym := s |} r h) = Ok (from_bool (rel x y)).
Proof.
  intros Hs Hl Hr Ha Hb. simpl.
  destruct s; simplify_eq/=; rewrite Hl, Hr; simpl;
    rewrite ?(py_eq_integer _ _ _ _ Ha Hb), ?(py_cmp_integer _ _ _ _ Ha Hb);
    try done.
  - unfold Z.ltb. destruct (x ?= y)%Z; by case_bool_decide.
  - unfold Z.leb. destruct (x ?= y)%Z; by case_bool_decide.
  - unfold Z.geb. destruct (x ?= y)%Z; by case_bool_decide.
  - unfold Z.gtb. destruct (x ?= y)%Z; by case_bool_decide.
Qed.

Lemma bool_value_visit e : ∀ b,
  const_expr.bool_value e = Some b → visit e = Ok (from_bool b).
Proof.
  induction e as [v h|v h|l IHl [s] r IHr h|[s] e IHe h]; simpl; intros b.
  - discriminate.
  - destruct v as [| |s| |]; try discriminate.
    destruct (String.eqb s ADA_TRUE) eqn:Ht.
    { apply String.eqb_eq in Ht as ->. by intros [= <-]. }
    destruct (String.eqb s ADA_FALSE) eqn:Hf; [|discriminate].
    apply String.eqb_eq in Hf as ->. by intros [= <-].
  - assert (∀ rel,
      const_expr.comparison_of s = Some rel →
      (rel ← const_expr.comparison_of s;
       x ← const_expr.int_value l; y ← const_expr.int_value r;
       Some (rel x y)) = Some b →
      visit (irt.BinExpr l {| irt.sym := s |} r h) = Ok (from_bool b))
      as Hcmp.
    { intros rel Hrel. rewrite Hrel. simpl.
      destruct (const_expr.int_value l) as [x|] eqn:Hx; simpl;
        [|discriminate].
      destruct (const_expr.int_value r) as [y|] eqn:Hy; simpl;
        [|discriminate].
      intros [= <-].
      destruct (int_value_visit _ _ Hx) as (a & Hl & Ha).
      destruct (int_value_visit _ _ Hy) as (c & Hr & Hc).
      by apply (comparison_of_visit s rel l r h a c x y). }
    destruct s; try discriminate;
      try (intros Hb; by eapply Hcmp).
    + destruct (const_expr.bool_value l) as [a|]; simpl; [|discriminate].
      destruct (const_expr.bool_value r) as [c|]; simpl; [|discriminate].
      intros [= <-]. rewrite (IHl _ eq_refl), (IHr _ eq_refl). simpl.
      by rewrite !to_bool_from_bool.
    + destruct (const_expr.bool_value l) as [a|]; simpl; [|discriminate].
      destruct (const_expr.bool_value r) as [c|]; simpl; [|discriminate].
      intros [= <-]. rewrite (IHl _ eq_refl), (IHr _ eq_refl). simpl.
      by rewrite !to_bool_from_bool.
  - destruct s; try discriminate.
    destruct (const_expr.bool_value e) as [a|]; simpl; [|discriminate].
    intros [= <-]. rewrite (IHe _ eq_refl). simpl.
    by rewrite to_bool_from_bool.
Qed.

(** X1.  [to_bool] and [from_bool]: a truth value survives the trip through
    its literal, and a value survives the trip through a truth value exactly
    when it is one of the two boolean literals; every other value, of any
    type, reads as false. *)
Theorem bool_literals_round_trip :
  (∀ b, to_bool (from_bool b) = b) ∧
  (∀ v, from_bool (to_bool v) = v ↔ v = VStr ADA_TRUE ∨ v = VStr ADA_FALSE) ∧
  (∀ v, v ≠ VStr ADA_TRUE → to_bool v = false).
Proof.
  split; [apply to_bool_from_bool|]. split.
  - intros v. split.
    + destruct v as [| |s| |]; simpl; try discriminate.
      destruct (String.eqb s ADA_TRUE) eqn:Ht; simpl.
      * apply String.eqb_eq in Ht as ->. auto.
      * intros [= <-]. auto.
    + by intros [-> | ->].
  - intros v Hv. destruct v as [| |s| |]; simpl; try done.
    apply String.eqb_neq. congruence.
Qed.

(** X2.  The evaluator gives a value only to closed expressions: one that
    names a variable, or holds an operator without a rule, has no value.
    And a closed expression never fails with [NotConstExprError]: what it
    can raise is an error of a rule. *)
Theorem evaluator_value_needs_closed_expression e :
  (const_expr.closed e = false → ¬ is_Ok (visit e) ∧ ¬ is_Ok (eval e)) ∧
  (const_expr.closed e = true →
     visit e ≠ Raise NotConstExprError ∧ eval e ≠ Raise NotConstExprError).
Proof.
  assert (∀ e', (is_Ok (visit e') → const_expr.closed e' = true) ∧
                (const_expr.closed e' = true →
                 visit e' ≠ Raise NotConstExprError)) as H.
  { induction e' as [v h|v h|l [IHl1 IHl2] op r [IHr1 IHr2] h
                    |op e' [IHe1 IHe2] h]; simpl.
    - split; [by intros [a Ha]|done].
    - done.
    - destruct (BinOps _) as [f|] eqn:Hop; simpl;
        [|split; [by intros [a Ha]|done]].
      destruct (visit l) as [x|ex] eqn:Hl; simpl.
      + destruct (visit r) as [y|ey] eqn:Hr; simpl.
        * split.
          -- intros _. by rewrite IHl1, IHr1 by (by eexists).
          -- intros _. destruct (f x y) as [c|ec] eqn:Hf; simpl; [done|].
             by rewrite (BinOps_raises _ _ _ _ _ Hop Hf).
        * split.
          -- intros [a Ha]. by destruct ey.
          -- intros [_ Hc]%andb_prop. specialize (IHr2 Hc).
             pose proof (visit_no_KeyError r) as Hk. rewrite Hr in Hk.
             by destruct ey.
      + split.
        * intros [a Ha]. by destruct ex.
        * intros [Hc _]%andb_prop. specialize (IHl2 Hc).
          pose proof (visit_no_KeyError l) as Hk. rewrite Hl in Hk.
          by destruct ex.
    - destruct (UnOps _) as [f|] eqn:Hop; simpl;
        [|split; [by intros [a Ha]|done]].
      destruct (visit e') as [x|ex] eqn:He; simpl.
      + split.
        * intros _. apply IHe1. by eexists.
        * intros _. destruct (f x) as [c|ec] eqn:Hf; simpl; [done|].
          by destruct (UnOps_raises _ _ _ _ Hop Hf) as [-> | ->].
      + split.
        * intros [a Ha]. by destruct ex.
        * intros Hc. specialize (IHe2 Hc).
          pose proof (visit_no_KeyError e') as Hk. rewrite He in Hk.
          by destruct ex. }
  destruct (H e) as [H1 H2]. split.
  - intros Hc. assert (¬ is_Ok (visit e)) as Hv.
    { intros Hok. rewrite (H1 Hok) in Hc. done. }
    split; [done|]. intros [v Hev]. apply eval_Ok in Hev as [Hev _].
    apply Hv. by eexists.
  - intros Hc. split; [by apply H2|]. unfold eval.
    specialize (H2 Hc). destruct (visit e) as [v|x]; simpl.
    + by destruct v.
    + congruence.
Qed.

(** X3.  On integer literals the evaluator computes with unbounded
    integers: an expression of literals, [+], [-] and unary [-] evaluates
    to the integer it stands for, as an [int] when the literals are [int]s
    and no operation overflows, and as an [int] or a [long] otherwise; and
    an expression of boolean literals, of comparisons of such integers and
    of [and], [or] and [not] evaluates to the literal of the truth value it
    stands for. *)
Theorem evaluator_computes_integers_and_truth_values :
  (∀ e z, const_expr.int_value e = Some z →
     ∃ v, eval e = Ok v ∧ integer_of v = Some z) ∧
  (∀ e z, const_expr.int_value e = Some z →
     const_expr.int_only e = true → eval e = Ok (VInt z)) ∧
  (∀ e b, const_expr.bool_value e = Some b → eval e = Ok (from_bool b)).
Proof.
  split; [|split].
  - intros e z H. destruct (int_value_visit _ _ H) as (v & Hv & Hz).
    exists v. split; [|done]. apply eval_Ok. split; [done|].
    by destruct v.
  - intros e z H Hint. apply eval_Ok. split; [by apply int_only_visit|done].
  - intros e b H. apply eval_from_bool. by apply bool_value_visit.
Qed.

(** X4.  The attributes ['First] and ['Last] of a constant range give back
    the values of its two bounds, and of a constant that is no range they
    raise [AttributeError]. *)
Theorem range_attributes_round_trip lo hi h h' a b :
  visit lo = Ok a → visit hi = Ok b →
  let range := irt.BinExpr lo (irt.bin_ops ops.DOT_DOT) hi h in
  visit range = Ok (VRange a b) ∧
  visit (irt.UnExpr (irt.un_ops ops.GET_FIRST) range h') = Ok a ∧
  visit (irt.UnExpr (irt.un_ops ops.GET_LAST) range h') = Ok b ∧
  (∀ e v attr, visit e = Ok v → (∀ f l, v ≠ VRange f l) →
     attr ∈ [ops.GET_FIRST; ops.GET_LAST] →
     visit (irt.UnExpr (irt.un_ops attr) e h') = Raise AttributeError).
Proof.
  intros Hlo Hhi range. subst range. simpl. rewrite Hlo, Hhi. simpl.
  repeat split; try done.
  intros e v attr Hv Hr Hattr. rewrite Hv. simpl.
  apply elem_of_cons in Hattr as [->|Hattr];
    [|apply list_elem_of_singleton in Hattr as ->];
    simpl; destruct v; try done; by destruct (Hr v1 v2).
Qed.

Lemma range_attributes_round_trip_witness :
  visit (irt.UnExpr (irt.un_ops ops.GET_LAST)
           (irt.BinExpr (irt.Lit (VInt 1) None) (irt.bin_ops ops.DOT_DOT)
              (irt.Lit (VInt 10) None) None) None) = Ok (VInt 10).
Proof.
  destruct (range_attributes_round_trip
              (irt.Lit (VInt 1) None) (irt.Lit (VInt 10) None) None None
              (VInt 1) (VInt 10) eq_refl eq_refl) as (_ & _ & H & _).
  exact H.
Defined.

End evaluator_rules.

(** ** The normalizer: what it keeps and what it lets through *)

Lemma Forall2_Forall_impl {A B} (P : A → Prop) (R R' : A → B → Prop) l k :
  Forall P l → Forall2 R l k → (∀ x y, P x → R x y → R' x y) →
  Forall2 R' l k.
Proof.
  intros HP HR Himp. induction HR as [|x y l k Hxy _ IH]; [constructor|].
  apply Forall_cons in HP as [Hx Hl]. constructor; auto.
Qed.

Lemma Forall2_flat_map {A B C D} (P : C → D → Prop)
    (f : A → list C) (g : B → list D) l k :
  Forall2 (λ x y, Forall2 P (f x) (g y)) l k →
  Forall2 P (flat_map f l) (flat_map g k).
Proof. induction 1; simpl; [constructor|by apply Forall2_app]. Qed.

Lemma try_map_flat_map {A B} (f : A → result A) (g : A → list B) l :
  Forall (λ x, ∀ y, f x = Ok y → g y = g x) l →
  ∀ l', try_map f l = Ok l' → flat_map g l' = flat_map g l.
Proof.
  intros HP l' H. apply try_map_Ok in H.
  induction H as [|x y l k Hxy _ IH]; [done|].
  apply Forall_cons in HP as [Hx Hl]. simpl. by rewrite (Hx _ Hxy), IH.
Qed.

Lemma try_map_forallb {A} (f : A → result A) (g : A → bool) l :
  Forall (λ x, ∀ y, f x = Ok y → g y = g x) l →
  ∀ l', try_map f l = Ok l' → forallb g l' = forallb g l.
Proof.
  intros HP l' H. apply try_map_Ok in H.
  induction H as [|x y l k Hxy _ IH]; [done|].
  apply Forall_cons in HP as [Hx Hl]. simpl. by rewrite (Hx _ Hxy), IH.
Qed.

Lemma try_map_length {A B} (f : A → result B) l l' :
  try_map f l = Ok l' → length l' = length l.
Proof. intros H. apply try_map_Ok in H. symmetry. by eapply Forall2_length. Qed.

(** The element at which [try_map] raises. *)
Lemma try_map_raises {A B} (f : A → result B) l e :
  try_map f l = Raise e → ∃ x, x ∈ l ∧ f x = Raise e.
Proof.
  induction l as [|x l IH]; simpl; [discriminate|].
  destruct (f x) as [y|ex] eqn:Hx; simpl.
  - destruct (try_map f l) as [ys|el]; simpl; [discriminate|].
    intros [= <-]. destruct (IH eq_refl) as (x' & Hin & Hx').
    exists x'. split; [by apply list_elem_of_further|done].
  - intros [= <-]. exists x. split; [apply list_elem_of_here|done].
Qed.

Section normalizer_meaning.
Import ConstExprEvaluator ConvertUniversalTypes.
Context (ev : ConstExprEvaluator.t).

(** A value of the evaluator is the value under every environment. *)
Lemma visit_Ok_eval_in ρ e : ∀ v, visit e = Ok v → observe.eval_in ρ e = Ok v.
Proof.
  induction e as [x h|v h|l IHl op r IHr h|op e IHe h]; simpl; intros w.
  - discriminate.
  - done.
  - destruct (BinOps _) as [f|]; simpl; [|discriminate].
    destruct (visit l) as [a|[]]; simpl; try discriminate.
    destruct (visit r) as [b|[]]; simpl; try discriminate.
    by rewrite (IHl _ eq_refl), (IHr _ eq_refl).
  - destruct (UnOps _) as [f|]; simpl; [|discriminate].
    destruct (visit e) as [a|[]]; simpl; try discriminate.
    by rewrite (IHe _ eq_refl).
Qed.

Lemma try_convert_eval_in e t e' ρ :
  (∀ e'', visit_expr ev e = Ok e'' →
     observe.eval_in ρ e'' = observe.eval_in ρ e) →
  try_convert_expr ev e t = Ok e' →
  observe.eval_in ρ e' = observe.eval_in ρ e.
Proof.
  intros IH H. apply try_convert_expr_cases in H as [(v & Hv & ->)|[_ H]].
  - apply eval_Ok in Hv as [Hv _]. simpl. symmetry.
    by apply visit_Ok_eval_in.
  - by apply IH.
Qed.

Lemma visit_expr_eval_in ρ e : ∀ e',
  visit_expr ev e = Ok e' → observe.eval_in ρ e' = observe.eval_in ρ e.
Proof.
  induction e as [x h|v h|l IHl op r IHr h|op e IHe h]; simpl; intros e'.
  - by intros [= <-].
  - by intros [= <-].
  - set (t := if has_universal_type ev r then _ else _).
    destruct (try_convert_with (visit_expr ev) l t) as [l'|] eqn:Hl;
      simpl; [|discriminate].
    destruct (try_convert_with (visit_expr ev) r t) as [r'|] eqn:Hr;
      simpl; [|discriminate].
    intros [= <-]. simpl.
    by rewrite (try_convert_eval_in l t l' ρ IHl Hl),
      (try_convert_eval_in r t r' ρ IHr Hr).
  - destruct (visit_expr ev e) as [e0|] eqn:He; simpl; [|discriminate].
    intros [= <-]. simpl. by rewrite (IHe _ eq_refl).
Qed.

Lemma try_convert_expr_eval_in ρ e t e' :
  try_convert_expr ev e t = Ok e' →
  observe.eval_in ρ e' = observe.eval_in ρ e.
Proof. apply try_convert_eval_in. apply visit_expr_eval_in. Qed.

Lemma paths_split branches :
  observe.paths (irt.SplitStmt branches) = flat_map observe.paths_of branches.
Proof. reflexivity. Qed.

Lemma paths_of_related (R : irt.Stmt → irt.Stmt → Prop) ss ss' :
  Forall2 (λ s s', Forall2 (Forall2 R) (observe.paths s) (observe.paths s'))
    ss ss' →
  Forall2 (Forall2 R) (observe.paths_of ss) (observe.paths_of ss').
Proof.
  induction 1 as [|s s' ss ss' Hs _ IH]; simpl.
  - repeat constructor.
  - apply Forall2_bind. eapply Forall2_impl; [exact Hs|].
    intros p p' Hp. simpl. apply Forall2_bind.
    eapply Forall2_impl; [exact IH|].
    intros q q' Hq. constructor; [by apply Forall2_app|constructor].
Qed.

(** The paths of a normalized statement are the paths of the statement,
    normalized step by step. *)
Lemma visit_stmt_paths s : ∀ s',
  visit_stmt ev s = Ok s' →
  Forall2 (Forall2 (λ a b, visit_stmt ev a = Ok b))
    (observe.paths s) (observe.paths s').
Proof.
  induction s as [id e|branches IH|stmts IH|id|id|e p|l|l]
    using irt_Stmt_nested_ind; intros s' H;
    try (simpl in H; simplify_eq; by repeat constructor).
  - pose proof H as H'. simpl in H.
    destruct (try_convert_expr ev e _) as [e'|]; simplify_eq/=.
    by repeat constructor.
  - simpl in H.
    destruct (try_map _ branches) as [bs|] eqn:Hbs; simpl in H;
      simplify_eq.
    rewrite !paths_split. apply Forall2_flat_map.
    apply try_map_Ok in Hbs.
    eapply Forall2_Forall_impl; [exact IH|exact Hbs|].
    intros b b' Hb Hbb'. simpl in *. apply paths_of_related.
    apply try_map_Ok in Hbb'.
    eapply Forall2_Forall_impl; [exact Hb|exact Hbb'|].
    intros s s' Hs Hss'. by apply Hs.
  - pose proof H as H'. simpl in H.
    destruct (try_map _ stmts) as [ss|]; simplify_eq/=.
    by repeat constructor.
  - simpl in H.
    destruct (try_convert_expr ev e _) as [e'|] eqn:He; simpl in H;
      [|discriminate].
    destruct (visit_purpose ev p) as [p'|] eqn:Hp; simpl in H;
      [|discriminate].
    injection H as <-. repeat constructor. simpl. by rewrite He, Hp.
Qed.

Lemma visit_stmts_paths stmts stmts' :
  try_map (visit_stmt ev) stmts = Ok stmts' →
  Forall2 (Forall2 (λ a b, visit_stmt ev a = Ok b))
    (observe.paths_of stmts) (observe.paths_of stmts').
Proof.
  intros H. apply try_map_Ok in H. apply paths_of_related.
  eapply Forall2_impl; [exact H|]. intros s s'. apply visit_stmt_paths.
Qed.

(** A path runs as its normalized path does. *)
Lemma run_path_related p p' :
  Forall2 (λ a b, visit_stmt ev a = Ok b) p p' →
  ∀ ρ, observe.run_path ρ p' = observe.run_path ρ p.
Proof.
  induction 1 as [|s s' p p' Hs _ IH]; intros ρ; [done|].
  destruct s as [id e|branches|stmts|id|id|e pu|l|l]; simpl in Hs.
  - destruct (try_convert_expr ev e _) as [e'|] eqn:He; simplify_eq/=.
    destruct id; try done.
    rewrite (try_convert_expr_eval_in ρ _ _ _ He).
    by destruct (observe.eval_in ρ e).
  - by destruct (try_map _ branches); simplify_eq/=.
  - by destruct (try_map _ stmts); simplify_eq/=.
  - by simplify_eq/=.
  - by simplify_eq/=.
  - destruct (try_convert_expr ev e _) as [e'|] eqn:He; simplify_eq/=.
    destruct (visit_purpose ev pu) as [pu'|]; simplify_eq/=.
    rewrite (try_convert_expr_eval_in ρ _ _ _ He).
    destruct (observe.eval_in ρ e) as [v|]; [|done].
    by destruct (to_bool v).
  - by simplify_eq/=.
  - by simplify_eq/=.
Qed.

(** What one statement keeps through the pass: its labels, the targets of
    its gotos and the branch counts of its splits. *)
Lemma visit_stmt_skeleton s : ∀ s',
  visit_stmt ev s = Ok s' →
  observe.label_stmts s' = observe.label_stmts s ∧
  observe.goto_targets s' = observe.goto_targets s ∧
  ∀ ok, observe.split_counts ok s' = observe.split_counts ok s.
Proof.
  induction s as [id e|branches IH|stmts IH|id|id|e p|l|l]
    using irt_Stmt_nested_ind; intros s' H;
    try (simpl in H; by simplify_eq).
  - simpl in H. by destruct (try_convert_expr ev e _); simplify_eq/=.
  - simpl in H.
    destruct (try_map _ branches) as [bs|] eqn:Hbs; simplify_eq/=.
    split; [|split].
    + apply (try_map_flat_map (try_map (visit_stmt ev))); [|done].
      eapply Forall_impl; [exact IH|]. intros b Hb b'.
      apply try_map_flat_map. eapply Forall_impl; [exact Hb|].
      intros s Hs s' Hss'. by destruct (Hs _ Hss') as (? & ? & ?).
    + apply (try_map_flat_map (try_map (visit_stmt ev))); [|done].
      eapply Forall_impl; [exact IH|]. intros b Hb b'.
      apply try_map_flat_map. eapply Forall_impl; [exact Hb|].
      intros s Hs s' Hss'. by destruct (Hs _ Hss') as (? & ? & ?).
    + intros ok. rewrite (try_map_length _ _ _ Hbs). f_equal.
      apply (try_map_forallb (try_map (visit_stmt ev))); [|done].
      eapply Forall_impl; [exact IH|]. intros b Hb b'.
      apply try_map_forallb. eapply Forall_impl; [exact Hb|].
      intros s Hs s' Hss'. by destruct (Hs _ Hss') as (? & ? & ->).
  - simpl in H.
    destruct (try_map _ stmts) as [ss|] eqn:Hss; simplify_eq/=.
    split; [|split].
    + apply (try_map_flat_map (visit_stmt ev)); [|done].
      eapply Forall_impl; [exact IH|].
      intros s Hs s' Hss'. by destruct (Hs _ Hss') as (? & ? & ?).
    + apply (try_map_flat_map (visit_stmt ev)); [|done].
      eapply Forall_impl; [exact IH|].
      intros s Hs s' Hss'. by destruct (Hs _ Hss') as (? & ? & ?).
    + intros ok. apply (try_map_forallb (visit_stmt ev)); [|done].
      eapply Forall_impl; [exact IH|].
      intros s Hs s' Hss'. by destruct (Hs _ Hss') as (? & ? & ->).
  - simpl in H. destruct (try_convert_expr ev e _); simplify_eq/=.
    by destruct (visit_purpose ev p); simplify_eq/=.
Qed.

(** A normalized statement is the statement, up to the meaning of its
    expressions. *)
Lemma visit_stmt_equiv s : ∀ s',
  visit_stmt ev s = Ok s' → meaning.stmt_equiv s s'.
Proof.
  induction s as [id e|branches IH|stmts IH|id|id|e p|l|l]
    using irt_Stmt_nested_ind; intros s' H; simpl in H;
    try (simplify_eq; by constructor).
  - destruct (try_convert_expr ev e _) as [e'|] eqn:He; simplify_eq/=.
    constructor. intros ρ. by eapply try_convert_expr_eval_in.
  - destruct (try_map _ branches) as [bs|] eqn:Hbs; simplify_eq/=.
    constructor. apply try_map_Ok in Hbs.
    eapply Forall2_Forall_impl; [exact IH|exact Hbs|].
    intros b b' Hb Hbb'. simpl in *. apply try_map_Ok in Hbb'.
    eapply Forall2_Forall_impl; [exact Hb|exact Hbb'|].
    intros s s' Hs Hss'. by apply Hs.
  - destruct (try_map _ stmts) as [ss|] eqn:Hss; simplify_eq/=.
    constructor. apply try_map_Ok in Hss.
    eapply Forall2_Forall_impl; [exact IH|exact Hss|].
    intros s s' Hs Hss'. by apply Hs.
  - destruct (try_convert_expr ev e _) as [e'|] eqn:He; simplify_eq/=.
    destruct (visit_purpose ev p) as [p'|] eqn:Hp; simplify_eq/=.
    constructor; [intros ρ; by eapply try_convert_expr_eval_in|].
    destruct p as [[prefix]|]; simpl in Hp.
    + destruct (visit_expr ev prefix) as [prefix'|] eqn:Hx; simplify_eq/=.
      intros ρ. by apply visit_expr_eval_in.
    + by simplify_eq.
Qed.

(** The errors of the pass on an expression are those of the evaluator, but
    for [NotConstExprError], which it handles. *)
Lemma try_convert_raises e t x :
  (∀ y, visit_expr ev e = Raise y →
     y ∈ [TypeError; AttributeError; NotImplementedError]) →
  try_convert_expr ev e t = Raise x →
  x ∈ [TypeError; AttributeError; NotImplementedError].
Proof.
  intros IH. unfold try_convert_expr, try_convert_with.
  destruct (eval e) as [v|y] eqn:Hv; [discriminate|].
  apply eval_raises in Hv.
  repeat (apply elem_of_cons in Hv as [->|Hv];
          [first [by apply IH | intros [= <-]; in_list]|]).
  by apply elem_of_nil in Hv.
Qed.

Lemma visit_expr_raises e : ∀ x,
  visit_expr ev e = Raise x →
  x ∈ [TypeError; AttributeError; NotImplementedError].
Proof.
  induction e as [v h|v h|l IHl op r IHr h|op e IHe h]; simpl; intros x;
    try discriminate.
  - set (t := if has_universal_type ev r then _ else _).
    destruct (try_convert_with (visit_expr ev) l t) as [l'|y] eqn:Hl; simpl.
    + destruct (try_convert_with (visit_expr ev) r t) as [r'|y] eqn:Hr;
        simpl; [discriminate|].
      intros [= <-]. by apply (try_convert_raises r t).
    + intros [= <-]. by apply (try_convert_raises l t).
  - destruct (visit_expr ev e) as [e0|y]; simpl; [discriminate|].
    intros [= <-]. by apply IHe.
Qed.

Lemma visit_stmt_raises s : ∀ x,
  visit_stmt ev s = Raise x →
  x ∈ [TypeError; AttributeError; NotImplementedError].
Proof.
  induction s as [id e|branches IH|stmts IH|id|id|e p|l|l]
    using irt_Stmt_nested_ind; simpl; intros x; try discriminate.
  - destruct (try_convert_expr ev e _) as [e'|y] eqn:He; simpl;
      [discriminate|].
    intros [= <-]. eapply try_convert_raises; [|exact He].
    apply visit_expr_raises.
  - destruct (try_map _ branches) as [bs|y] eqn:Hbs; simpl; [discriminate|].
    intros [= <-]. apply try_map_raises in Hbs as (b & Hb & Hbs).
    apply try_map_raises in Hbs as (s & Hs & Hbs).
    rewrite Forall_forall in IH. specialize (IH _ Hb).
    rewrite Forall_forall in IH. by apply (IH _ Hs).
  - destruct (try_map _ stmts) as [ss|y] eqn:Hss; simpl; [discriminate|].
    intros [= <-]. apply try_map_raises in Hss as (s & Hs & Hss).
    rewrite Forall_forall in IH. by apply (IH _ Hs).
  - destruct (try_convert_expr ev e _) as [e'|y] eqn:He; simpl.
    + destruct p as [[prefix]|]; simpl; [|discriminate].
      destruct (visit_expr ev prefix) as [prefix'|y] eqn:Hp; simpl;
        [discriminate|].
      intros [= <-]. by apply (visit_expr_raises prefix).
    + intros [= <-]. eapply try_convert_raises; [|exact He].
      apply visit_expr_raises.
Qed.

End normalizer_meaning.

(** X5.  The pass keeps the meaning of what it rewrites.  An expression it
    converts has, under every environment, the value of the expression it
    had, or raises as it did.  A normalized program is the program
    statement by statement, reads, loops, labels and gotos included, up to
    such expressions: the same targets of assignments, splits of the same
    branches, and in the place of every expression one that means the
    same.  And the paths through split/assume code, made of assignments and
    assumptions, are feasible under the same environments and end in the
    same values. *)
Theorem normalizer_keeps_meaning ev prog prog' :
  ConvertUniversalTypes.visit_program ev prog = Ok prog' →
  Forall2 meaning.stmt_equiv (irt.stmts prog) (irt.stmts prog') ∧
  (∀ e t e',
     ConvertUniversalTypes.try_convert_expr ev e t = Ok e' →
     meaning.expr_equiv e e') ∧
  (∀ ρ, map (observe.run_path ρ) (observe.paths_of (irt.stmts prog'))
        = map (observe.run_path ρ) (observe.paths_of (irt.stmts prog))).
Proof.
  intros H. unfold ConvertUniversalTypes.visit_program in H.
  destruct (try_map _ (irt.stmts prog)) as [ss|] eqn:Hss; simplify_eq/=.
  split; [|split].
  - apply try_map_Ok in Hss. eapply Forall2_impl; [exact Hss|].
    intros s s'. apply visit_stmt_equiv.
  - intros e t e' He ρ. by eapply try_convert_expr_eval_in.
  - apply visit_stmts_paths in Hss.
    intros ρ. induction Hss as [|p p' ps ps' Hp _ IH]; simpl; [done|].
    by rewrite (run_path_related ev _ _ Hp), IH.
Qed.

Lemma normalizer_keeps_meaning_witness :
  let X := irt.Identifier examples.B_var (Some Std_Boolean) in
  let L := {| irt.label_name := "L"; irt.orig_node := None |} in
  Forall2 meaning.stmt_equiv
    [irt.ReadStmt X;
     irt.LoopStmt
       [irt.AssignStmt X
          (irt.BinExpr (irt.Lit (VInt 1) (Some Std_Universal_Int))
             (irt.bin_ops ops.LT)
             (irt.Lit (VInt 2) (Some Std_Universal_Int))
             (Some Std_Boolean));
        irt.GotoStmt L];
     irt.LabelStmt L]
    [irt.ReadStmt X;
     irt.LoopStmt
       [irt.AssignStmt X (irt.Lit (VStr "True") (Some Std_Boolean));
        irt.GotoStmt L];
     irt.LabelStmt L].
Proof.
  intros X L.
  exact (proj1 (normalizer_keeps_meaning examples.std_evaluator
    {| irt.stmts :=
         [irt.ReadStmt X;
          irt.LoopStmt
            [irt.AssignStmt X
               (irt.BinExpr (irt.Lit (VInt 1) (Some Std_Universal_Int))
                  (irt.bin_ops ops.LT)
                  (irt.Lit (VInt 2) (Some Std_Universal_Int))
                  (Some Std_Boolean));
             irt.GotoStmt L];
          irt.LabelStmt L] |}
    {| irt.stmts :=
         [irt.ReadStmt X;
          irt.LoopStmt
            [irt.AssignStmt X (irt.Lit (VStr "True") (Some Std_Boolean));
             irt.GotoStmt L];
          irt.LabelStmt L] |}
    eq_refl)).
Defined.

(** X6.  The pass rewrites expressions only: a normalized statement has the
    labels of the statement, in order, the same goto targets, and splits
    of the same branch counts. *)
Theorem normalizer_keeps_control_skeleton ev s s' :
  ConvertUniversalTypes.visit_stmt ev s = Ok s' →
  observe.label_stmts s' = observe.label_stmts s ∧
  observe.goto_targets s' = observe.goto_targets s ∧
  ∀ ok, observe.split_counts ok s' = observe.split_counts ok s.
Proof. apply visit_stmt_skeleton. Qed.

Lemma normalizer_keeps_control_skeleton_witness :
  let l := {| irt.label_name := "L"; irt.orig_node := None |} in
  let s e := irt.SplitStmt
               [[irt.AssumeStmt e None; irt.GotoStmt l]; [irt.LabelStmt l]] in
  observe.goto_targets (s (irt.Lit (VStr "True") (Some Std_Boolean)))
  = observe.goto_targets
      (s (irt.UnExpr (irt.un_ops ops.NOT)
            (irt.Lit (VStr "False") (Some Std_Boolean)) (Some Std_Boolean))).
Proof.
  intros l s.
  destruct (normalizer_keeps_control_skeleton examples.std_evaluator
    (s (irt.UnExpr (irt.un_ops ops.NOT)
          (irt.Lit (VStr "False") (Some Std_Boolean)) (Some Std_Boolean)))
    (s (irt.Lit (VStr "True") (Some Std_Boolean)))
    eq_refl) as (_ & H & _).
  exact H.
Defined.

(** X7.  [NotConstExprError] never leaves the pass: when the normalization
    of a program raises, it raises an error of a rule of the evaluator, a
    [TypeError] or an [AttributeError], or the [NotImplementedError] of
    [eval] on [None]. *)
Theorem normalizer_raises_evaluator_errors_only ev prog x :
  ConvertUniversalTypes.visit_program ev prog = Raise x →
  x ∈ [TypeError; AttributeError; NotImplementedError].
Proof.
  unfold ConvertUniversalTypes.visit_program.
  destruct (try_map _ (irt.stmts prog)) as [ss|y] eqn:Hss; simpl;
    [discriminate|].
  intros [= <-]. apply try_map_raises in Hss as (s & _ & Hs).
  by apply visit_stmt_raises in Hs.
Qed.

Lemma normalizer_raises_evaluator_errors_only_witness :
  TypeError ∈ [TypeError; AttributeError; NotImplementedError].
Proof.
  exact (normalizer_raises_evaluator_errors_only examples.std_evaluator
    {| irt.stmts :=
         [irt.AssumeStmt
            (irt.UnExpr (irt.un_ops ops.NEG)
               (irt.Lit (VStr "True") (Some Std_Boolean))
               (Some Std_Boolean)) None] |}
    TypeError eq_refl).
Defined.

(** ** The lowering of expressions *)

Section expr_pre.
Context (ctx : ExtractionContext).

Lemma synthetic_between_weaken st0 st st' st1 v :
  state_le st0 st → state_le st' st1 →
  lowered.synthetic_between st st' v → lowered.synthetic_between st0 st1 v.
Proof.
  intros (_ & _ & H0) (_ & _ & H1) (n & Hn & Hp & Hr).
  exists n. split; [done|]. split; [done|].
  specialize (H0 "tmp"). specialize (H1 "tmp"). lia.
Qed.

Lemma pre_inv_nil st st' :
  state_le st st' → lowered.pre_inv (evaluator_bool ctx) st [] 0 st'.
Proof. intros H. do 4 (split; [done|]). constructor. Qed.

Lemma pre_inv_weaken st0 st st' st1 pre n :
  state_le st0 st → state_le st' st1 →
  lowered.pre_inv (evaluator_bool ctx) st pre n st' →
  lowered.pre_inv (evaluator_bool ctx) st0 pre n st1.
Proof.
  intros H0 H1 (Hle & Hs & Hc & Hn & Hv).
  split; [eauto using state_le_trans|]. do 3 (split; [done|]).
  eapply Forall_impl; [exact Hv|]. intros v.
  by apply synthetic_between_weaken.
Qed.

Lemma pre_inv_app st a n b m st' :
  lowered.pre_inv (evaluator_bool ctx) st a n st' →
  lowered.pre_inv (evaluator_bool ctx) st b m st' →
  lowered.pre_inv (evaluator_bool ctx) st (a ++ b) (n + m) st'.
Proof.
  intros (Hle & Hs & Hc & Hn & Hv) (_ & Hs' & Hc' & Hm & Hv').
  split; [done|]. split; [by rewrite forallb_app, Hs, Hs'|].
  split; [by rewrite forallb_app, Hc, Hc'|].
  split; [by rewrite map_app, sum_list_with_app, Hn, Hm|].
  rewrite flat_map_app. by apply Forall_app.
Qed.

Lemma pre_inv_split st T n E m st' c c' :
  lowered.pre_inv (evaluator_bool ctx) st T n st' →
  lowered.pre_inv (evaluator_bool ctx) st E m st' →
  lowered.pre_inv (evaluator_bool ctx) st
    [irt.SplitStmt [irt.AssumeStmt c None :: T; irt.AssumeStmt c' None :: E]]
    (n + m) st'.
Proof.
  intros (Hle & Hs & Hc & Hn & Hv) (_ & Hs' & Hc' & Hm & Hv').
  split; [done|].
  split; [cbn [forallb lowered.pre_stmt length Nat.eqb andb];
          by rewrite Hs, Hs'|].
  split; [cbn [forallb lowered.checks_prefix andb]; by rewrite Hc, Hc'|].
  split.
  { cbn [map lowered.deref_checks sum_list_with id]. rewrite Hn, Hm. lia. }
  cbn [flat_map lowered.assigned_vars app]. rewrite !app_nil_r.
  by apply Forall_app.
Qed.

Lemma pre_inv_assign st st' v h e :
  state_le st st' → lowered.synthetic_between st st' v →
  lowered.pre_inv (evaluator_bool ctx) st
    [irt.AssignStmt (irt.Identifier v h) e] 0 st'.
Proof.
  intros Hle Hv. split; [done|]. split.
  { destruct Hv as (n & _ & Hp & _). simpl. by rewrite bool_decide_true. }
  do 2 (split; [done|]). simpl. by repeat constructor.
Qed.

Lemma pre_inv_check st st' p h :
  state_le st st' →
  lowered.pre_inv (evaluator_bool ctx) st
    [irt.AssumeStmt
       (irt.BinExpr p (irt.bin_ops ops.NEQ) (irt.Lit lits.NULL h)
          (evaluator_bool ctx))
       (Some (irt.DerefCheck p))] 1 st'.
Proof.
  intros Hle. split; [done|]. split; [done|]. split.
  { simpl. by rewrite bool_decide_true. }
  split; [done|]. constructor.
Qed.

Lemma gen_split_stmt_with_pre m k T n E m' st0 st1 out st2 st3 :
  (∀ s pre r s',
     m s = Ok ((pre, r), s') →
     lowered.pre_inv (evaluator_bool ctx) s pre k s') →
  gen_split_stmt_with m T E st1 = Ok (out, st2) →
  state_le st0 st1 → state_le st2 st3 →
  lowered.pre_inv (evaluator_bool ctx) st0 T n st3 →
  lowered.pre_inv (evaluator_bool ctx) st0 E m' st3 →
  lowered.pre_inv (evaluator_bool ctx) st0 out (k + (n + m')) st3 ∧
  state_le st1 st2.
Proof.
  intros Hm H H0 H1 HT HE. unfold gen_split_stmt_with in H.
  bind_inv H as [pre cond] st' Hc. ret_inv H.
  pose proof (Hm _ _ _ _ Hc) as Hpre. split; [|apply Hpre].
  apply pre_inv_app.
  - by eapply pre_inv_weaken.
  - by apply pre_inv_split.
Qed.

Lemma gen_split_stmt_with_le m T E st out st' :
  (∀ s pre r s', m s = Ok ((pre, r), s') → state_le s s') →
  gen_split_stmt_with m T E st = Ok (out, st') → state_le st st'.
Proof.
  intros Hm H. unfold gen_split_stmt_with in H.
  bind_inv H as [pre cond] st1 Hc. ret_inv H. eauto.
Qed.

Lemma transform_short_circuit_ops_with_pre t and_then ml kl mr kr :
  (∀ s pre r s',
     ml s = Ok ((pre, r), s') →
     lowered.pre_inv (evaluator_bool ctx) s pre kl s') →
  (∀ s pre r s',
     mr s = Ok ((pre, r), s') →
     lowered.pre_inv (evaluator_bool ctx) s pre kr s') →
  ∀ st pre r st',
    transform_short_circuit_ops_with t and_then ml mr st
      = Ok ((pre, r), st') →
    lowered.pre_inv (evaluator_bool ctx) st pre (kl + kr) st'.
Proof.
  intros Hl Hr st pre r st' H. unfold transform_short_circuit_ops_with in H.
  bind_inv H as tmp st0 Hf.
  apply fresh_name_spec in Hf as (Hn & Hc & _ & Hle0).
  bind_inv H as res_stmts st2 Hs. ret_inv H.
  set (v := {| irt.name := "tmp" +:+ pretty (counter st "tmp");
               irt.purpose := Some irt.SyntheticVariable;
               irt.var_type_hint := t |}) in *.
  assert (lowered.synthetic_between st st0 v) as Hv.
  { exists (counter st "tmp"). split; [done|]. split; [done|]. lia. }
  assert (∀ st3 e, state_le st0 st3 →
            lowered.pre_inv (evaluator_bool ctx) st
              [irt.AssignStmt (irt.Identifier v t) e] 0 st3)
    as Hassign.
  { intros st3 e Hle. apply pre_inv_assign.
    - eauto using state_le_trans.
    - eapply synthetic_between_weaken; [apply state_le_refl|exact Hle|done]. }
  destruct and_then; bind_inv Hs as inner st1 Hi.
  - assert (state_le st0 st1 ∧ state_le st1 st') as [Hle1 Hle2].
    { split.
      - eapply gen_split_stmt_with_le; [|exact Hi].
        intros s p r' s' Hm. apply (Hr _ _ _ _ Hm).
      - eapply gen_split_stmt_with_le; [|exact Hs].
        intros s p r' s' Hm. apply (Hl _ _ _ _ Hm). }
    destruct (gen_split_stmt_with_pre mr kr _ 0 _ 0 st st0 _ st1 st' Hr Hi)
      as [Hinner _]; [done|done|apply Hassign..|];
      try (eauto using state_le_trans).
    destruct (gen_split_stmt_with_pre ml kl _ (kr + (0 + 0))%nat _ 0%nat
                st st1 _ st' st' Hl Hs)
      as [Houter _];
      [eauto using state_le_trans|apply state_le_refl|exact Hinner
      |apply Hassign; eauto using state_le_trans|].
    by replace (kl + kr)%nat with (kl + (kr + (0 + 0) + 0))%nat by lia.
  - assert (state_le st0 st1 ∧ state_le st1 st') as [Hle1 Hle2].
    { split.
      - eapply gen_split_stmt_with_le; [|exact Hi].
        intros s p r' s' Hm. apply (Hr _ _ _ _ Hm).
      - eapply gen_split_stmt_with_le; [|exact Hs].
        intros s p r' s' Hm. apply (Hl _ _ _ _ Hm). }
    destruct (gen_split_stmt_with_pre mr kr _ 0 _ 0 st st0 _ st1 st' Hr Hi)
      as [Hinner _]; [done|done|apply Hassign..|];
      try (eauto using state_le_trans).
    destruct (gen_split_stmt_with_pre ml kl _ 0%nat _ (kr + (0 + 0))%nat
                st st1 _ st' st' Hl Hs)
      as [Houter _];
      [eauto using state_le_trans|apply state_le_refl
      |apply Hassign; eauto using state_le_trans|exact Hinner|].
    by replace (kl + kr)%nat with (kl + (0 + (kr + (0 + 0))))%nat by lia.
Qed.

(** The statements in front of a lowered expression. *)
Lemma transform_expr_pre e :
  ∀ st pre r st',
    transform_expr ctx e st = Ok ((pre, r), st') →
    lowered.pre_inv (evaluator_bool ctx) st pre (lowered.derefs e) st'.
Proof.
  induction e as [e IH|l op r t IHl IHr|op e t IH|c a b t IHc IHa IHb
                 |text d t|text ty t|text e t IH|text r t IH|text t|text t
                 |tok t|t|p t IH|p a t IH| |t]
    using lal_Expr_nested_ind; intros st pre res st' H; simpl in H.
  - eauto.
  - assert (∀ st pre res st',
      ('(lhs_pre_stmts, lhs) ← transform_expr ctx l;
       '(rhs_pre_stmts, rhs) ← transform_expr ctx r;
       op' ← transform_operator op 2;
       mret (lhs_pre_stmts ++ rhs_pre_stmts, irt.BinExpr lhs op' rhs t)) st
        = Ok ((pre, res), st') →
      lowered.pre_inv (evaluator_bool ctx) st pre
        (lowered.derefs l + lowered.derefs r) st') as Hplain.
    { clear H st pre res st'. intros st pre res st' H.
      bind_inv H as [lp lhs] st1 Hl. bind_inv H as [rp rhs] st2 Hr.
      bind_inv H as o st3 Ho. ret_inv H.
      apply transform_operator_spec in Ho as ->.
      pose proof (IHl _ _ _ _ Hl) as Hlp. pose proof (IHr _ _ _ _ Hr) as Hrp.
      apply pre_inv_app.
      - eapply pre_inv_weaken; [apply state_le_refl|apply Hrp|done].
      - eapply pre_inv_weaken; [apply Hlp|apply state_le_refl|done]. }
    destruct op; try exact (Hplain _ _ _ _ H);
      by apply (transform_short_circuit_ops_with_pre _ _ _ _ _ _ IHl IHr)
        in H.
  - bind_inv H as [ip ie] st1 Hi. bind_inv H as o st2 Ho. ret_inv H.
    apply transform_operator_spec in Ho as ->. eauto.
  - bind_inv H as name st0 Hf.
    apply fresh_name_spec in Hf as (Hn & Hc & _ & Hle0).
    bind_inv H as [tp te] st1 Ht. bind_inv H as [ep ee] st2 He.
    bind_inv H as split st3 Hs. ret_inv H.
    pose proof (IHa _ _ _ _ Ht) as Htp. pose proof (IHb _ _ _ _ He) as Hep.
    assert (state_le st0 st1) as Hle1 by apply Htp.
    assert (state_le st1 st2) as Hle2 by apply Hep.
    set (v := {| irt.name := "tmp" +:+ pretty (counter st "tmp");
                 irt.purpose := Some irt.SyntheticVariable;
                 irt.var_type_hint := t |}) in *.
    assert (lowered.synthetic_between st st0 v) as Hv.
    { exists (counter st "tmp"). split; [done|]. split; [done|]. lia. }
    assert (state_le st2 st') as Hle3.
    { eapply gen_split_stmt_with_le; [|exact Hs].
      intros s p r' s' Hm. apply (IHc _ _ _ _ Hm). }
    assert (∀ e, lowered.pre_inv (evaluator_bool ctx) st
                   [irt.AssignStmt (irt.Identifier v t) e] 0 st')
      as Hassign.
    { intros e. apply pre_inv_assign.
      - eauto using state_le_trans.
      - eapply synthetic_between_weaken; [apply state_le_refl| |done].
        eauto using state_le_trans. }
    destruct (gen_split_stmt_with_pre _ _ _
                (lowered.derefs a + 0) _ (lowered.derefs b + 0)
                st st2 _ st' st' IHc Hs) as [Hsplit _].
    + eauto using state_le_trans.
    + apply state_le_refl.
    + apply pre_inv_app; [|apply Hassign].
      eapply pre_inv_weaken; [exact Hle0| |exact Htp].
      eauto using state_le_trans.
    + apply pre_inv_app; [|apply Hassign].
      eapply pre_inv_weaken; [|exact Hle3|exact Hep].
      eauto using state_le_trans.
    + by replace (lowered.derefs (lal.IfExpr c a b t))
        with (lowered.derefs c +
              (lowered.derefs a + 0 + (lowered.derefs b + 0)))%nat
        by (simpl; lia).
  - bind_inv H as s st1 Hg. injection Hg as <- <-.
    bind_inv H as var st2 Hv. ret_inv H.
    apply lift_Ok in Hv as [_ <-]. apply pre_inv_nil, state_le_refl.
  - ret_inv H. apply pre_inv_nil, state_le_refl.
  - eauto.
  - eauto.
  - discriminate.
  - discriminate.
  - bind_inv H as z st1 Hz. ret_inv H. apply lift_Ok in Hz as [_ <-].
    apply pre_inv_nil, state_le_refl.
  - ret_inv H. apply pre_inv_nil, state_le_refl.
  - bind_inv H as [pp pe] st1 Hp. ret_inv H.
    pose proof (IH _ _ _ _ Hp) as Hpp.
    replace (lowered.derefs (lal.ExplicitDeref p t))
      with (lowered.derefs p + 1)%nat by (simpl; lia).
    apply pre_inv_app; [done|]. apply pre_inv_check. apply Hpp.
  - bind_inv H as [pp pe] st1 Hp. bind_inv H as o st2 Ho. ret_inv H.
    apply lift_Ok in Ho as [_ <-]. eauto.
  - discriminate.
  - discriminate.
Qed.

(** An expression without short-circuit operator, if-expression and
    dereference is lowered to an expression alone. *)
Lemma transform_expr_plain e :
  ∀ st pre r st',
    transform_expr ctx e st = Ok ((pre, r), st') →
    lowered.plain e = true → pre = [] ∧ st' = st.
Proof.
  induction e as [e IH|l op r t IHl IHr|op e t IH|c a b t IHc IHa IHb
                 |text d t|text ty t|text e t IH|text r t IH|text t|text t
                 |tok t|t|p t IH|p a t IH| |t]
    using lal_Expr_nested_ind; intros st pre res st' H Hp; simpl in H, Hp;
    try discriminate.
  - eauto.
  - assert (∀ st pre res st',
      ('(lhs_pre_stmts, lhs) ← transform_expr ctx l;
       '(rhs_pre_stmts, rhs) ← transform_expr ctx r;
       op' ← transform_operator op 2;
       mret (lhs_pre_stmts ++ rhs_pre_stmts, irt.BinExpr lhs op' rhs t)) st
        = Ok ((pre, res), st') →
      lowered.plain l && lowered.plain r = true →
      pre = [] ∧ st' = st) as Hplain.
    { clear H Hp st pre res st'. intros st pre res st' H [Hpl Hpr]%andb_prop.
      bind_inv H as [lp lhs] st1 Hl. bind_inv H as [rp rhs] st2 Hr.
      bind_inv H as o st3 Ho. ret_inv H.
      apply transform_operator_spec in Ho as ->.
      destruct (IHl _ _ _ _ Hl Hpl) as [-> ->].
      by destruct (IHr _ _ _ _ Hr Hpr) as [-> ->]. }
    destruct op; try discriminate; exact (Hplain _ _ _ _ H Hp).
  - bind_inv H as [ip ie] st1 Hi. bind_inv H as o st2 Ho. ret_inv H.
    apply transform_operator_spec in Ho as ->. eauto.
  - bind_inv H as s st1 Hg. injection Hg as <- <-.
    bind_inv H as var st2 Hv. ret_inv H.
    by apply lift_Ok in Hv as [_ <-].
  - by ret_inv H.
  - eauto.
  - eauto.
  - bind_inv H as z st1 Hz. ret_inv H. by apply lift_Ok in Hz as [_ <-].
  - by ret_inv H.
  - bind_inv H as [pp pe] st1 Hpp. bind_inv H as o st2 Ho. ret_inv H.
    apply lift_Ok in Ho as [_ <-]. eauto.
Qed.

End expr_pre.

(** X8.  An expression that holds no short-circuit operator, no
    if-expression and no dereference, also behind the named numbers and
    type ranges it refers to, lowers to an expression alone: no statement
    goes in front of it, and no name is drawn. *)
Theorem plain_expression_lowers_alone ctx e st pre r st' :
  transform_expr ctx e st = Ok ((pre, r), st') →
  lowered.plain e = true →
  pre = [] ∧ st' = st.
Proof. apply transform_expr_plain. Qed.

Lemma plain_expression_lowers_alone_witness :
  ∃ pre r st',
    transform_expr examples.ctx
      (lal.BinOp examples.X lal.OpPlus (examples.int_literal "1")
         (Some Std_Integer))
      examples.X_declared = Ok ((pre, r), st') ∧
    pre = [] ∧ st' = examples.X_declared.
Proof.
  eexists _, _, _. split; [vm_compute; reflexivity|].
  eapply (plain_expression_lowers_alone examples.ctx
            (lal.BinOp examples.X lal.OpPlus (examples.int_literal "1")
               (Some Std_Integer))
            examples.X_declared);
    [vm_compute; reflexivity|reflexivity].
Defined.

(** X9.  Every dereference that the lowering of an expression meets gets
    one assumption marked as its check, wherever the statements in front
    of the expression nest it, and each marked assumption states that the
    prefix it is marked with differs from [null]. *)
Theorem every_dereference_is_checked_once ctx e st pre r st' :
  transform_expr ctx e st = Ok ((pre, r), st') →
  sum_list (map lowered.deref_checks pre) = lowered.derefs e ∧
  forallb (lowered.checks_prefix (evaluator_bool ctx)) pre = true.
Proof.
  intros H. apply transform_expr_pre in H as (_ & _ & Hc & Hn & _). done.
Qed.

Lemma every_dereference_is_checked_once_witness :
  ∃ pre r st',
    transform_expr examples.ctx
      (lal.IfExpr examples.True_literal
         (lal.ExplicitDeref (lal.ExplicitDeref examples.X None) None)
         (lal.ExplicitDeref examples.X None) None)
      examples.X_declared = Ok ((pre, r), st') ∧
    sum_list (map lowered.deref_checks pre) = 3%nat.
Proof.
  eexists _, _, _. split; [vm_compute; reflexivity|].
  eapply (every_dereference_is_checked_once examples.ctx
            (lal.IfExpr examples.True_literal
               (lal.ExplicitDeref (lal.ExplicitDeref examples.X None) None)
               (lal.ExplicitDeref examples.X None) None)
            examples.X_declared).
  vm_compute; reflexivity.
Defined.

(** X10.  The statements in front of a lowered expression are assumptions,
    assignments to identifiers of synthetic variables, and splits in
    exactly two branches of such statements: no loop, read, use, goto or
    label.  The variables assigned are the [tmp<n>] drawn during this
    lowering. *)
Theorem expression_pre_statements_form ctx e st pre r st' :
  transform_expr ctx e st = Ok ((pre, r), st') →
  forallb lowered.pre_stmt pre = true ∧
  Forall (lowered.synthetic_between st st')
    (flat_map lowered.assigned_vars pre).
Proof.
  intros H. apply transform_expr_pre in H as (_ & Hs & _ & _ & Hv). done.
Qed.

Lemma expression_pre_statements_form_witness :
  ∃ pre r st',
    transform_expr examples.ctx
      (lal.BinOp examples.B lal.OpOrElse examples.C (Some Std_Boolean))
      examples.B_C_declared = Ok ((pre, r), st') ∧
    forallb lowered.pre_stmt pre = true.
Proof.
  eexists _, _, _. split; [vm_compute; reflexivity|].
  eapply (expression_pre_statements_form examples.ctx
            (lal.BinOp examples.B lal.OpOrElse examples.C (Some Std_Boolean))
            examples.B_C_declared).
  vm_compute; reflexivity.
Defined.

(** ** Operators, literals and the guards of a split *)

(** X12.  An operator or an attribute without an entry in the tables of the
    frontend makes the lowering raise [KeyError], once its operands are
    lowered: a failure of an operand comes first, and the failure is not
    the [NotImplementedError] of an unsupported node. *)
Theorem operator_without_entry_raises_KeyError ctx :
  (∀ l op r t st lp lhs st1 rp rhs st2,
     _lal_op_type_2_symbol op 2 = None →
     op ≠ lal.OpAndThen → op ≠ lal.OpOrElse →
     transform_expr ctx l st = Ok ((lp, lhs), st1) →
     transform_expr ctx r st1 = Ok ((rp, rhs), st2) →
     transform_expr ctx (lal.BinOp l op r t) st = Raise KeyError) ∧
  (∀ op e t st ep ee st1,
     _lal_op_type_2_symbol op 1 = None →
     transform_expr ctx e st = Ok ((ep, ee), st1) →
     transform_expr ctx (lal.UnOp op e t) st = Raise KeyError) ∧
  (∀ p a t st pp pe st1,
     _attr_2_unop a = None →
     transform_expr ctx p st = Ok ((pp, pe), st1) →
     transform_expr ctx (lal.AttributeRef p a t) st = Raise KeyError).
Proof.
  split; [|split].
  - intros l op r t st lp lhs st1 rp rhs st2 Hop Hna Hno Hl Hr.
    destruct op; try done; simpl;
      unfold mbind, M_bind; rewrite Hl; cbn beta iota; rewrite Hr;
      reflexivity.
  - intros op e t st ep ee st1 Hop He. simpl.
    unfold mbind, M_bind. rewrite He. cbn beta iota.
    unfold transform_operator, lift. by rewrite Hop.
  - intros p a t st pp pe st1 Ha Hp. simpl.
    unfold mbind, M_bind. rewrite Hp. cbn beta iota.
    unfold lift. by rewrite Ha.
Qed.

Lemma int_digits_cons acc c s d :
  digit_of c = Some d →
  int_digits acc (String c s) = int_digits (10 * acc + d) s.
Proof. intros H. cbn [int_digits]. by rewrite H. Qed.

Lemma digit_of_pretty_N_char d :
  (d < 10)%N → digit_of (pretty_N_char d) = Some (Z.of_N d).
Proof.
  intros Hd.
  assert (d = 0 ∨ d = 1 ∨ d = 2 ∨ d = 3 ∨ d = 4 ∨ d = 5 ∨ d = 6 ∨ d = 7
          ∨ d = 8 ∨ d = 9)%N as H by lia.
  repeat (destruct H as [->|H]; [reflexivity|]). by subst.
Qed.

(** Reading back the digits that [pretty] writes in front of [s]. *)
Lemma int_digits_pretty_N_go x : ∀ s,
  ∃ k, (0 ≤ k)%Z ∧
    ∀ acc, int_digits acc (pretty_N_go x s)
           = int_digits (acc * 10 ^ k + Z.of_N x)%Z s.
Proof.
  induction (N.lt_wf_0 x) as [x _ IH]; intros s.
  destruct (decide (x = 0)%N) as [->|Hx].
  - exists 0%Z. split; [done|]. intros acc. rewrite pretty_N_go_0.
    f_equal. lia.
  - rewrite pretty_N_go_step by lia.
    destruct (IH (x `div` 10)%N) with
      (s := String (pretty_N_char (x `mod` 10)) s) as (k & Hk & Hgo).
    { apply N.div_lt; lia. }
    exists (k + 1)%Z. split; [lia|]. intros acc. rewrite Hgo.
    rewrite (int_digits_cons _ _ _ (Z.of_N (x `mod` 10)))
      by (apply digit_of_pretty_N_char, N.mod_lt; lia).
    f_equal. rewrite Z.pow_add_r by lia.
    rewrite N2Z.inj_div, N2Z.inj_mod.
    pose proof (Z.div_mod (Z.of_N x) 10). change (Z.of_N 10) with 10%Z.
    generalize dependent (10 ^ k)%Z. intros. lia.
Qed.

Lemma py_int_pretty (n : N) : py_int (pretty n) = Ok (Z.of_N n).
Proof.
  unfold pretty, pretty_N. case_decide as Hn; [by subst|].
  destruct (int_digits_pretty_N_go n "") as (k & _ & Hgo).
  specialize (Hgo 0%Z). simpl in Hgo. unfold py_int.
  destruct (pretty_N_go n "") as [|c s] eqn:Hs.
  - simpl in Hgo. injection Hgo as Hgo. lia.
  - rewrite Hgo. done.
Qed.

Lemma int_digits_not_digit s1 c s2 : ∀ acc,
  digit_of c = None → int_digits acc (s1 +:+ String c s2) = None.
Proof.
  induction s1 as [|c1 s1 IH]; intros acc Hc.
  - change ("" +:+ String c s2) with (String c s2).
    cbn [int_digits]. by rewrite Hc.
  - change (String c1 s1 +:+ String c s2)
      with (String c1 (s1 +:+ String c s2)).
    cbn [int_digits]. destruct (digit_of c1); [|done]. by apply IH.
Qed.

(** X13.  The token of an integer literal is read as decimal digits: the
    decimal numeral of [n] lowers to the literal [n], with nothing in
    front, an [int] up to [sys.maxint] and a [long] beyond; a token with
    an underscore, with the [#] of a based literal or with the [E] of an
    exponent makes the lowering raise [ValueError], and so does the empty
    token. *)
Theorem integer_literal_is_read_as_decimal_digits ctx :
  (∀ (n : N) t st,
     transform_expr ctx (lal.IntLiteral (pretty n) t) st
       = Ok (([], irt.Lit (if (Z.of_N n <=? maxint)%Z
                           then VInt (Z.of_N n) else VLong (Z.of_N n)) t),
             st)) ∧
  (∀ s1 sep s2 t st,
     sep ∈ ["_"; "#"; "E"; "e"] →
     transform_expr ctx (lal.IntLiteral (s1 +:+ sep +:+ s2) t) st
       = Raise ValueError) ∧
  (∀ t st, transform_expr ctx (lal.IntLiteral "" t) st = Raise ValueError).
Proof.
  split; [|split].
  - intros n t st. simpl. unfold mbind, M_bind, lift.
    rewrite py_int_pretty. unfold py_integer.
    replace (- maxint - 1 <=? Z.of_N n)%Z with true; [done|].
    symmetry. apply Z.leb_le. unfold maxint. lia.
  - intros s1 sep s2 t st Hsep.
    assert (∃ c, digit_of c = None ∧ sep +:+ s2 = String c s2)
      as (c & Hd & ->).
    { repeat (apply elem_of_cons in Hsep as [->|Hsep];
              [eexists; split; [|reflexivity]; reflexivity|]).
      by apply elem_of_nil in Hsep. }
    simpl. unfold mbind, M_bind, lift, py_int.
    rewrite (int_digits_not_digit s1 c s2 0 Hd).
    by destruct s1.
  - done.
Qed.

(** X14.  The two branches of the split that [gen_split_stmt] builds are
    guarded by a condition and by its negation, and under every
    environment at most one of them can be entered: when the condition has
    a value, exactly the branch that the truth of the value selects goes
    on, and when it has none, neither does. *)
Theorem split_guards_are_exclusive ctx cond then_stmts else_stmts st out st' :
  gen_split_stmt ctx cond then_stmts else_stmts st = Ok (out, st') →
  ∃ pre c,
    let not_c := irt.UnExpr (irt.un_ops ops.NOT) c (irt.type_hint_of c) in
    out = pre ++ [irt.SplitStmt [irt.AssumeStmt c None :: then_stmts;
                                 irt.AssumeStmt not_c None :: else_stmts]] ∧
    ∀ ρ p q,
      match observe.eval_in ρ c with
      | Ok v =>
          observe.run_path ρ (irt.AssumeStmt c None :: p)
            = (if ConstExprEvaluator.to_bool v
               then observe.run_path ρ p else None) ∧
          observe.run_path ρ (irt.AssumeStmt not_c None :: q)
            = (if ConstExprEvaluator.to_bool v
               then None else observe.run_path ρ q)
      | Raise _ =>
          observe.run_path ρ (irt.AssumeStmt c None :: p) = None ∧
          observe.run_path ρ (irt.AssumeStmt not_c None :: q) = None
      end.
Proof.
  intros H. unfold gen_split_stmt, gen_split_stmt_with in H.
  bind_inv H as [pre c] st1 Hc. ret_inv H.
  exists pre, c. split; [done|]. intros ρ p q. simpl.
  destruct (observe.eval_in ρ c) as [v|e]; simpl.
  - split; [done|]. rewrite to_bool_from_bool.
    by destruct (ConstExprEvaluator.to_bool v).
  - split; [done|]. by destruct e.
Qed.

Lemma split_guards_are_exclusive_witness :
  ∃ out st',
    gen_split_stmt examples.ctx examples.B [] [] examples.B_C_declared
      = Ok (out, st') ∧
    ∃ pre c,
      out = pre ++
        [irt.SplitStmt
           [[irt.AssumeStmt c None];
            [irt.AssumeStmt
               (irt.UnExpr (irt.un_ops ops.NOT) c (irt.type_hint_of c))
               None]]] ∧
      observe.run_path examples.B_true_C_false
        [irt.AssumeStmt
           (irt.UnExpr (irt.un_ops ops.NOT) c (irt.type_hint_of c)) None]
      = None.
Proof.
  eexists _, _. split; [vm_compute; reflexivity|].
  destruct (split_guards_are_exclusive examples.ctx examples.B [] []
              examples.B_C_declared _ _ eq_refl) as (pre & c & Hout & Hrun).
  exists pre, c. split; [exact Hout|].
  apply app_inj_tail in Hout as [<- [= <-]].
  exact (proj2 (Hrun examples.B_true_C_false [] [])).
Defined.

(** ** Declarations and statements *)

Lemma forallb_Forall {A} (f : A → bool) l :
  forallb f l = true ↔ Forall (λ x, f x = true) l.
Proof.
  induction l as [|x l IH]; simpl; [by split; [constructor|]|].
  rewrite andb_true_iff, IH, Forall_cons. done.
Qed.

Lemma get_var_decl_Some key st var :
  var_decls st !! key = Some var → get_var_decl key st = Ok (var, st).
Proof.
  intros H. unfold get_var_decl, mbind, M_bind, get_state, lift. simpl.
  by rewrite H.
Qed.

Lemma get_var_decl_None key st :
  var_decls st !! key = None → get_var_decl key st = Raise KeyError.
Proof.
  intros H. unfold get_var_decl, mbind, M_bind, get_state, lift. simpl.
  by rewrite H.
Qed.

(** The loop that sets [var_decls] for the names of an object
    declaration. *)
Lemma register_names node t ids : ∀ st,
  ∃ us st',
    for_each (λ text,
      set_var_decl (node, text) (lowered.declared_var text t)) ids st
      = Ok (us, st') ∧
    tmp_vars st' = tmp_vars st ∧
    loop_stack st' = loop_stack st ∧
    (∀ text, text ∈ ids →
       var_decls st' !! (node, text) = Some (lowered.declared_var text t)) ∧
    (∀ key, key ∉ map (λ text, (node, text)) ids →
       var_decls st' !! key = var_decls st !! key).
Proof.
  induction ids as [|x ids IH]; intros st.
  - exists [], st. split; [done|]. do 2 (split; [done|]).
    split; [|done]. intros text Hin. by apply elem_of_nil in Hin.
  - set (st1 := {| tmp_vars := tmp_vars st;
                   var_decls :=
                     <[(node, x) := lowered.declared_var x t]> (var_decls st);
                   loop_stack := loop_stack st |}).
    destruct (IH st1) as (us & st' & Hf & Ht & Hl & Hin & Hout).
    exists (tt :: us), st'. split.
    { simpl.
      rewrite (bind_step _ _ st tt st1) by reflexivity. cbn beta iota.
      by rewrite (bind_step _ _ _ _ _ Hf). }
    do 2 (split; [done|]). split.
    + intros text Htext. destruct (decide (text ∈ ids)) as [?|Hnot];
        [by apply Hin|].
      apply elem_of_cons in Htext as [->|?]; [|done].
      rewrite Hout; [by apply lookup_insert_eq|].
      change (map (λ text, (node, text)) ids)
        with ((λ text, (node, text)) <$> ids).
      intros (y & [= <-] & Hy)%list_elem_of_fmap. done.
    + intros key Hkey.
      change (map (λ text, (node, text)) (x :: ids))
        with ((node, x) :: ((λ text, (node, text)) <$> ids)) in Hkey.
      apply not_elem_of_cons in Hkey as [Hne Hkey].
      rewrite (Hout _ Hkey). simpl. by apply lookup_insert_ne.
Qed.

(** The loop that makes one statement per name of an object
    declaration. *)
Lemma for_each_declared {B} node t (f : irt.Var → B) ids st :
  (∀ text, text ∈ ids →
     var_decls st !! (node, text) = Some (lowered.declared_var text t)) →
  for_each (λ text, var ← get_var_decl (node, text); mret (f var)) ids st
  = Ok (map (λ text, f (lowered.declared_var text t)) ids, st).
Proof.
  induction ids as [|x ids IH]; intros Hin; [done|]. simpl.
  assert ((var ← get_var_decl (node, x); mret (f var)) st
          = Ok (f (lowered.declared_var x t), st)) as Hx.
  { rewrite (bind_step _ _ _ _ _
               (get_var_decl_Some _ _ _ (Hin x (list_elem_of_here _ _)))).
    done. }
  rewrite (bind_step _ _ _ _ _ Hx). cbn beta iota.
  rewrite (bind_step _ _ _ _ _
             (IH (λ text Ht, Hin text (list_elem_of_further _ _ _ Ht)))).
  done.
Qed.

Lemma transform_expr_state_le ctx e st pre r st' :
  transform_expr ctx e st = Ok ((pre, r), st') → state_le st st'.
Proof.
  intros H. by apply (transform_expr_shape ctx (λ _, True)) in H as [_ ?].
Qed.

Lemma transform_stmt_state_le ctx label_decls s st out st' :
  transform_stmt ctx label_decls s st = Ok (out, st') → state_le st st'.
Proof.
  intros H.
  by apply (transform_stmt_shape ctx label_decls (λ _, True)) in H as [_ ?].
Qed.

Lemma transform_stmts_state_le ctx label_decls ss st out st' :
  transform_stmts ctx label_decls ss st = Ok (out, st') → state_le st st'.
Proof.
  intros H.
  by apply (transform_stmts_shape ctx label_decls (λ _, True)) in H as [_ ?].
Qed.

(** What an object declaration lowers to, and what it leaves in
    [var_decls]. *)
Lemma transform_object_decl ctx node ids t dflt st out st' :
  transform_decl ctx (lal.ObjectDecl node ids t dflt) st = Ok (out, st') →
  (∀ text, text ∈ ids →
     var_decls st' !! (node, text) = Some (lowered.declared_var text t)) ∧
  (∀ key, key ∉ map (λ text, (node, text)) ids →
     var_decls st' !! key = var_decls st !! key) ∧
  match dflt with
  | None =>
      out = map (λ text,
              irt.ReadStmt (irt.Identifier (lowered.declared_var text t) t))
              ids
  | Some d =>
      ∃ pre e st0 st1,
        transform_expr ctx d st0 = Ok ((pre, e), st1) ∧
        out = pre ++
          map (λ text,
            irt.AssignStmt (irt.Identifier (lowered.declared_var text t) t) e)
            ids
  end.
Proof.
  intros H. simpl in H. bind_inv H as us st1 Hu.
  destruct (register_names node t ids st)
    as (us' & st1' & Hf & _ & _ & Hin & Hout).
  change (λ text : string,
            set_var_decl (node, text)
              {| irt.name := text; irt.purpose := None;
                 irt.var_type_hint := t |})
    with (λ text : string,
            set_var_decl (node, text) (lowered.declared_var text t)) in Hu.
  rewrite Hf in Hu. injection Hu as <- <-.
  destruct dflt as [d|].
  - bind_inv H as [pre e] st2 He. bind_inv H as assigns st3 Ha. ret_inv H.
    pose proof (transform_expr_state_le _ _ _ _ _ _ He) as (Hv & _ & _).
    rewrite (for_each_declared node t
               (λ var, irt.AssignStmt (irt.Identifier var t) e)) in Ha
      by (intros text Ht; rewrite Hv; by apply Hin).
    injection Ha as <- <-.
    split; [intros text Ht; rewrite Hv; by apply Hin|].
    split; [intros key Hk; rewrite Hv; by apply Hout|].
    by eexists pre, e, _, _.
  - rewrite (for_each_declared node t
               (λ var, irt.ReadStmt (irt.Identifier var t))) in H
      by done.
    injection H as <- <-. done.
Qed.

Lemma transform_decl_var_decls ctx decl st out st' key :
  transform_decl ctx decl st = Ok (out, st') →
  key ∉ lowered.declared_keys decl →
  var_decls st' !! key = var_decls st !! key.
Proof.
  destruct decl as [| |node ids t dflt|]; intros H Hkey.
  - simpl in H. by ret_inv H.
  - simpl in H. by ret_inv H.
  - apply transform_object_decl in H as (_ & Hout & _). by apply Hout.
  - discriminate.
Qed.

Lemma transform_decls_var_decls ctx decls st out st' key :
  transform_decls ctx decls st = Ok (out, st') →
  key ∉ flat_map lowered.declared_keys decls →
  var_decls st' !! key = var_decls st !! key.
Proof.
  unfold transform_decls. intros H. bind_inv H as outs st1 Ho. ret_inv H.
  revert st outs Ho.
  induction decls as [|d ds IH]; simpl; intros st outs Ho Hkey.
  - by ret_inv Ho.
  - bind_inv Ho as y st2 Hy. bind_inv Ho as ys st3 Hys. ret_inv Ho.
    apply not_elem_of_app in Hkey as [Hd Hds].
    rewrite (IH _ _ Hys Hds). by eapply transform_decl_var_decls.
Qed.

(** The lowering of a statement list raises when one of its statements
    does in every state that follows the state in which the list is
    entered. *)
Lemma transform_stmts_raises_from ctx label_decls before s after st :
  (∀ st1, state_le st st1 →
     ∃ e, transform_stmt ctx label_decls s st1 = Raise e) →
  ∃ e, transform_stmts ctx label_decls (before ++ s :: after) st = Raise e.
Proof.
  unfold transform_stmts. revert st.
  induction before as [|b before IH]; simpl; intros st Hs.
  - destruct (Hs st (state_le_refl st)) as [e He]. exists e.
    by apply bind_Raise.
  - unfold mbind at 1, M_bind at 1.
    destruct (transform_stmt ctx label_decls b st) as [[out st1]|e] eqn:Hb;
      [|eauto].
    destruct (IH st1) as [e He].
    { intros st2 Hle. apply Hs.
      eapply state_le_trans; [|exact Hle].
      by eapply transform_stmt_state_le. }
    exists e. by apply bind_Raise.
Qed.

Lemma _gen_ir_raises_at ctx decls before s after :
  (∀ out st1 label_decls st2,
     transform_decls ctx decls initial_state = Ok (out, st1) →
     state_le st1 st2 →
     ∃ e, transform_stmt ctx label_decls s st2 = Raise e) →
  ∃ e, _gen_ir ctx {| lal.f_decls := decls;
                      lal.f_subp_stmts := before ++ s :: after |} = Raise e.
Proof.
  intros Hs. unfold _gen_ir. simpl. unfold mbind at 1, M_bind at 1.
  destruct (transform_decls ctx decls initial_state) as [[out st1]|e] eqn:Hd;
    [|eauto].
  edestruct (transform_stmts_raises_from ctx
               (flat_map lal.findall_LabelDecl (before ++ s :: after))
               before s after st1) as [e He]; [by eauto|].
  exists e. by rewrite (bind_Raise _ _ _ _ He).
Qed.

Lemma transform_stmts_with_app f a b st out st' :
  transform_stmts_with f (a ++ b) st = Ok (out, st') →
  ∃ o1 st1 o2,
    transform_stmts_with f a st = Ok (o1, st1) ∧
    transform_stmts_with f b st1 = Ok (o2, st') ∧
    out = o1 ++ o2.
Proof.
  revert st out. induction a as [|x a IH]; simpl; intros st out H.
  - by exists [], st, out.
  - bind_inv H as o st1 Hx. bind_inv H as os st2 Hos. ret_inv H.
    destruct (IH _ _ Hos) as (o1 & st3 & o2 & Ha & Hb & ->).
    exists (o ++ o1), st3, o2. split; [|split; [done|by rewrite app_assoc]].
    rewrite (bind_step _ _ _ _ _ Hx). by rewrite (bind_step _ _ _ _ _ Ha).
Qed.

(** The goto that an [exit] without a loop name lowers to, inside a loop
    whose entry is on top of the stack. *)
Lemma exit_goes_to_top ctx label_decls cond st stack node l out st' :
  loop_stack st = stack ++ [(node, l)] →
  transform_stmt ctx label_decls (lal.ExitStmt None cond) st = Ok (out, st') →
  l ∈ flat_map observe.goto_targets out.
Proof.
  intros Hstack H. simpl in H. bind_inv H as entry st1 He.
  unfold loop_stack_top in He. bind_inv He as s st2 Hg.
  injection Hg as <- <-. rewrite Hstack, last_snoc in He. ret_inv He.
  destruct cond as [cond|].
  - apply gen_split_stmt_labels in H as (_ & -> & _). simpl.
    apply list_elem_of_here.
  - ret_inv H. simpl. apply list_elem_of_here.
Qed.

Lemma loop_body_exit ctx label_decls before cond after st stack node l
    body st' :
  loop_stack st = stack ++ [(node, l)] →
  transform_stmts ctx label_decls
    (before ++ lal.ExitStmt None cond :: after) st = Ok (body, st') →
  l ∈ flat_map observe.goto_targets body.
Proof.
  intros Hstack H. unfold transform_stmts in H.
  apply transform_stmts_with_app in H as (o1 & st1 & o2 & Ha & Hb & ->).
  apply (transform_stmts_state_le ctx label_decls) in Ha as (_ & Hl & _).
  simpl in Hb. bind_inv Hb as o st2 Hx. bind_inv Hb as os st3 Hos.
  ret_inv Hb. rewrite !flat_map_app, !elem_of_app. right. left.
  apply (exit_goes_to_top ctx label_decls cond st1 stack node l o st2);
    [by rewrite Hl|exact Hx].
Qed.

(** X15.  An object declaration first enters each of its names in
    [var_decls], under the node of the declaration, as a variable of the
    declared type that is not synthetic, and leaves every other entry as
    it was.  Without a default expression it always lowers, to one read
    statement per name, in order; with one, the expression is lowered
    once, and the statements in front of it are followed by one assignment
    per name, all of the same lowered expression. *)
Theorem object_declaration_lowering ctx node ids t :
  (∀ st, ∃ st',
     transform_decl ctx (lal.ObjectDecl node ids t None) st
       = Ok (map (λ text,
               irt.ReadStmt (irt.Identifier (lowered.declared_var text t) t))
               ids, st')) ∧
  (∀ dflt st out st',
     transform_decl ctx (lal.ObjectDecl node ids t dflt) st = Ok (out, st') →
     (∀ text, text ∈ ids →
        var_decls st' !! (node, text) = Some (lowered.declared_var text t)) ∧
     (∀ key, key ∉ lowered.declared_keys (lal.ObjectDecl node ids t dflt) →
        var_decls st' !! key = var_decls st !! key)) ∧
  (∀ d st out st',
     transform_decl ctx (lal.ObjectDecl node ids t (Some d)) st
       = Ok (out, st') →
     ∃ pre e st0 st1,
       transform_expr ctx d st0 = Ok ((pre, e), st1) ∧
       out = pre ++
         map (λ text,
           irt.AssignStmt (irt.Identifier (lowered.declared_var text t) t) e)
           ids).
Proof.
  split; [|split].
  - intros st.
    destruct (register_names node t ids st)
      as (us & st1 & Hf & _ & _ & Hin & _).
    exists st1. simpl.
    change (λ text : string,
              set_var_decl (node, text)
                {| irt.name := text; irt.purpose := None;
                   irt.var_type_hint := t |})
      with (λ text : string,
              set_var_decl (node, text) (lowered.declared_var text t)).
    rewrite (bind_step _ _ _ _ _ Hf).
    by apply (for_each_declared node t
                (λ var, irt.ReadStmt (irt.Identifier var t))).
  - intros dflt st out st' H.
    apply transform_object_decl in H as (Hin & Hout & _). done.
  - intros d st out st' H.
    apply transform_object_decl in H as (_ & _ & H). done.
Qed.

(** X16.  A subprogram that assigns to an object that none of its own
    declarations declares, a parameter or a global variable, is not
    lowered: the lookup of the target in [var_decls] raises [KeyError],
    unless something raised before. *)
Theorem assignment_to_undeclared_object_fails ctx decls before dest e after :
  (lal.dest_decl dest, lal.dest_text dest)
    ∉ flat_map lowered.declared_keys decls →
  ∃ x, _gen_ir ctx
         {| lal.f_decls := decls;
            lal.f_subp_stmts := before ++ lal.AssignStmt dest e :: after |}
       = Raise x.
Proof.
  intros Hkey. apply _gen_ir_raises_at.
  intros out st1 label_decls st2 Hd (Hv & _ & _).
  apply (transform_decls_var_decls _ _ _ _ _ _ Hd) in Hkey.
  destruct (transform_expr ctx e st2) as [[[pre r] st3]|err] eqn:He.
  - exists KeyError. simpl. rewrite (bind_step _ _ _ _ _ He). cbn beta iota.
    apply bind_Raise. apply get_var_decl_None.
    apply transform_expr_state_le in He as (-> & _ & _).
    by rewrite Hv, Hkey.
  - exists err. simpl. by apply bind_Raise.
Qed.

Lemma assignment_to_undeclared_object_fails_witness :
  ∃ x, _gen_ir examples.ctx
         {| lal.f_decls := [lal.TypeDecl];
            lal.f_subp_stmts :=
              [lal.AssignStmt examples.X_dest (examples.int_literal "0")] |}
       = Raise x.
Proof.
  apply (assignment_to_undeclared_object_fails examples.ctx [lal.TypeDecl] []
           examples.X_dest (examples.int_literal "0") []).
  simpl. apply not_elem_of_nil.
Defined.

(** X17.  An [exit] statement that is in no loop is not lowered: where the
    loop stack is empty, an [exit] without a loop name raises [IndexError]
    and one with a loop name raises [StopIteration], and no program is
    returned for a subprogram with an [exit] among its own statements. *)
Theorem exit_outside_loop_fails ctx :
  (∀ label_decls cond st,
     loop_stack st = [] →
     transform_stmt ctx label_decls (lal.ExitStmt None cond) st
       = Raise IndexError) ∧
  (∀ label_decls ref_loop cond st,
     ref_loop ∉ (loop_stack st).*1 →
     transform_stmt ctx label_decls (lal.ExitStmt (Some ref_loop) cond) st
       = Raise StopIteration) ∧
  (∀ decls before name cond after,
     ∃ x, _gen_ir ctx
            {| lal.f_decls := decls;
               lal.f_subp_stmts := before ++ lal.ExitStmt name cond :: after |}
          = Raise x).
Proof.
  assert (∀ label_decls cond st,
     loop_stack st = [] →
     transform_stmt ctx label_decls (lal.ExitStmt None cond) st
       = Raise IndexError) as Htop.
  { intros label_decls cond st Hs. simpl. apply bind_Raise.
    unfold loop_stack_top, mbind, M_bind, get_state. by rewrite Hs. }
  assert (∀ label_decls ref_loop cond st,
     ref_loop ∉ (loop_stack st).*1 →
     transform_stmt ctx label_decls (lal.ExitStmt (Some ref_loop) cond) st
       = Raise StopIteration) as Hfind.
  { intros label_decls ref_loop cond st Hs. simpl. apply bind_Raise.
    unfold loop_stack_find, mbind, M_bind, get_state.
    destruct (filter _ (loop_stack st)) as [|entry rest] eqn:Hf; [done|].
    exfalso. apply Hs.
    assert (entry ∈ filter (λ loop, loop.1 = ref_loop) (loop_stack st))
      as [Hentry Hin]%list_elem_of_filter
      by (rewrite Hf; apply list_elem_of_here).
    rewrite <- Hentry. by apply list_elem_of_fmap_2. }
  split; [exact Htop|]. split; [exact Hfind|].
  intros decls before name cond after. apply _gen_ir_raises_at.
  intros out st1 label_decls st2 Hd (_ & Hl & _).
  apply transform_decls_loop_stack in Hd. simpl in Hd.
  rewrite Hd in Hl. destruct name as [ref_loop|].
  - exists StopIteration. apply Hfind. rewrite Hl.
    apply not_elem_of_nil.
  - exists IndexError. by apply Htop.
Qed.

(** X18.  An [exit] without a loop name that stands among the statements
    of a loop, or of a while loop, lowers to a jump to the exit label of
    that loop: the label that follows the lowered loop is a target of a
    goto of its body. *)
Theorem exit_jumps_behind_its_loop ctx label_decls node before cond after :
  (∀ st out st',
     transform_stmt ctx label_decls
       (lal.LoopStmt node (before ++ lal.ExitStmt None cond :: after)) st
       = Ok (out, st') →
     ∃ body exit,
       out = [irt.LoopStmt body; irt.LabelStmt exit] ∧
       exit ∈ flat_map observe.goto_targets body) ∧
  (∀ guard st out st',
     transform_stmt ctx label_decls
       (lal.WhileLoopStmt node guard
          (before ++ lal.ExitStmt None cond :: after)) st
       = Ok (out, st') →
     ∃ body not_guard exit,
       out = [irt.LoopStmt body; irt.AssumeStmt not_guard None;
              irt.LabelStmt exit] ∧
       exit ∈ flat_map observe.goto_targets body).
Proof.
  split.
  - intros st out st' H. simpl in H.
    bind_inv H as name st1 Hn. bind_inv H as [] st2 Ha.
    bind_inv H as body st3 Hb. bind_inv H as [] st4 Hp. ret_inv H.
    eexists _, _. split; [done|].
    apply loop_stack_append_spec in Ha as (Hstack & _ & _).
    by eapply (loop_body_exit ctx label_decls before cond after st2).
  - intros guard st out st' H. simpl in H.
    bind_inv H as [pre c] st0 Hc.
    bind_inv H as name st1 Hn. bind_inv H as [] st2 Ha.
    bind_inv H as body st3 Hb. bind_inv H as [] st4 Hp. ret_inv H.
    eexists _, _, _. split; [done|].
    apply loop_stack_append_spec in Ha as (Hstack & _ & _).
    rewrite flat_map_app, elem_of_app. right. simpl.
    by eapply (loop_body_exit ctx label_decls before cond after st2).
Qed.

Lemma exit_jumps_behind_its_loop_witness :
  ∃ body exit st',
    transform_stmt examples.ctx []
      (lal.LoopStmt 7
         [lal.ExitStmt None
            (Some (lal.BinOp examples.X lal.OpEq (examples.int_literal "0")
                     (Some Std_Boolean)));
          lal.AssignStmt examples.X_dest (examples.int_literal "0")])
      examples.X_declared
    = Ok ([irt.LoopStmt body; irt.LabelStmt exit], st') ∧
    exit ∈ flat_map observe.goto_targets body.
Proof.
  eexists _, _, _. split; [vm_compute; reflexivity|].
  destruct (exit_jumps_behind_its_loop examples.ctx [] 7 []
              (Some (lal.BinOp examples.X lal.OpEq (examples.int_literal "0")
                       (Some Std_Boolean)))
              [lal.AssignStmt examples.X_dest (examples.int_literal "0")])
    as [H _].
  destruct (H examples.X_declared _ _ eq_refl) as (body & exit & Hout & Hin).
  injection Hout as <- <-. exact Hin.
Defined.

(** X19.  The lowering never emits a [UseStmt]: no statement of a lowered
    program, at any depth, is one. *)
Theorem lowered_program_has_no_use_statement ctx subp prog :
  _gen_ir ctx subp = Ok prog →
  forallb lowered.no_use (irt.stmts prog) = true.
Proof.
  intros H. apply forallb_Forall.
  apply (_gen_ir_shape ctx (λ s, lowered.no_use s = true) subp prog);
    try done.
  - intros stmts Hs. simpl. by apply forallb_Forall.
  - intros branches _ Hbs. simpl. apply forallb_Forall.
    eapply Forall_impl; [exact Hbs|]. intros b Hb. by apply forallb_Forall.
Qed.

Lemma lowered_program_has_no_use_statement_witness :
  ∃ prog,
    _gen_ir examples.ctx examples.goto_subp = Ok prog ∧
    forallb lowered.no_use (irt.stmts prog) = true.
Proof.
  eexists. split; [vm_compute; reflexivity|].
  apply (lowered_program_has_no_use_statement examples.ctx
           examples.goto_subp).
  vm_compute; reflexivity.
Defined.

(** X20.  Lowering statements declares no variable and leaves no loop
    behind: after a statement list is lowered, [var_decls] and the loop
    stack are what they were before, whatever loops and exits the list
    holds, and no count of [tmp_vars] has gone down. *)
Theorem statement_lowering_restores_the_loop_stack ctx label_decls ss st
    out st' :
  transform_stmts ctx label_decls ss st = Ok (out, st') →
  var_decls st' = var_decls st ∧
  loop_stack st' = loop_stack st ∧
  ∀ name, (counter st name ≤ counter st' name)%nat.
Proof. apply transform_stmts_state_le. Qed.

Lemma statement_lowering_restores_the_loop_stack_witness :
  ∃ out st',
    transform_stmts examples.ctx [examples.Start]
      (lal.f_subp_stmts examples.goto_subp) examples.X_declared
      = Ok (out, st') ∧
    loop_stack st' = [].
Proof.
  eexists _, _. split; [vm_compute; reflexivity|].
  refine (proj1 (proj2
    (statement_lowering_restores_the_loop_stack examples.ctx
       [examples.Start] (lal.f_subp_stmts examples.goto_subp)
       examples.X_declared _ _ _))).
  vm_compute; reflexivity.
Defined.

Lemma gen_single_raises ctx expr v x :
  gen_single ctx expr v = Raise x → x = NotImplementedError.
Proof.
  destruct v as [z|z|s| |f l]; simpl; try by intros [= <-].
  destruct f, l; simpl; by intros [= <-].
Qed.

Lemma gen_case_condition_unsupported ctx expr values v :
  v ∈ values →
  (∀ z, v ≠ VInt z) → (∀ a b, v ≠ VRange (VInt a) (VInt b)) →
  gen_case_condition ctx expr values = Raise NotImplementedError.
Proof.
  intros Hin Hint Hrange. unfold gen_case_condition.
  assert (gen_single ctx expr v = Raise NotImplementedError) as Hv.
  { destruct v as [z|z|s| |f l]; simpl; try done.
    - by destruct (Hint z).
    - destruct f as [a|a|?| |? ?], l as [b|b|?| |? ?]; simpl; try done.
      by destruct (Hrange a b). }
  destruct (try_map_Raise _ _ _ _ Hin Hv) as [e He].
  rewrite He. simpl.
  apply try_map_raises in He as (w & _ & Hw).
  by apply gen_single_raises in Hw as ->.
Qed.

(** X21.  The labels of a case alternative must evaluate to integers or to
    ranges of integers: any other value among them, such as the name of
    an enumeration literal, makes [gen_case_condition] raise
    [NotImplementedError], and an alternative without any label makes it
    raise [IndexError].  So a case statement with an alternative whose
    first choice is an enumeration literal is not lowered. *)
Theorem case_labels_must_be_integers ctx :
  (∀ expr values v,
     v ∈ values →
     (∀ z, v ≠ VInt z) → (∀ a b, v ≠ VRange (VInt a) (VInt b)) →
     gen_case_condition ctx expr values = Raise NotImplementedError) ∧
  (∀ expr, gen_case_condition ctx expr [] = Raise IndexError) ∧
  (∀ label_decls sel text ty t choices ss alts st out st',
     existsb lal.is_OthersDesignator choices = false →
     transform_stmt ctx label_decls
       (lal.CaseStmt sel
          (lal.Alternative
             (lal.Identifier text (lal.EnumLiteralDecl_ref ty) t :: choices)
             ss :: alts)) st
     ≠ Ok (out, st')).
Proof.
  split; [|split].
  - intros expr values v. apply gen_case_condition_unsupported.
  - done.
  - intros label_decls sel text ty t choices ss alts st out st' Hothers H.
    remember (lal.Alternative
                (lal.Identifier text (lal.EnumLiteralDecl_ref ty) t
                 :: choices) ss :: alts) as alts0 eqn:Halts0.
    simpl in H. bind_inv H as [pre case_expr] st1 Hsel.
    bind_inv H as case_alts st2 Halts. bind_inv H as others st3 Ho.
    bind_inv H as split st4 Hsplit. ret_inv H.
    apply lift_Ok in Hsplit as [Hsplit _].
    apply case_split_Ok in Hsplit as (conds & d & Hconds & _ & _).
    apply case_alts_with_Forall2 in Halts.
    cbn [List.filter is_others lal.f_choices existsb
         lal.is_OthersDesignator orb negb] in Halts.
    rewrite Hothers in Halts. cbn [negb] in Halts.
    apply Forall2_cons_inv_l in Halts as (ca & cas & [Hch _] & _ & ->).
    simpl in Hch.
    apply Forall2_cons_inv_l in Hch
      as (v & vs & (sta & p & e & stb & He & Hv) & _ & Hca).
    simpl in He. ret_inv He. unfold ConstExprEvaluator.eval in Hv.
    simpl in Hv. injection Hv as <-.
    apply Forall2_cons_inv_l in Hconds as (cond & conds' & Hcond & _ & _).
    rewrite Hca in Hcond.
    rewrite (gen_case_condition_unsupported ctx case_expr _ (VStr text))
      in Hcond; [done|apply list_elem_of_here|done|done].
Qed.

(** ** [extract_programs] on a unit *)

Lemma try_map_gen_ir_node ctx subps progs :
  try_map (_gen_ir_node ctx) subps = Ok progs ↔
  ∃ bodies,
    subps = map lal_unit.SubpBody bodies ∧
    try_map (_gen_ir ctx) bodies = Ok progs.
Proof.
  split.
  - revert progs. induction subps as [|s subps IH]; simpl; intros progs.
    + intros [= <-]. by exists [].
    + destruct s as [body|]; simpl; [|discriminate].
      destruct (_gen_ir ctx body) as [p|] eqn:Hp; simpl; [|discriminate].
      destruct (try_map (_gen_ir_node ctx) subps) as [ps|]; simpl;
        [|discriminate].
      intros [= <-]. destruct (IH _ eq_refl) as (bodies & -> & Hb).
      exists (body :: bodies). split; [done|]. simpl. by rewrite Hp, Hb.
  - intros (bodies & -> & H). revert progs H.
    induction bodies as [|body bodies IH]; simpl; intros progs; [done|].
    destruct (_gen_ir ctx body) as [p|]; simpl; [|discriminate].
    destruct (try_map (_gen_ir ctx) bodies) as [ps|]; simpl; [|discriminate].
    intros [= <-]. by rewrite (IH _ eq_refl).
Qed.

(** X22.  [extract_programs] on the unit of a file.  It returns programs
    exactly when the file parsed, the lexical environment is populated,
    every subprogram found is a subprogram body, and the lowering and the
    normalization of all the bodies succeed; an expression function among
    them makes it raise.  On a file that did not parse it returns [None]
    after printing the header and the first diagnostic only, whatever the
    number of diagnostics; with no diagnostic at all it prints the header,
    goes on and raises. *)
Theorem extract_programs_on_a_unit ctx ada_file unit :
  (∀ progs,
     (extract_programs_of ctx ada_file unit).2 = Ok (Some progs) ↔
     ∃ bodies,
       lal_unit.root unit = Some (map lal_unit.SubpBody bodies) ∧
       lal_unit.populate_lexical_env unit = Ok () ∧
       extract_programs ctx bodies = Ok progs) ∧
  (∀ subps,
     lal_unit.root unit = Some subps → lal_unit.ExprFunction ∈ subps →
     ∃ e, (extract_programs_of ctx ada_file unit).2 = Raise e) ∧
  (∀ diag diags,
     lal_unit.root unit = None →
     lal_unit.diagnostics unit = diag :: diags →
     extract_programs_of ctx ada_file unit
     = (["Could not parse " +:+ ada_file +:+ ":"; "   " +:+ diag],
        Ok None)) ∧
  (lal_unit.root unit = None → lal_unit.diagnostics unit = [] →
   (extract_programs_of ctx ada_file unit).1
     = ["Could not parse " +:+ ada_file +:+ ":"] ∧
   ∃ e, (extract_programs_of ctx ada_file unit).2 = Raise e).
Proof.
  unfold extract_programs_of, extract_programs.
  split; [|split; [|split]].
  - intros progs. destruct (lal_unit.root unit) as [subps|]; simpl.
    + destruct (lal_unit.populate_lexical_env unit) as [[]|e]; simpl.
      * split.
        -- destruct (try_map (_gen_ir_node ctx) subps) as [ps|] eqn:Hps;
             simpl; [|discriminate].
           apply try_map_gen_ir_node in Hps as (bodies & -> & Hb).
           intros H. exists bodies. split; [done|]. split; [done|].
           rewrite Hb. simpl.
           destruct (try_map _ ps) as [ps'|]; simpl in *; by simplify_eq.
        -- intros (bodies & [= ->] & _ & H).
           destruct (try_map (_gen_ir ctx) bodies) as [ps|] eqn:Hb;
             simpl in H; [|discriminate].
           rewrite (proj2 (try_map_gen_ir_node ctx _ ps)) by eauto.
           simpl. by rewrite H.
      * split; [discriminate|]. by intros (bodies & _ & [=] & _).
    + split.
      * destruct (lal_unit.diagnostics unit); [|done].
        by destruct (lal_unit.populate_lexical_env unit).
      * by intros (bodies & [=] & _).
  - intros subps -> Hin. simpl.
    destruct (lal_unit.populate_lexical_env unit) as [[]|e]; simpl;
      [|by exists e].
    destruct (try_map_Raise (_gen_ir_node ctx) subps lal_unit.ExprFunction
                AttributeError Hin eq_refl) as [e ->].
    by exists e.
  - by intros diag diags -> ->.
  - intros -> ->. split; [done|]. simpl.
    destruct (lal_unit.populate_lexical_env unit) as [[]|e]; simpl; eauto.
Qed.

(** ** The pretty-printer of [tree.py] *)

Lemma string_app_assoc (s1 s2 s3 : string) :
  (s1 +:+ s2) +:+ s3 = s1 +:+ (s2 +:+ s3).
Proof.
  induction s1 as [|a s1 IH]; [done|].
  change ((String a s1 +:+ s2) +:+ s3) with (String a ((s1 +:+ s2) +:+ s3)).
  by rewrite IH.
Qed.

Section tree_printer.
Context {Sym : Type} (str_val : value → string) (str_sym : Sym → string).

(** X23.  What the printer of [tree.py] shows and what it does not.  An
    expression is printed on its own, whatever the indentation in force;
    it is printed without parentheses, so the two ways of nesting three
    operands under two binary operators print alike; and in a statement
    list the line of the separator of a split starts in the column of its
    [split:] line, the statements of the two branches being printed one
    level deeper. *)
Theorem printer_of_the_tree ctx_opts :
  (∀ e opts,
     tree.pretty_print_expr str_val str_sym e opts
     = tree.pretty_print_expr str_val str_sym e ctx_opts) ∧
  (∀ a o1 b o2 c,
     tree.pretty_print_expr str_val str_sym
       (tree.BinExpr (tree.BinExpr a o1 b) o2 c) ctx_opts
     = tree.pretty_print_expr str_val str_sym
         (tree.BinExpr a o1 (tree.BinExpr b o2 c)) ctx_opts) ∧
  (∀ fst_stmts snd_stmts,
     tree.pretty_print_stmts str_val str_sym
       [tree.SplitStmt fst_stmts snd_stmts] ctx_opts
     = tree.indents ctx_opts 1 +:+ "split:" +:+ tree.LF
       +:+ tree.pretty_print_stmts str_val str_sym fst_stmts
             (tree.indented ctx_opts)
       +:+ tree.LF +:+ tree.indents ctx_opts 1 +:+ "|:" +:+ tree.LF
       +:+ tree.pretty_print_stmts str_val str_sym snd_stmts
             (tree.indented ctx_opts)).
Proof.
  split; [|split].
  - intros e opts.
    induction e as [name|lhs IHl op rhs IHr|op e IH|val]; simpl;
      congruence.
  - intros a o1 b o2 c. simpl. by rewrite !string_app_assoc.
  - intros fst_stmts snd_stmts.
    unfold tree.pretty_print_stmts, tree.pretty_print_stmts_with at 1.
    cbn [map String.concat tree.pretty_print_stmt].
    replace (tree.indents (tree.indented ctx_opts) 0)
      with (tree.indents ctx_opts 1).
    + done.
    + unfold tree.indents, tree.indented. simpl. f_equal. lia.
Qed.

End tree_printer.

(** ** What the guards of a case and the split of an if-expression mean *)

Section guards_meaning.
Import ConstExprEvaluator.
Context (ctx : ExtractionContext) (ρ : observe.env).

Lemma gen_single_eval expr sel x v c :
  observe.eval_in ρ expr = Ok sel → integer_of sel = Some x →
  gen_single ctx expr v = Ok c →
  observe.eval_in ρ c = Ok (from_bool (lowered.label_matches x v)).
Proof.
  intros Hsel Hx. destruct v as [z|z|s| |f l]; simpl; try discriminate.
  - intros [= <-]. simpl. rewrite Hsel. simpl.
    by rewrite (py_eq_integer sel (VInt z) x z Hx eq_refl).
  - destruct f as [lo|lo|?| |? ?], l as [hi|hi|?| |? ?]; simpl;
      try discriminate.
    intros [= <-]. simpl. rewrite Hsel. simpl.
    rewrite (py_cmp_integer sel (VInt lo) x lo Hx eq_refl),
      (py_cmp_integer sel (VInt hi) x hi Hx eq_refl).
    rewrite !to_bool_from_bool. do 2 f_equal.
    rewrite (Z.leb_compare x hi), (Z.leb_antisym x lo), (Z.ltb_compare x lo).
    by destruct (x ?= lo)%Z, (x ?= hi)%Z; repeat case_bool_decide.
Qed.

Lemma fold_left_or_eval h ts : ∀ acc b bs,
  observe.eval_in ρ acc = Ok (from_bool b) →
  Forall2 (λ c b', observe.eval_in ρ c = Ok (from_bool b')) ts bs →
  observe.eval_in ρ (fold_left (binexpr_builder (irt.bin_ops ops.OR) h) ts acc)
  = Ok (from_bool (b || existsb id bs)).
Proof.
  intros acc b bs Hacc Hts. revert acc b Hacc.
  induction Hts as [|t b' ts bs Ht _ IH]; intros acc b Hacc; simpl.
  - by rewrite orb_false_r.
  - rewrite orb_assoc. apply IH. simpl. rewrite Hacc, Ht. simpl.
    by rewrite !to_bool_from_bool.
Qed.

Lemma try_map_gen_single_eval expr sel x values conds :
  observe.eval_in ρ expr = Ok sel → integer_of sel = Some x →
  try_map (gen_single ctx expr) values = Ok conds →
  Forall2 (λ c b, observe.eval_in ρ c = Ok (from_bool b))
    conds (map (lowered.label_matches x) values).
Proof.
  intros Hsel Hx H. apply try_map_Ok in H.
  induction H as [|v c values conds Hv _ IH]; simpl; constructor; [|done].
  by eapply gen_single_eval.
Qed.

Lemma existsb_id_map {A} (f : A → bool) l :
  existsb id (map f l) = existsb f l.
Proof. induction l as [|a l IH]; simpl; [done|]. by rewrite IH. Qed.

Lemma gen_case_condition_eval expr sel x values guard :
  observe.eval_in ρ expr = Ok sel → integer_of sel = Some x →
  gen_case_condition ctx expr values = Ok guard →
  observe.eval_in ρ guard
  = Ok (from_bool (existsb (lowered.label_matches x) values)).
Proof.
  intros Hsel Hx H. unfold gen_case_condition in H.
  destruct (try_map (gen_single ctx expr) values) as [conds|] eqn:Hc;
    simpl in H; [|discriminate].
  apply (try_map_gen_single_eval _ sel x) in Hc; [|done..].
  rewrite <- existsb_id_map.
  destruct Hc as [|c b conds bs Hcb Hrest]; simpl in H.
  - discriminate.
  - assert (guard = fold_left
              (binexpr_builder (irt.bin_ops ops.OR) (evaluator_bool ctx))
              conds c) as ->.
    { destruct conds as [|c' conds]; simpl in H; by simplify_eq. }
    by apply fold_left_or_eval.
Qed.

Lemma reduce_or_eval h conds bs d :
  Forall2 (λ c b, observe.eval_in ρ c = Ok (from_bool b)) conds bs →
  reduce (binexpr_builder (irt.bin_ops ops.OR) h) conds = Ok d →
  observe.eval_in ρ d = Ok (from_bool (existsb id bs)).
Proof.
  intros [|c b conds' bs' Hc Hrest]; simpl; [discriminate|].
  intros [= <-]. by apply fold_left_or_eval.
Qed.

End guards_meaning.

(** X24.  The guards of a lowered case statement mean what the
    alternatives say.  Where the selector has an integer value, an [int]
    or a [long], the condition that [gen_case_condition] builds from the
    labels of an alternative evaluates to true exactly when the value is
    one of the labels or lies in one of the ranges; in the split of the
    case statement the guard of each alternative is such a condition, and
    the guard of [others] evaluates to true exactly when no alternative
    matches. *)
Theorem case_guards_mean_membership ctx (ρ : observe.env) expr sel x :
  observe.eval_in ρ expr = Ok sel → integer_of sel = Some x →
  (∀ values guard,
     gen_case_condition ctx expr values = Ok guard →
     observe.eval_in ρ guard
     = Ok (ConstExprEvaluator.from_bool
             (existsb (lowered.label_matches x) values))) ∧
  (∀ case_alts others split,
     case_split ctx expr case_alts others = Ok split →
     ∃ conds others_condition,
       split = irt.SplitStmt
         (zip_with (λ cond alt, irt.AssumeStmt cond None :: alt.2)
            conds case_alts ++
          map (λ stmts, irt.AssumeStmt others_condition None :: stmts)
            others) ∧
       Forall2 (λ alt cond,
           observe.eval_in ρ cond
           = Ok (ConstExprEvaluator.from_bool
                   (existsb (lowered.label_matches x) alt.1)))
         case_alts conds ∧
       observe.eval_in ρ others_condition
       = Ok (ConstExprEvaluator.from_bool
               (negb (existsb
                        (λ alt, existsb (lowered.label_matches x) alt.1)
                        case_alts)))).
Proof.
  intros Hsel Hx. split.
  - intros values guard. by apply (gen_case_condition_eval ctx ρ expr sel).
  - intros case_alts others split H.
    apply case_split_Ok in H as (conds & d & Hconds & Hd & ->).
    eexists conds, _. split; [done|].
    assert (Forall2 (λ alt cond,
              observe.eval_in ρ cond
              = Ok (ConstExprEvaluator.from_bool
                      (existsb (lowered.label_matches x) alt.1)))
              case_alts conds) as Hall.
    { eapply Forall2_impl; [exact Hconds|]. intros alt cond Hc.
      exact (gen_case_condition_eval ctx ρ expr sel x _ _ Hsel Hx Hc). }
    split; [done|].
    assert (Forall2
              (λ c b, observe.eval_in ρ c = Ok (ConstExprEvaluator.from_bool b))
              conds
              (map (λ alt, existsb (lowered.label_matches x) alt.1)
                 case_alts)) as Hbs.
    { clear -Hall. induction Hall; simpl; by constructor. }
    apply (reduce_or_eval ρ _ _ _ _ Hbs) in Hd. simpl. rewrite Hd. simpl.
    by rewrite to_bool_from_bool, existsb_id_map.
Qed.

Lemma case_guards_mean_membership_witness :
  ∃ guard,
    gen_case_condition examples.ctx
      (irt.Identifier examples.B_var (Some Std_Integer))
      [VInt 1; VRange (VInt 3) (VInt 5)] = Ok guard ∧
    observe.eval_in (λ _, Some (VInt 4)) guard = Ok (VStr "True").
Proof.
  eexists. split; [reflexivity|].
  destruct (case_guards_mean_membership examples.ctx (λ _, Some (VInt 4))
              (irt.Identifier examples.B_var (Some Std_Integer)) (VInt 4) 4
              eq_refl eq_refl)
    as [H _].
  exact (H [VInt 1; VRange (VInt 3) (VInt 5)] _ eq_refl).
Defined.

(** X25.  The split in front of a lowered if-expression selects.  For an
    if-expression whose condition and two dependent expressions lower
    alone, the result is a synthetic variable, and the three expressions
    are lowered with the declarations in force before.  Under an
    environment that gives the three lowered expressions values, exactly
    one path through the statements in front is feasible, and on it the
    variable holds the value of the first dependent expression when the
    condition is true and of the second when not. *)
Theorem if_expression_selects ctx c a b t st pre r st' :
  lowered.plain c = true → lowered.plain a = true → lowered.plain b = true →
  transform_expr ctx (lal.IfExpr c a b t) st = Ok ((pre, r), st') →
  ∃ tmp c' a' b',
    r = irt.Identifier tmp t ∧
    irt.purpose tmp = Some irt.SyntheticVariable ∧
    var_decls st' = var_decls st ∧
    transform_expr ctx c st' = Ok (([], c'), st') ∧
    transform_expr ctx a st' = Ok (([], a'), st') ∧
    transform_expr ctx b st' = Ok (([], b'), st') ∧
    ∀ (ρ : observe.env) vc va vb,
      observe.eval_in ρ c' = Ok vc →
      observe.eval_in ρ a' = Ok va →
      observe.eval_in ρ b' = Ok vb →
      observe.recorded ρ pre tmp
      = [Some (if ConstExprEvaluator.to_bool vc then va else vb)].
Proof.
  intros Hpc Hpa Hpb H. simpl in H.
  bind_inv H as name st0 Hf.
  apply fresh_name_spec in Hf as (_ & _ & _ & (Hv & _ & _)).
  bind_inv H as [tp te] st1 Ht. bind_inv H as [ep ee] st2 He.
  bind_inv H as split st3 Hs. ret_inv H.
  pose proof (transform_expr_plain _ _ _ _ _ _ Ht Hpa) as [-> ->].
  pose proof (transform_expr_plain _ _ _ _ _ _ He Hpb) as [-> ->].
  unfold gen_split_stmt_with in Hs. bind_inv Hs as [cp ce] st4 Hc.
  ret_inv Hs.
  pose proof (transform_expr_plain _ _ _ _ _ _ Hc Hpc) as [-> ->].
  eexists _, ce, te, ee. split; [done|]. split; [done|].
  split; [done|]. do 3 (split; [done|]).
  intros ρ vc va vb Hvc Hva Hvb. unfold observe.recorded. simpl.
  rewrite Hvc. simpl. rewrite to_bool_from_bool.
  destruct (ConstExprEvaluator.to_bool vc); simpl.
  - rewrite Hva. simpl. unfold observe.env_set.
    by rewrite decide_True.
  - rewrite Hvb. simpl. unfold observe.env_set.
    by rewrite decide_True.
Qed.

Lemma if_expression_selects_witness :
  ∃ pre tmp st',
    transform_expr examples.ctx
      (lal.IfExpr examples.True_literal (examples.int_literal "1")
         (examples.int_literal "2") (Some Std_Universal_Int))
      examples.X_declared
    = Ok ((pre, irt.Identifier tmp (Some Std_Universal_Int)), st') ∧
    observe.recorded (λ _, None) pre tmp = [Some (VInt 1)].
Proof.
  eexists _, _, _. split; [vm_compute; reflexivity|].
  destruct (if_expression_selects examples.ctx
              examples.True_literal (examples.int_literal "1")
              (examples.int_literal "2") (Some Std_Universal_Int)
              examples.X_declared _ _ _ eq_refl eq_refl eq_refl eq_refl)
    as (tmp & c' & a' & b' & [= <-] & _ & _ & Hc & Ha & Hb & Hrec).
  vm_compute in Hc, Ha, Hb.
  injection Hc as <-. injection Ha as <-. injection Hb as <-.
  exact (Hrec (λ _, None) _ _ _ eq_refl eq_refl eq_refl).
Defined.

(** * Splits, short circuits, the normalizer and labels *)

(** ** The split node *)

(** C1.  The split node of [tree.py] is binary: its constructor takes the
    two statement lists [fst_stmts] and [snd_stmts] and nothing else by
    position.  The frontend calls it with one positional argument, the
    list of the branches, from [gen_split_stmt] as from the rule for case
    statements; with one argument, whatever the number of branches in it,
    the call raises [TypeError]. *)
Theorem split_node_takes_two_statement_lists :
  (∀ A (args : list A),
     is_Ok (tree.SplitStmt_args args) ↔ length args = 2%nat) ∧
  (∀ (assume_cond assume_not_cond : irt.Stmt) then_stmts else_stmts,
     tree.SplitStmt_args
       [[assume_cond :: then_stmts; assume_not_cond :: else_stmts]]
     = Raise TypeError) ∧
  (∀ branches : list (list irt.Stmt),
     tree.SplitStmt_args [branches] = Raise TypeError).
Proof.
  split; [|done].
  intros A args. split.
  - intros [p Hp]. by destruct args as [|a [|b [|c args]]].
  - intros Hlen. destruct args as [|a [|b [|c args]]]; try done.
    by eexists.
Qed.

(** A case statement with a single alternative is lowered to a split with
    a single branch. *)
Lemma split_with_one_branch :
  ∃ prog,
    _gen_ir examples.ctx examples.one_alternative_subp = Ok prog ∧
    forallb (observe.split_counts (λ n, 2 <=? n)%nat) (irt.stmts prog)
      = false.
Proof. eexists. split; vm_compute; reflexivity. Qed.

(** X26.  The branches that the frontend hands to the split node, taken as
    the list its calls pass: [gen_split_stmt], which lowers conditional
    statements and expressions, short-circuit operators and conditional
    exits, passes exactly two, the rule for case statements one per
    alternative, and every split of a lowered program has at least
    one. *)
Theorem split_branch_counts ctx :
  (∀ subp prog,
     _gen_ir ctx subp = Ok prog →
     forallb (observe.split_counts (λ n, 1 <=? n)%nat) (irt.stmts prog)
       = true) ∧
  (∀ cond then_stmts else_stmts st out st',
     gen_split_stmt ctx cond then_stmts else_stmts st = Ok (out, st') →
     ∃ pre assume_cond assume_not_cond,
       out = pre ++ [irt.SplitStmt [assume_cond :: then_stmts;
                                    assume_not_cond :: else_stmts]]) ∧
  (∀ label_decls sel alts st out st',
     transform_stmt ctx label_decls (lal.CaseStmt sel alts) st
       = Ok (out, st') →
     ∃ pre branches,
       out = pre ++ [irt.SplitStmt branches] ∧
       length branches = length alts).
Proof.
  split; [|split].
  - intros subp prog H. apply split_counts_Forall.
    apply (_gen_ir_shape ctx _ subp prog); try done.
    + intros stmts Hs. simpl. by apply split_counts_Forall.
    + intros branches Hlen Hbs. simpl. apply andb_true_intro. split.
      * destruct branches; [simpl in Hlen; lia|done].
      * apply forallb_forall. intros b Hb%list_elem_of_In.
        apply split_counts_Forall. by apply (proj1 (Forall_forall _ _) Hbs).
  - intros cond then_stmts else_stmts st out st' H.
    unfold gen_split_stmt, gen_split_stmt_with in H.
    bind_inv H as [pre c] st1 Hc. ret_inv H. eauto.
  - intros label_decls sel alts st out st' H. simpl in H.
    bind_inv H as [pre e] st1 He. bind_inv H as cas st2 Hcas.
    bind_inv H as others st3 Hothers. bind_inv H as split st4 Hsplit.
    ret_inv H. apply lift_Ok in Hsplit as [Hsplit <-].
    apply (case_alts_with_shape ctx (λ _, True)) in Hcas as (_ & _ & Hl1).
    2:{ apply Forall_forall. intros alt _ st5 out st6 H.
        eapply (transform_stmts_shape ctx label_decls (λ _, True)); eauto. }
    apply (others_potential_stmts_with_shape (λ _, True)) in Hothers
      as (_ & _ & Hl2).
    2:{ apply Forall_forall. intros alt _ st5 out st6 H.
        eapply (transform_stmts_shape ctx label_decls (λ _, True)); eauto. }
    apply (case_split_shape ctx (λ _, True)) in Hsplit
      as (branches & -> & Hlen & _); try done.
    2,3: apply Forall_forall; intros; by apply Forall_forall.
    exists pre, branches. split; [done|].
    rewrite Hlen, Hl1, Hl2. clear.
    induction alts as [|alt alts IH]; simpl; [done|].
    destruct (is_others alt); simpl; lia.
Qed.

Lemma split_branch_counts_witness :
  ∃ prog,
    _gen_ir examples.ctx examples.one_alternative_subp = Ok prog ∧
    forallb (observe.split_counts (λ n, 1 <=? n)%nat) (irt.stmts prog)
      = true.
Proof.
  eexists. split; [vm_compute; reflexivity|].
  destruct (split_branch_counts examples.ctx) as [Hall _].
  apply (Hall examples.one_alternative_subp). vm_compute. reflexivity.
Defined.

(** ** The short-circuit operators *)

Section short_circuit.
Context (ctx : ExtractionContext).

(** The lowering of a short-circuit operator is the tree of the
    specification over the lowered operands: the temporary is drawn first,
    then the right operand is lowered, then the left one. *)
Lemma short_circuit_lowering (and_then : bool) L R t st pre res st' :
  transform_expr ctx
    (lal.BinOp L (if and_then then lal.OpAndThen else lal.OpOrElse) R t) st
    = Ok ((pre, res), st') ↔
  ∃ st0 rp r st1 lp l,
    fresh_name "tmp" st = Ok ("tmp" +:+ pretty (counter st "tmp"), st0) ∧
    transform_expr ctx R st0 = Ok ((rp, r), st1) ∧
    transform_expr ctx L st1 = Ok ((lp, l), st') ∧
    res = irt.Identifier (short_circuit_spec.temporary st t) t ∧
    pre = short_circuit_spec.tree (short_circuit_spec.temporary st t) t
            and_then lp rp l r.
Proof.
  assert (transform_expr ctx
            (lal.BinOp L (if and_then then lal.OpAndThen else lal.OpOrElse)
               R t)
          = transform_short_circuit_ops_with t and_then
              (transform_expr ctx L) (transform_expr ctx R)) as ->.
  { by destruct and_then. }
  unfold transform_short_circuit_ops_with. split.
  - intros H. bind_inv H as tmp st0 Hf.
    pose proof (fresh_name_spec _ _ _ _ Hf) as (-> & _).
    bind_inv H as res_stmts st2 Hs. ret_inv H.
    destruct and_then; bind_inv Hs as inner st1 Hi;
      unfold gen_split_stmt_with in Hi, Hs;
      bind_inv Hi as [rp r] st1' Hr; ret_inv Hi;
      bind_inv Hs as [lp l] st2' Hl; ret_inv Hs;
      by eexists _, rp, r, _, lp, l.
  - intros (st0 & rp & r & st1 & lp & l & Hf & Hr & Hl & -> & ->).
    rewrite (bind_step _ _ _ _ _ Hf).
    unfold gen_split_stmt_with, mbind, M_bind, mret, M_ret.
    destruct and_then; cbn beta iota; rewrite Hr; cbn beta iota;
      rewrite Hl; reflexivity.
Qed.

(** The feasible paths of the tree over two operands that need no
    pre-statements, by the values of the operands. *)
Lemma short_circuit_paths (ρ : observe.env) tmp t l r (and_then a b : bool) :
  observe.eval_in ρ l = Ok (ConstExprEvaluator.from_bool a) →
  observe.eval_in ρ r = Ok (ConstExprEvaluator.from_bool b) →
  observe.recorded ρ (short_circuit_spec.tree tmp t and_then [] [] l r) tmp
  = [Some (ConstExprEvaluator.from_bool
             (short_circuit_spec.table and_then a b))].
Proof.
  intros Hl Hr. unfold observe.recorded.
  destruct and_then, a, b; simpl; rewrite ?Hl, ?Hr; simpl;
    rewrite ?Hl, ?Hr; simpl;
    unfold observe.env_set; rewrite ?decide_True by done; reflexivity.
Qed.

(** When the left operand decides, the right one is not evaluated: its
    value, or its having none, changes nothing. *)
Lemma short_circuit_skips (ρ : observe.env) tmp t l r (and_then : bool) :
  observe.eval_in ρ l = Ok (ConstExprEvaluator.from_bool (negb and_then)) →
  observe.recorded ρ (short_circuit_spec.tree tmp t and_then [] [] l r) tmp
  = [Some (ConstExprEvaluator.from_bool (negb and_then))].
Proof.
  intros Hl. unfold observe.recorded.
  destruct and_then; simpl; rewrite ?Hl; simpl;
    unfold observe.env_set; rewrite ?decide_True by done; reflexivity.
Qed.

End short_circuit.

(** C2.  The lowering of [and then] and of [or else] returns a reference to
    a synthetic temporary, and as pre-statements the two-level tree of
    splits and assumptions of the specification over the two lowered
    operands, and it returns nothing else.  Where the operands need no
    pre-statements of their own, as two boolean variables do, and have
    truth values under an environment, exactly one path through the tree
    is feasible, and on it the temporary is assigned the value of the
    truth table of the operator; where the left operand decides, this is
    so whatever the right operand is. *)
Theorem short_circuit_truth_table ctx (and_then : bool) L R t st :
  (∀ pre res st',
     transform_expr ctx
       (lal.BinOp L (if and_then then lal.OpAndThen else lal.OpOrElse) R t)
       st = Ok ((pre, res), st') ↔
     ∃ st0 rp r st1 lp l,
       fresh_name "tmp" st
         = Ok ("tmp" +:+ pretty (counter st "tmp"), st0) ∧
       transform_expr ctx R st0 = Ok ((rp, r), st1) ∧
       transform_expr ctx L st1 = Ok ((lp, l), st') ∧
       res = irt.Identifier (short_circuit_spec.temporary st t) t ∧
       pre = short_circuit_spec.tree (short_circuit_spec.temporary st t) t
               and_then lp rp l r) ∧
  irt.purpose (short_circuit_spec.temporary st t)
    = Some irt.SyntheticVariable ∧
  (∀ (ρ : observe.env) l r (a b : bool),
     observe.eval_in ρ l = Ok (ConstExprEvaluator.from_bool a) →
     observe.eval_in ρ r = Ok (ConstExprEvaluator.from_bool b) →
     observe.recorded ρ
       (short_circuit_spec.tree (short_circuit_spec.temporary st t) t
          and_then [] [] l r)
       (short_circuit_spec.temporary st t)
     = [Some (ConstExprEvaluator.from_bool
                (short_circuit_spec.table and_then a b))]) ∧
  (∀ (ρ : observe.env) l r,
     observe.eval_in ρ l
       = Ok (ConstExprEvaluator.from_bool (negb and_then)) →
     observe.recorded ρ
       (short_circuit_spec.tree (short_circuit_spec.temporary st t) t
          and_then [] [] l r)
       (short_circuit_spec.temporary st t)
     = [Some (ConstExprEvaluator.from_bool (negb and_then))]).
Proof.
  split; [|split; [done|split]].
  - intros pre res st'. apply short_circuit_lowering.
  - intros ρ l r a b. apply short_circuit_paths.
  - intros ρ l r. apply short_circuit_skips.
Qed.

Lemma short_circuit_truth_table_witness :
  let tmp := short_circuit_spec.temporary examples.B_C_declared
               (Some Std_Boolean) in
  let B := irt.Identifier examples.B_var (Some Std_Boolean) in
  let C := irt.Identifier examples.C_var (Some Std_Boolean) in
  (∃ st',
     transform_expr examples.ctx
       (lal.BinOp examples.B lal.OpAndThen examples.C (Some Std_Boolean))
       examples.B_C_declared
     = Ok ((short_circuit_spec.and_then tmp (Some Std_Boolean) [] [] B C,
            irt.Identifier tmp (Some Std_Boolean)), st')) ∧
  observe.recorded examples.B_true_C_false
    (short_circuit_spec.and_then tmp (Some Std_Boolean) [] [] B C) tmp
  = [Some (VStr "False")].
Proof.
  intros tmp B C.
  destruct (short_circuit_truth_table examples.ctx true examples.B examples.C
              (Some Std_Boolean) examples.B_C_declared)
    as (Hlow & _ & Htable & _).
  split.
  - eexists. apply Hlow. eexists _, [], C, _, [], B.
    split; [reflexivity|]. split; [vm_compute; reflexivity|].
    split; [vm_compute; reflexivity|]. split; reflexivity.
  - exact (Htable examples.B_true_C_false B C true false eq_refl eq_refl).
Defined.

(** ** The normalizer and the universal types *)

Section normalizer_universal.
Import ConstExprEvaluator ConvertUniversalTypes.

(** C6.  [try_convert_expr] gives the literal it makes the expected type
    as it comes, universal or not.  The right-hand side of an assignment
    that evaluates becomes a literal of the target's type, whatever that
    type is; an operand of a binary expression that evaluates, next to an
    operand of universal type that does not, becomes a literal of that
    universal type.  So in the lowering of [X := N + 1], where [N] is the
    named number [(if True then 1 else 2)], the operand [1] is still a
    literal of type universal integer after the pass, beside the
    temporary of the conditional expression.  The operand of a unary
    expression is visited and never offered for conversion, so a literal
    there keeps the type it has. *)
Theorem normalizer_types_literal_by_context_even_universal :
  (∀ ev id e v,
     eval e = Ok v →
     visit_stmt ev (irt.AssignStmt id e)
     = Ok (irt.AssignStmt id (irt.Lit v (irt.type_hint_of id)))) ∧
  (∀ ev l op r h v,
     eval l = Raise NotConstExprError → eval r = Ok v →
     irt.type_hint_of r ∈ [universal_int ev; universal_real ev] →
     visit_expr ev (irt.BinExpr l op r h)
     = (l' ← visit_expr ev l;
        Ok (irt.BinExpr l' op (irt.Lit v (irt.type_hint_of l)) h))) ∧
  (∀ ev op v h h',
     visit_expr ev (irt.UnExpr op (irt.Lit v h) h')
     = Ok (irt.UnExpr op (irt.Lit v h) h')) ∧
  universal_int examples.std_evaluator = Some Std_Universal_Int ∧
  _gen_ir examples.ctx examples.named_number_sum_subp
  = Ok {| irt.stmts :=
            [irt.ReadStmt examples.X_id;
             examples.N_split;
             irt.AssignStmt examples.X_id
               (irt.BinExpr examples.tmp0 (irt.bin_ops ops.PLUS)
                  (irt.Lit (VInt 1) (Some Std_Universal_Int))
                  (Some Std_Universal_Int))] |} ∧
  visit_program examples.std_evaluator examples.sum_lowered
  = Ok {| irt.stmts :=
            [irt.ReadStmt examples.X_id;
             examples.N_split_normalized;
             irt.AssignStmt examples.X_id
               (irt.BinExpr examples.tmp0 (irt.bin_ops ops.PLUS)
                  (irt.Lit (VInt 1) (Some Std_Universal_Int))
                  (Some Std_Universal_Int))] |}.
Proof.
  split; [|split; [|split; [done|split; [done|]]]].
  - intros ev id e v Hv. simpl. unfold try_convert_expr, try_convert_with.
    by rewrite Hv.
  - intros ev l op r h v Hl Hr Hu. simpl.
    unfold has_universal_type. rewrite bool_decide_eq_true_2 by done.
    unfold try_convert_with. by rewrite Hl, Hr.
  - split; vm_compute; reflexivity.
Qed.

(** C7.  After one pass expressions of universal type remain.  An
    identifier is never converted, whatever its type, and a literal
    assigned to a variable is given the type of the variable.  So in the
    lowering of [X := N], where [N] is the named number
    [(if True then 1 else 2)], the pass leaves the temporary of the
    conditional expression, of type universal integer, where it is
    assigned and where it is read, and gives the two literals assigned to
    it that type. *)
Theorem normalizer_leaves_universal_type :
  (∀ ev x h t,
     try_convert_expr ev (irt.Identifier x h) t = Ok (irt.Identifier x h)) ∧
  (∀ ev id v h,
     v ≠ VNone →
     visit_stmt ev (irt.AssignStmt id (irt.Lit v h))
     = Ok (irt.AssignStmt id (irt.Lit v (irt.type_hint_of id)))) ∧
  universal_int examples.std_evaluator = Some Std_Universal_Int ∧
  _gen_ir examples.ctx examples.named_number_subp
  = Ok {| irt.stmts :=
            [irt.ReadStmt examples.X_id;
             examples.N_split;
             irt.AssignStmt examples.X_id examples.tmp0] |} ∧
  visit_program examples.std_evaluator
    {| irt.stmts :=
         [irt.ReadStmt examples.X_id;
          examples.N_split;
          irt.AssignStmt examples.X_id examples.tmp0] |}
  = Ok {| irt.stmts :=
            [irt.ReadStmt examples.X_id;
             examples.N_split_normalized;
             irt.AssignStmt examples.X_id examples.tmp0] |}.
Proof.
  split; [done|]. split; [|split; [done|]].
  - intros ev id v h Hv. simpl. unfold try_convert_expr, try_convert_with.
    unfold eval. simpl. by destruct v.
  - split; vm_compute; reflexivity.
Qed.

End normalizer_universal.

(** X27.  The pass is idempotent: a second pass over a normalized program
    returns the program unchanged, and so for a statement, for an
    expression that was visited and for one that was offered for
    conversion with the same expected type. *)
Theorem normalizer_second_pass_is_noop ev prog prog' :
  ConvertUniversalTypes.visit_program ev prog = Ok prog' →
  ConvertUniversalTypes.visit_program ev prog' = Ok prog' ∧
  (∀ s s', ConvertUniversalTypes.visit_stmt ev s = Ok s' →
     ConvertUniversalTypes.visit_stmt ev s' = Ok s') ∧
  (∀ e e', ConvertUniversalTypes.visit_expr ev e = Ok e' →
     ConvertUniversalTypes.visit_expr ev e' = Ok e') ∧
  (∀ e t e', ConvertUniversalTypes.try_convert_expr ev e t = Ok e' →
     ConvertUniversalTypes.try_convert_expr ev e' t = Ok e').
Proof.
  intros H. split; [by apply (visit_program_idempotent ev prog)|].
  split; [apply (visit_stmt_idempotent ev)|].
  split; [apply (visit_expr_idempotent ev)|].
  apply (try_convert_expr_idempotent ev).
Qed.

Lemma normalizer_second_pass_is_noop_witness :
  ConvertUniversalTypes.visit_program examples.std_evaluator
    examples.sum_normalized
  = Ok examples.sum_normalized.
Proof.
  assert (ConvertUniversalTypes.visit_program examples.std_evaluator
            examples.sum_lowered = Ok examples.sum_normalized) as H.
  { vm_compute. reflexivity. }
  exact (proj1 (normalizer_second_pass_is_noop examples.std_evaluator
                  examples.sum_lowered examples.sum_normalized H)).
Defined.

(** ** Labels and gotos *)


Section label_account.
Context (ctx : ExtractionContext).

(** X28.  How the labels of a lowered program relate to its source.  The
    label of a declaration occurs as a statement as often as the
    declaration occurs among the [Label] statements that are lowered,
    those outside [for] loops and exception handlers; every other label
    statement is the exit label of a loop and occurs once; every goto
    targets the label of a declaration or such an exit label.  So where
    the lowered [Label] statements have distinct declarations and every
    lowered goto refers to one of them, every target of a goto occurs
    exactly once as a label statement. *)
Theorem lowered_labels_account subp prog :
  _gen_ir ctx subp = Ok prog →
  (∀ d,
     count_occ irt.Label_eq_dec
       (flat_map observe.label_stmts (irt.stmts prog)) (label_of_decl d)
     = count_occ lal_node.LabelDecl_eq_dec
         (flat_map reached.labels (lal.f_subp_stmts subp)) d) ∧
  (∀ l, l ∈ flat_map observe.label_stmts (irt.stmts prog) →
     (∃ d, l = label_of_decl d) ∨
     (irt.orig_node l = None ∧
      count_occ irt.Label_eq_dec
        (flat_map observe.label_stmts (irt.stmts prog)) l = 1%nat)) ∧
  (∀ l, l ∈ flat_map observe.goto_targets (irt.stmts prog) →
     (∃ d, l = label_of_decl d ∧
           (d ∈ flat_map reached.gotos (lal.f_subp_stmts subp) ∨
            d ∈ flat_map reached.labels (lal.f_subp_stmts subp))) ∨
     (irt.orig_node l = None ∧
      count_occ irt.Label_eq_dec
        (flat_map observe.label_stmts (irt.stmts prog)) l = 1%nat)) ∧
  (NoDup (flat_map reached.labels (lal.f_subp_stmts subp)) →
   flat_map reached.gotos (lal.f_subp_stmts subp)
     ⊆ flat_map reached.labels (lal.f_subp_stmts subp) →
   ∀ l, l ∈ flat_map observe.goto_targets (irt.stmts prog) →
     count_occ irt.Label_eq_dec
       (flat_map observe.label_stmts (irt.stmts prog)) l = 1%nat).
Proof.
  intros H.
  apply _gen_ir_Ok in H as (decls & st1 & stmts & st2 & Hd & Hs & ->).
  simpl in *.
  pose proof (transform_decls_loop_stack _ _ _ _ _ Hd) as Hstack.
  apply transform_decls_no_labels in Hd as [HdL HdG].
  apply transform_stmts_labels in Hs as (_ & Ha & Hb & Hc & Hg).
  rewrite !flat_map_app, HdL, HdG. simpl.
  assert (∀ l, l ∈ flat_map observe.label_stmts stmts →
    (∃ d, l = label_of_decl d) ∨
    (irt.orig_node l = None ∧
     count_occ irt.Label_eq_dec (flat_map observe.label_stmts stmts) l
     = 1%nat)) as Hemitted.
  { intros l Hl. destruct (Hb l Hl) as [?|Hexit]; [by left|right].
    pose proof (exit_label_between_orig _ _ _ Hexit) as Horig.
    split; [done|]. specialize (Hc l Horig).
    apply count_occ_pos_elem_of with (dec := irt.Label_eq_dec) in Hl. lia. }
  assert (∀ l, l ∈ flat_map observe.goto_targets stmts →
    (∃ d, l = label_of_decl d ∧
          (d ∈ flat_map reached.gotos (lal.f_subp_stmts subp) ∨
           d ∈ flat_map reached.labels (lal.f_subp_stmts subp))) ∨
    (irt.orig_node l = None ∧
     count_occ irt.Label_eq_dec (flat_map observe.label_stmts stmts) l
     = 1%nat)) as Htargets.
  { intros l Hl. destruct (Hg l Hl) as [(d & -> & Hin)|[Hin|Hin]].
    - left. eauto.
    - rewrite Hstack in Hin. simpl in Hin. by apply elem_of_nil in Hin.
    - destruct (Hemitted l Hin) as [[d ->]|?]; [|by right].
      left. exists d. split; [done|]. right.
      apply count_occ_pos_elem_of with (dec := lal_node.LabelDecl_eq_dec).
      rewrite <- Ha.
      by apply count_occ_pos_elem_of with (dec := irt.Label_eq_dec) in Hin. }
  split; [done|]. split; [done|]. split; [done|].
  intros Hnodup Hsub l Hl.
  destruct (Htargets l Hl) as [(d & -> & Hin)|[_ ?]]; [|done].
  assert (d ∈ flat_map reached.labels (lal.f_subp_stmts subp)) as Hd'.
  { destruct Hin as [Hin|Hin]; [by apply Hsub|done]. }
  rewrite Ha. apply NoDup_ListNoDup in Hnodup.
  pose proof (proj1 (NoDup_count_occ lal_node.LabelDecl_eq_dec _) Hnodup d).
  apply count_occ_pos_elem_of with (dec := lal_node.LabelDecl_eq_dec) in Hd'.
  lia.
Qed.

End label_account.

Lemma lowered_labels_account_witness :
  ∃ prog,
    _gen_ir examples.ctx examples.goto_subp = Ok prog ∧
    ∀ l, l ∈ flat_map observe.goto_targets (irt.stmts prog) →
      count_occ irt.Label_eq_dec
        (flat_map observe.label_stmts (irt.stmts prog)) l = 1%nat.
Proof.
  eexists. split; [vm_compute; reflexivity|].
  destruct (lowered_labels_account examples.ctx examples.goto_subp _ eq_refl)
    as (_ & _ & _ & Hone).
  apply Hone.
  - apply (bool_decide_unpack _). vm_compute. exact I.
  - apply (bool_decide_unpack _). vm_compute. exact I.
Defined.

(** ** The names of the temporaries *)

Lemma for_each_counters_le {A B} (f : A → M B) l :
  (∀ x st y st', f x st = Ok (y, st') → counters_le st st') →
  ∀ st ys st', for_each f l st = Ok (ys, st') → counters_le st st'.
Proof.
  intros Hf. induction l as [|x l IH]; simpl; intros st ys st' H.
  - ret_inv H. by intros name.
  - bind_inv H as y st1 Hy. bind_inv H as ys' st2 Hys. ret_inv H.
    intros name. specialize (Hf _ _ _ _ Hy name).
    specialize (IH _ _ _ Hys name). lia.
Qed.

Lemma transform_decl_counters_le ctx decl st out st' :
  transform_decl ctx decl st = Ok (out, st') → counters_le st st'.
Proof.
  assert (∀ A (f : string → M A) ids st ys st',
    (∀ text st y st', f text st = Ok (y, st') → counters_le st st') →
    for_each f ids st = Ok (ys, st') → counters_le st st') as Heach.
  { intros A f ids st0 ys st0' Hf. by apply for_each_counters_le. }
  destruct decl as [| |node ids tdecl dflt|]; simpl; intros H.
  - ret_inv H. by intros name.
  - ret_inv H. by intros name.
  - bind_inv H as us st1 Hu.
    assert (counters_le st st1) as H1.
    { eapply Heach; [|exact Hu]. intros text s y s' Hset.
      unfold set_var_decl in Hset. injection Hset as <- <-.
      by intros name. }
    destruct dflt as [d|].
    + bind_inv H as [pre e] st2 He. bind_inv H as assigns st3 Ha. ret_inv H.
      apply transform_expr_state_le in He as (_ & _ & H2).
      assert (counters_le st2 st') as H3.
      { eapply Heach; [|exact Ha]. intros text s y s' Hget.
        bind_inv Hget as var s1 Hv. ret_inv Hget.
        apply get_var_decl_spec in Hv as ->. by intros name. }
      intros name. specialize (H1 name). specialize (H2 name).
      specialize (H3 name). lia.
    + assert (counters_le st1 st') as H3.
      { eapply Heach; [|exact H]. intros text s y s' Hget.
        bind_inv Hget as var s1 Hv. ret_inv Hget.
        apply get_var_decl_spec in Hv as ->. by intros name. }
      intros name. specialize (H1 name). specialize (H3 name). lia.
  - discriminate.
Qed.

Lemma transform_decls_counters_le ctx decls st out st' :
  transform_decls ctx decls st = Ok (out, st') → counters_le st st'.
Proof.
  unfold transform_decls. intros H. bind_inv H as outs st1 Ho. ret_inv H.
  eapply for_each_counters_le; [|exact Ho].
  intros decl s y s'. apply transform_decl_counters_le.
Qed.

(** X11.  Two lowerings of expressions, the second of which starts in a
    state whose count of temporaries is not below the one the first ended
    with, never assign the same temporary: the variables assigned in front
    of the first expression and those assigned in front of the second have
    different names.  Every step of the lowering that can come in between
    keeps the counts from going down: the lowering of an expression, of
    declarations, which extends the dictionary of variables, and of
    statements, which enters and leaves loops. *)
Theorem successive_lowerings_use_different_temporaries ctx :
  (∀ e1 st pre1 r1 st1 e2 st2 pre2 r2 st3 v1 v2,
     transform_expr ctx e1 st = Ok ((pre1, r1), st1) →
     (counter st1 "tmp" ≤ counter st2 "tmp")%nat →
     transform_expr ctx e2 st2 = Ok ((pre2, r2), st3) →
     v1 ∈ flat_map lowered.assigned_vars pre1 →
     v2 ∈ flat_map lowered.assigned_vars pre2 →
     irt.name v1 ≠ irt.name v2) ∧
  (∀ e st pre r st',
     transform_expr ctx e st = Ok ((pre, r), st') → counters_le st st') ∧
  (∀ decls st out st',
     transform_decls ctx decls st = Ok (out, st') → counters_le st st') ∧
  (∀ label_decls stmts st out st',
     transform_stmts ctx label_decls stmts st = Ok (out, st') →
     counters_le st st').
Proof.
  split; [|split; [|split]].
  - intros e1 st pre1 r1 st1 e2 st2 pre2 r2 st3 v1 v2 H1 Hle H2 Hv1 Hv2.
    apply transform_expr_pre in H1 as (_ & _ & _ & _ & Ha1).
    apply transform_expr_pre in H2 as (_ & _ & _ & _ & Ha2).
    rewrite Forall_forall in Ha1, Ha2.
    destruct (Ha1 _ Hv1) as (n1 & -> & _ & Hn1).
    destruct (Ha2 _ Hv2) as (n2 & -> & _ & Hn2).
    intros Heq. apply String.app_inj, pretty_nat_inj in Heq. lia.
  - intros e st pre r st' H.
    by apply transform_expr_state_le in H as (_ & _ & ?).
  - intros decls st out st'. apply transform_decls_counters_le.
  - intros label_decls stmts st out st' H.
    by apply transform_stmts_state_le in H as (_ & _ & ?).
Qed.

Lemma successive_lowerings_use_different_temporaries_witness :
  let later :=
    {| tmp_vars := {[ "tmp" := 1%nat ]};
       var_decls :=
         <[(1%N, "X") := examples.X_var]> (var_decls examples.B_C_declared);
       loop_stack := [(7%N, exit_label "exit_loop" 0)] |} in
  ∃ pre1 r1 st1 pre2 r2 st2,
    transform_expr examples.ctx
      (lal.BinOp examples.B lal.OpOrElse examples.C (Some Std_Boolean))
      examples.B_C_declared = Ok ((pre1, r1), st1) ∧
    transform_expr examples.ctx
      (lal.BinOp examples.B lal.OpAndThen examples.C (Some Std_Boolean))
      later = Ok ((pre2, r2), st2) ∧
    "tmp0" ≠ "tmp1".
Proof.
  intros later. eexists _, _, _, _, _, _.
  split; [vm_compute; reflexivity|]. split; [vm_compute; reflexivity|].
  eapply (proj1 (successive_lowerings_use_different_temporaries examples.ctx)
            (lal.BinOp examples.B lal.OpOrElse examples.C (Some Std_Boolean))
            examples.B_C_declared _ _ _
            (lal.BinOp examples.B lal.OpAndThen examples.C
               (Some Std_Boolean)) later _ _ _
            {| irt.name := "tmp0";
               irt.purpose := Some irt.SyntheticVariable;
               irt.var_type_hint := Some Std_Boolean |}
            {| irt.name := "tmp1";
               irt.purpose := Some irt.SyntheticVariable;
               irt.var_type_hint := Some Std_Boolean |}).
  1: (vm_compute; reflexivity).
  2: (vm_compute; reflexivity).
  1: (vm_compute; lia).
  all: apply (bool_decide_unpack _); vm_compute; exact I.
Defined.
